(** * MultibodyPlant: force resolution and state advancement

    A shallow embedding of the force-resolution core of
    [multibody/plant/multibody_plant.cc] and the properties proved of it:
    - joint-limit penalty forces ([AddJointLimitsPenaltyForces]) and the
      estimation of their parameters at finalize
      ([JointLimitsPenaltyParametersEstimator],
      [SetUpJointLimitsParameters]);
    - the Stribeck friction law ([StribeckModel]);
    - the continuous point-contact pass, the penalty and hydroelastic
      accumulation of contact forces, and the passes on a plant without
      collision geometry;
    - the assembly of the actuation input ([AssembleActuationInput]);
    - the algebraic-loop guard of the non-contact forces;
    - the discrete step ([CalcDiscreteStep]);
    - the heuristic for the point contact parameters
      ([EstimatePointContactParameters], [set_penetration_allowance]);
    - the registration of geometry ([RegisterCollisionGeometry],
      [RegisterVisualGeometry], [RegisterGeometry]);
    - the forces from the input ports ([AddInForcesFromInputPorts] and the
      three functions it calls) and the actuation matrix
      ([MakeActuationMatrix]);
    - the velocities of the unlocked joints ([CalcJointLockingIndices]);
    - the names of the positions of a model instance ([GetPositionNames]);
    - coupler constraints and the choice of the contact solver
      ([AddCouplerConstraint], [set_discrete_contact_solver]).

    Scalars.  The C++ scalar [double] (and the template scalar [T] at its
    default instantiation) is modelled by [double] below: a real number, or
    one of the IEEE special values +inf, -inf and NaN.  Arithmetic on finite
    values is exact real arithmetic (rounding and the sign of zero are not
    modelled); arithmetic on special values follows IEEE-754.

    Failures.  A function that can abort or throw returns a [result]; the
    constructor of the error tells [DRAKE_DEMAND], [DRAKE_THROW_UNLESS],
    [std::logic_error], [std::runtime_error] and [std::out_of_range]
    apart.  [DRAKE_ASSERT]s are armed in debug builds only and are left
    out.

    Collaborators.  What the plant calls but the file does not define
    (spatial algebra, geometry queries, tree kinematics and dynamics, the
    traction calculator) is a field of a record, so every statement holds
    for all of them; the examples instantiate them. *)

From Stdlib Require Import Reals Lra List String Ascii Bool Arith Lia DecimalString.
From Stdlib Require Import Sorting.Mergesort Sorting.Sorted Sorting.Permutation.
Import ListNotations.

Open Scope R_scope.

(* ================================================================== *)
(** * Part I: definitions *)
(* ================================================================== *)

(** ** The scalar model *)

Inductive double : Type :=
| Fin (r : R)
| PInf
| NInf
| NaN.

Definition Rltb (a b : R) : bool := if Rlt_dec a b then true else false.
Definition Rleb (a b : R) : bool := if Rle_dec a b then true else false.

Inductive sign : Type := Neg | Zero | Pos.

Definition Rsign (r : R) : sign :=
  if Rlt_dec 0 r then Pos else if Rlt_dec r 0 then Neg else Zero.

Definition dsign (x : double) : option sign :=
  match x with
  | Fin r => Some (Rsign r)
  | PInf => Some Pos
  | NInf => Some Neg
  | NaN => None
  end.

Definition signed_inf (s : sign) : double :=
  match s with Pos => PInf | Neg => NInf | Zero => NaN end.

Definition sign_mul (s t : sign) : sign :=
  match s, t with
  | Zero, _ | _, Zero => Zero
  | Pos, Pos | Neg, Neg => Pos
  | _, _ => Neg
  end.

Definition isnan (x : double) : bool :=
  match x with NaN => true | _ => false end.

Definition isinf (x : double) : bool :=
  match x with PInf | NInf => true | _ => false end.

Definition isfinite (x : double) : bool :=
  match x with Fin _ => true | _ => false end.

Definition dneg (x : double) : double :=
  match x with
  | Fin r => Fin (- r)
  | PInf => NInf
  | NInf => PInf
  | NaN => NaN
  end.

Definition dadd (x y : double) : double :=
  match x, y with
  | NaN, _ | _, NaN => NaN
  | Fin a, Fin b => Fin (a + b)
  | PInf, NInf | NInf, PInf => NaN
  | PInf, _ | _, PInf => PInf
  | NInf, _ | _, NInf => NInf
  end.

Definition dsub (x y : double) : double := dadd x (dneg y).

Definition dmul (x y : double) : double :=
  match x, y with
  | NaN, _ | _, NaN => NaN
  | Fin a, Fin b => Fin (a * b)
  | _, _ =>
      match dsign x, dsign y with
      | Some s, Some t => signed_inf (sign_mul s t)
      | _, _ => NaN
      end
  end.

(** Division; a zero divisor is read as +0. *)
Definition ddiv (x y : double) : double :=
  match x, y with
  | NaN, _ | _, NaN => NaN
  | Fin a, Fin b =>
      match Rsign b with
      | Zero => signed_inf (Rsign a)
      | _ => Fin (a / b)
      end
  | Fin _, _ => Fin 0
  | _, Fin b =>
      match dsign x, Rsign b with
      | Some s, Zero => signed_inf s
      | Some s, t => signed_inf (sign_mul s t)
      | None, _ => NaN
      end
  | _, _ => NaN
  end.

Definition dsqrt (x : double) : double :=
  match x with
  | Fin r => if Rlt_dec r 0 then NaN else Fin (sqrt r)
  | PInf => PInf
  | NInf => NaN
  | NaN => NaN
  end.

(** [x < y]; every comparison with NaN is false. *)
Definition dlt (x y : double) : bool :=
  match x, y with
  | NaN, _ | _, NaN => false
  | Fin a, Fin b => Rltb a b
  | NInf, NInf | PInf, _ | _, NInf => false
  | _, _ => true
  end.

Definition dle (x y : double) : bool :=
  match x, y with
  | NaN, _ | _, NaN => false
  | Fin a, Fin b => Rleb a b
  | NInf, _ | _, PInf => true
  | _, _ => false
  end.

Definition dgt (x y : double) : bool := dlt y x.
Definition dge (x y : double) : bool := dle y x.

(** [std::min(a, b)] is [(b < a) ? b : a]; [std::max(a, b)] is
    [(a < b) ? b : a]. *)
Definition std_min (a b : double) : double := if dlt b a then b else a.
Definition std_max (a b : double) : double := if dlt a b then b else a.

Definition M_PI : double := Fin PI.
Definition infinity : double := PInf.

(** ** Failures

    [DRAKE_DEMAND] aborts, [DRAKE_THROW_UNLESS] and [throw] raise an
    exception; both end the computation, and are told apart by the
    constructor. *)

Inductive error : Type :=
| DemandFailed (condition : string)
| ThrowUnlessFailed (condition : string)
| LogicError (message : string)
| RuntimeError (message : string)
| OutOfRange.

Inductive result (A : Type) : Type :=
| Ok (a : A)
| Err (e : error).

Arguments Ok {A} a.
Arguments Err {A} e.

Definition bind {A B : Type} (m : result A) (k : A -> result B) : result B :=
  match m with
  | Ok a => k a
  | Err e => Err e
  end.

Definition DRAKE_DEMAND (condition : bool) (text : string) : result unit :=
  if condition then Ok tt else Err (DemandFailed text).

Definition DRAKE_THROW_UNLESS (condition : bool) (text : string) : result unit :=
  if condition then Ok tt else Err (ThrowUnlessFailed text).

Declare Scope result_scope.
Delimit Scope result_scope with result.
Notation "x <- m ;; k" := (bind m (fun x => k))
  (at level 61, m at next level, right associativity) : result_scope.
Notation "m ;;; k" := (bind m (fun _ => k))
  (at level 61, right associativity) : result_scope.

(** ** Joint limit penalty forces (AddJointLimitsPenaltyForces) *)

(** The lambda [CalcPenaltyForce]. *)
Definition CalcPenaltyForce
    (lower_limit upper_limit stiffness damping : double) (q v : double)
  : result double :=
  (DRAKE_DEMAND (dle lower_limit upper_limit) "lower_limit <= upper_limit" ;;;
   DRAKE_DEMAND (dge stiffness (Fin 0)) "stiffness >= 0" ;;;
   DRAKE_DEMAND (dge damping (Fin 0)) "damping >= 0" ;;;
   if dgt q upper_limit then
     let delta_q := dsub q upper_limit in
     let limit_force := dsub (dmul (dneg stiffness) delta_q) (dmul damping v) in
     Ok (std_min limit_force (Fin 0))
   else if dlt q lower_limit then
     let delta_q := dsub q lower_limit in
     let limit_force := dsub (dmul (dneg stiffness) delta_q) (dmul damping v) in
     Ok (std_max limit_force (Fin 0))
   else Ok (Fin 0))%result.

(** ** Stribeck friction (StribeckModel) *)

Record CoulombFriction : Type := mkCoulombFriction {
  static_friction : double;
  dynamic_friction : double
}.

Record StribeckModel : Type := mkStribeckModel {
  v_stiction_tolerance_ : double;
  inv_v_stiction_tolerance_ : double
}.

(** Modelled from the spec: the setter of the stiction tolerance lives in the
    class header, which is not among the sources; the spec's
    [v = slip_speed / stiction_tolerance] fixes the stored inverse as
    [1 / stiction_tolerance]. *)
Definition set_stiction_tolerance (v_stiction : double) : StribeckModel :=
  {| v_stiction_tolerance_ := v_stiction;
     inv_v_stiction_tolerance_ := ddiv (Fin 1) v_stiction |}.

Definition stiction_tolerance (m : StribeckModel) : double :=
  v_stiction_tolerance_ m.

(** [step5]: [x3 * (10 + x * (6 * x - 15))]. *)
Definition step5 (x : double) : double :=
  let x3 := dmul (dmul x x) x in
  dmul x3 (dadd (Fin 10) (dmul x (dsub (dmul (Fin 6) x) (Fin 15)))).

(** [ComputeFrictionCoefficient]; its [DRAKE_ASSERT(speed_BcAc >= 0)] is
    armed in debug builds only and is not part of the computation. *)
Definition ComputeFrictionCoefficient
    (m : StribeckModel) (speed_BcAc : double) (friction : CoulombFriction)
  : double :=
  let mu_d := dynamic_friction friction in
  let mu_s := static_friction friction in
  let v := dmul speed_BcAc (inv_v_stiction_tolerance_ m) in
  if dge v (Fin 3) then mu_d
  else if dge v (Fin 1) then
    dsub mu_s (dmul (dsub mu_s mu_d) (step5 (ddiv (dsub v (Fin 1)) (Fin 2))))
  else dmul mu_s (step5 v).

(** The quintic of the specification, [10x^3 - 15x^4 + 6x^5]. *)
Definition s5 (x : R) : R := 10 * x ^ 3 - 15 * x ^ 4 + 6 * x ^ 5.

(** The value of a finite scalar. *)
Definition to_R (x : double) : R :=
  match x with Fin r => r | _ => 0 end.

(** The friction coefficient as a real function of the dimensionless slip
    speed [v] (a model with unit stiction tolerance). *)
Definition stribeck_curve (mu_s mu_d : R) (v : R) : R :=
  to_R (ComputeFrictionCoefficient (set_stiction_tolerance (Fin 1)) (Fin v)
          (mkCoulombFriction (Fin mu_s) (Fin mu_d))).

(** ** Joint limit penalty parameters (JointLimitsPenaltyParametersEstimator) *)

Definition BodyIndex := nat.
Definition JointIndex := nat.

Definition world_index : BodyIndex := 0%nat.

Record Body : Type := mkBody {
  body_index : BodyIndex;
  (** whether the body is a [RigidBody] (the target of the dynamic cast) *)
  is_rigid_body : bool;
  default_mass : double
}.

(** A frame fixed to a body.  [axis_inertia] stands for the scalar
    [axis' * (I_PJo_J * axis)] that the revolute estimator extracts from the
    body's spatial inertia, shifted and re-expressed in the frame; the
    spatial-inertia algebra is not among the sources. *)
Record Frame : Type := mkFrame {
  frame_body : Body;
  axis_inertia : double
}.

Record PrismaticJoint : Type := mkPrismaticJoint {
  prismatic_index : JointIndex;
  prismatic_parent_body : Body;
  prismatic_child_body : Body;
  prismatic_lower_limit : double;
  prismatic_upper_limit : double
}.

Record RevoluteJoint : Type := mkRevoluteJoint {
  revolute_index : JointIndex;
  frame_on_parent : Frame;
  frame_on_child : Frame;
  revolute_lower_limit : double;
  revolute_upper_limit : double
}.

Definition revolute_parent_body (j : RevoluteJoint) : Body :=
  frame_body (frame_on_parent j).
Definition revolute_child_body (j : RevoluteJoint) : Body :=
  frame_body (frame_on_child j).

Definition CalcCriticallyDampedHarmonicOscillatorParameters
    (period inertia : double) : double * double :=
  let damping_ratio := Fin 1 in
  let omega0 := ddiv (dmul (Fin 2) M_PI) period in
  let stiffness := dmul (dmul inertia omega0) omega0 in
  let damping :=
    dmul (dmul (Fin 2) damping_ratio) (dsqrt (dmul inertia stiffness)) in
  (stiffness, damping).

Definition PickLessStiffPenaltyParameters
    (params1 params2 : double * double) : double * double :=
  let stiffness1 := fst params1 in
  let stiffness2 := fst params2 in
  if dlt stiffness1 stiffness2 then params1 else params2.

Definition CalcPrismaticJointPenaltyParameters
    (joint : PrismaticJoint) (numerical_time_scale : double)
  : double * double :=
  let parent_mass :=
    if Nat.eqb (body_index (prismatic_parent_body joint)) world_index
    then infinity
    else default_mass (prismatic_parent_body joint) in
  let parent_params :=
    CalcCriticallyDampedHarmonicOscillatorParameters
      numerical_time_scale parent_mass in
  let child_mass :=
    if Nat.eqb (body_index (prismatic_child_body joint)) world_index
    then infinity
    else default_mass (prismatic_child_body joint) in
  let child_params :=
    CalcCriticallyDampedHarmonicOscillatorParameters
      numerical_time_scale child_mass in
  PickLessStiffPenaltyParameters parent_params child_params.

(** The lambda [CalcRotationalInertiaAboutAxis]. *)
Definition CalcRotationalInertiaAboutAxis (frame : Frame) : result double :=
  (DRAKE_THROW_UNLESS (is_rigid_body (frame_body frame)) "body != nullptr" ;;;
   if isnan (default_mass (frame_body frame)) then Ok infinity
   else Ok (axis_inertia frame))%result.

Definition CalcRevoluteJointPenaltyParameters
    (joint : RevoluteJoint) (numerical_time_scale : double)
  : result (double * double) :=
  (I_Pa <- (if Nat.eqb (body_index (revolute_parent_body joint)) world_index
            then Ok infinity
            else CalcRotationalInertiaAboutAxis (frame_on_parent joint)) ;;
   let parent_params :=
     CalcCriticallyDampedHarmonicOscillatorParameters
       numerical_time_scale I_Pa in
   I_Ca <- (if Nat.eqb (body_index (revolute_child_body joint)) world_index
            then Ok infinity
            else CalcRotationalInertiaAboutAxis (frame_on_child joint)) ;;
   let child_params :=
     CalcCriticallyDampedHarmonicOscillatorParameters
       numerical_time_scale I_Ca in
   Ok (PickLessStiffPenaltyParameters parent_params child_params))%result.

(** The joints of a plant, as far as [SetUpJointLimitsParameters] tells them
    apart. *)
Inductive Joint : Type :=
| Revolute (j : RevoluteJoint)
| Prismatic (j : PrismaticJoint)
| OtherJoint (index : JointIndex).

Record JointLimitsParameters : Type := mkJointLimitsParameters {
  joints_with_limits : list JointIndex;
  lower_limit : list double;
  upper_limit : list double;
  stiffness : list double;
  damping : list double
}.

Definition no_joint_limits : JointLimitsParameters :=
  mkJointLimitsParameters [] [] [] [] [].

Definition push_joint_limit
    (p : JointLimitsParameters) (index : JointIndex)
    (lower upper : double) (penalty_parameters : double * double)
  : JointLimitsParameters :=
  {| joints_with_limits := joints_with_limits p ++ [index];
     lower_limit := lower_limit p ++ [lower];
     upper_limit := upper_limit p ++ [upper];
     stiffness := stiffness p ++ [fst penalty_parameters];
     damping := damping p ++ [snd penalty_parameters] |}.

Definition kAlpha : double := dmul (Fin 20) M_PI.

(** One iteration of the loop of [SetUpJointLimitsParameters]. *)
Definition SetUpJointLimitsParameters_joint
    (time_step : double) (p : JointLimitsParameters) (joint : Joint)
  : result JointLimitsParameters :=
  let penalty_time_scale := dmul kAlpha time_step in
  match joint with
  | OtherJoint _ => Ok p
  | Revolute revolute_joint =>
      let lower := revolute_lower_limit revolute_joint in
      let upper := revolute_upper_limit revolute_joint in
      if negb (isinf lower) || negb (isinf upper) then
        (penalty_parameters <-
           CalcRevoluteJointPenaltyParameters revolute_joint penalty_time_scale ;;
         Ok (push_joint_limit p (revolute_index revolute_joint) lower upper
               penalty_parameters))%result
      else Ok p
  | Prismatic prismatic_joint =>
      let lower := prismatic_lower_limit prismatic_joint in
      let upper := prismatic_upper_limit prismatic_joint in
      if negb (isinf lower) || negb (isinf upper) then
        let penalty_parameters :=
          CalcPrismaticJointPenaltyParameters prismatic_joint penalty_time_scale in
        Ok (push_joint_limit p (prismatic_index prismatic_joint) lower upper
              penalty_parameters)
      else Ok p
  end.

Fixpoint SetUpJointLimitsParameters_loop
    (time_step : double) (joints : list Joint) (p : JointLimitsParameters)
  : result JointLimitsParameters :=
  match joints with
  | [] => Ok p
  | joint :: rest =>
      (p' <- SetUpJointLimitsParameters_joint time_step p joint ;;
       SetUpJointLimitsParameters_loop time_step rest p')%result
  end.

Definition SetUpJointLimitsParameters
    (time_step : double) (joints : list Joint) : result JointLimitsParameters :=
  SetUpJointLimitsParameters_loop time_step joints no_joint_limits.

(** The rule of the specification for one side of a joint: the inertia is
    infinite when the side is the world body or the body's mass is NaN, and
    the inertia estimate of the body otherwise. *)
Definition spec_side_inertia (body : Body) (estimate : double) : double :=
  if Nat.eqb (body_index body) world_index || isnan (default_mass body)
  then infinity else estimate.

(** The pair of the specification: the critically damped estimate of each
    side, and of the two the one with the smaller stiffness. *)
Definition spec_penalty_parameters
    (period : double) (parent child : Body) (parent_estimate child_estimate : double)
  : double * double :=
  PickLessStiffPenaltyParameters
    (CalcCriticallyDampedHarmonicOscillatorParameters period
       (spec_side_inertia parent parent_estimate))
    (CalcCriticallyDampedHarmonicOscillatorParameters period
       (spec_side_inertia child child_estimate)).

(** A sliding joint between two moving bodies, the child's mass left
    unspecified. *)
Definition heavy_parent : Body := mkBody 1%nat true (Fin 100).
Definition unspecified_child : Body := mkBody 2%nat true NaN.
Definition nan_mass_slider : PrismaticJoint :=
  mkPrismaticJoint 0%nat heavy_parent unspecified_child (Fin 0) (Fin 1).

(** ** Vectors and spatial quantities *)

Record Vector3 : Type := mkVector3 { vx : double; vy : double; vz : double }.

Definition v3_zero : Vector3 := mkVector3 (Fin 0) (Fin 0) (Fin 0).
Definition v3_add (a b : Vector3) : Vector3 :=
  mkVector3 (dadd (vx a) (vx b)) (dadd (vy a) (vy b)) (dadd (vz a) (vz b)).
Definition v3_sub (a b : Vector3) : Vector3 :=
  mkVector3 (dsub (vx a) (vx b)) (dsub (vy a) (vy b)) (dsub (vz a) (vz b)).
Definition v3_neg (a : Vector3) : Vector3 :=
  mkVector3 (dneg (vx a)) (dneg (vy a)) (dneg (vz a)).
Definition v3_scale (s : double) (a : Vector3) : Vector3 :=
  mkVector3 (dmul s (vx a)) (dmul s (vy a)) (dmul s (vz a)).
Definition v3_div (a : Vector3) (s : double) : Vector3 :=
  mkVector3 (ddiv (vx a) s) (ddiv (vy a) s) (ddiv (vz a) s).
Definition v3_dot (a b : Vector3) : double :=
  dadd (dadd (dmul (vx a) (vx b)) (dmul (vy a) (vy b))) (dmul (vz a) (vz b)).
Definition squaredNorm (a : Vector3) : double := v3_dot a a.


Record SpatialForce : Type := mkSpatialForce {
  force_rotational : Vector3;
  force_translational : Vector3
}.

Record SpatialVelocity : Type := mkSpatialVelocity {
  velocity_rotational : Vector3;
  velocity_translational : Vector3
}.

Definition SpatialForce_Zero : SpatialForce := mkSpatialForce v3_zero v3_zero.

Definition SpatialForce_add (F G : SpatialForce) : SpatialForce :=
  mkSpatialForce (v3_add (force_rotational F) (force_rotational G))
                 (v3_add (force_translational F) (force_translational G)).

Definition SpatialForce_neg (F : SpatialForce) : SpatialForce :=
  mkSpatialForce (v3_neg (force_rotational F)) (v3_neg (force_translational F)).

(** A pose: the rotation matrix by rows, and the translation. *)
Record RigidTransform : Type := mkRigidTransform {
  rotation : Vector3 * Vector3 * Vector3;
  translation : Vector3
}.

(** ** Geometry, plant and context, as the contact passes read them *)

(** A geometry identifier; [None] is the null identifier. *)
Definition GeometryId := option nat.
Definition BodyNodeIndex := nat.

Record ProximityProperties : Type := mkProximityProperties {
  point_stiffness : option double;      (* (material, point_stiffness) *)
  hc_dissipation : option double;       (* (material, hunt_crossley_dissipation) *)
  coulomb_friction : option CoulombFriction   (* (material, coulomb_friction) *)
}.

Definition SceneGraphInspector := GeometryId -> option ProximityProperties.

Record PenetrationAsPointPair : Type := mkPenetrationAsPointPair {
  id_A : GeometryId;
  id_B : GeometryId;
  p_WCa : Vector3;
  p_WCb : Vector3;
  nhat_BA_W : Vector3;
  depth : double
}.

(** A hydroelastic contact surface; [surface_tag] stands for its mesh and
    pressure field. *)
Record ContactSurface : Type := mkContactSurface {
  id_M : GeometryId;
  id_N : GeometryId;
  surface_tag : nat
}.

Record QueryObject : Type := mkQueryObject {
  inspector : SceneGraphInspector;
  ComputePointPairPenetration : list PenetrationAsPointPair;
  ComputeContactSurfaces : list ContactSurface;
  ComputeContactSurfacesWithFallback :
    list ContactSurface * list PenetrationAsPointPair
}.

Inductive ContactModel : Type :=
| kPoint
| kHydroelastic
| kHydroelasticWithFallback.

Record ContactParameters : Type := mkContactParameters {
  geometry_stiffness : double;
  dissipation : double
}.

Record MultibodyPlant : Type := mkMultibodyPlant {
  is_discrete : bool;
  num_bodies : nat;
  num_collision_geometries : nat;
  geometry_id_to_body_index_ : nat -> option BodyIndex;
  (** [get_body(i).node_index()] *)
  node_index : BodyIndex -> BodyNodeIndex;
  contact_model_ : ContactModel;
  friction_model_ : StribeckModel;
  penalty_method_contact_parameters_ : ContactParameters
}.

Record Context : Type := mkContext {
  (** the value of the geometry query input port, if it has one *)
  geometry_query_input_port : option QueryObject;
  (** position kinematics: the pose of each body in world *)
  X_WB : BodyNodeIndex -> RigidTransform;
  (** velocity kinematics: the spatial velocity of each body in world *)
  V_WB : BodyNodeIndex -> SpatialVelocity
}.

Definition newline : string := String (ascii_of_nat 10) EmptyString.

(** [fmt::format] of an index. *)
Definition format_index (n : nat) : string :=
  NilEmpty.string_of_uint (Nat.to_uint n).

Definition disconnected_geometry_port_message (explanation : string) : string :=
  (explanation ++ newline ++ newline ++
   "The provided context doesn't show a connection for the plant's " ++
   "query input port (see MultibodyPlant::get_geometry_query_input_port())" ++
   ". See https://drake.mit.edu/troubleshooting.html" ++
   "#mbp-unconnected-query-object-port for help.")%string.

Definition ThrowForDisconnectedGeometryPort {A : Type} (explanation : string)
  : result A :=
  Err (LogicError (disconnected_geometry_port_message explanation)).

Definition EvalGeometryQueryInput
    (context : Context) (explanation : string) : result QueryObject :=
  match geometry_query_input_port context with
  | None => ThrowForDisconnectedGeometryPort explanation
  | Some query_object => Ok query_object
  end.

Definition HasValue {A : Type} (port : option A) : bool :=
  match port with Some _ => true | None => false end.

Definition IsValidGeometryInput (plant : MultibodyPlant) (context : Context)
  : bool :=
  Nat.eqb (num_collision_geometries plant) 0
  || HasValue (geometry_query_input_port context).

Definition ValidateGeometryInput
    (plant : MultibodyPlant) (context : Context) (explanation : string)
  : result unit :=
  if negb (IsValidGeometryInput plant context)
  then ThrowForDisconnectedGeometryPort explanation
  else Ok tt.

Definition CalcPointPairPenetrations
    (plant : MultibodyPlant) (context : Context)
  : result (list PenetrationAsPointPair) :=
  if Nat.ltb 0 (num_collision_geometries plant) then
    (query_object <- EvalGeometryQueryInput context "CalcPointPairPenetrations" ;;
     Ok (ComputePointPairPenetration query_object))%result
  else Ok [].

Definition CalcContactSurfaces (plant : MultibodyPlant) (context : Context)
  : result (list ContactSurface) :=
  (query_object <- EvalGeometryQueryInput context "CalcContactSurfaces" ;;
   Ok (ComputeContactSurfaces query_object))%result.

Definition FindBodyByGeometryId (plant : MultibodyPlant) (geometry_id : GeometryId)
  : result BodyIndex :=
  match geometry_id with
  | None =>
      Err (LogicError
             "MultibodyPlant received contact results for a null GeometryId")
  | Some id =>
      match geometry_id_to_body_index_ plant id with
      | Some body => Ok body
      | None =>
          Err (LogicError
                 ("MultibodyPlant received contact results for GeometryId " ++
                  format_index id ++
                  ", but that ID is not known to this plant")%string)
      end
  end.

(** ** The continuous point-contact pass *)

Record PointPairContactInfo : Type := mkPointPairContactInfo {
  bodyA_index : BodyIndex;
  bodyB_index : BodyIndex;
  contact_force : Vector3;      (* f_Bc_W *)
  contact_point : Vector3;      (* p_WC *)
  normal_speed : double;        (* the fifth argument, [vn] *)
  slip_speed : double;
  point_pair : PenetrationAsPointPair
}.

Record HydroelasticContactInfo : Type := mkHydroelasticContactInfo {
  contact_surface : ContactSurface;
  F_Ac_W : SpatialForce
}.

Record ContactResults : Type := mkContactResults {
  (** whether [plant()] is the plant that evaluates *)
  plant_is_this : bool;
  point_pair_contact_info : list PointPairContactInfo;
  hydroelastic_contact_info : list HydroelasticContactInfo
}.

(** What the hydroelastic traction calculator is given for one surface. *)
Record TractionData : Type := mkTractionData {
  data_X_WA : RigidTransform;
  data_X_WB : RigidTransform;
  data_V_WA : SpatialVelocity;
  data_V_WB : SpatialVelocity;
  data_surface : ContactSurface
}.

(** The collaborators of the contact passes that are declared outside the
    sources, taken as given:
    - the shift of a spatial force or velocity to another point of its body
      (the spatial-vector classes);
    - the free functions that combine the properties of two geometries;
    - the accessors of the cached geometry queries (class header): which of
      the cache entries declared in [DeclareCacheEntries] each one reads;
    - the hydroelastic engine and the traction calculator. *)
Record Collaborators : Type := mkCollaborators {
  force_Shift : SpatialForce -> Vector3 -> SpatialForce;
  velocity_Shift : SpatialVelocity -> Vector3 -> SpatialVelocity;
  CombinePointContactParameters :
    double -> double -> double -> double -> double * double;
  CalcContactFrictionFromSurfaceProperties :
    CoulombFriction -> CoulombFriction -> CoulombFriction;
  EvalPointPairPenetrations :
    Context -> result (list PenetrationAsPointPair);
  EvalContactSurfaces : Context -> result (list ContactSurface);
  CalcCombinedDissipation :
    GeometryId -> GeometryId -> SceneGraphInspector -> double;
  (** stiction tolerance, data, dissipation, dynamic friction *)
  ComputeSpatialForcesAtCentroidFromHydroelasticModel :
    double -> TractionData -> double -> double -> SpatialForce;
  ShiftSpatialForcesAtCentroidToBodyOrigins :
    TractionData -> SpatialForce -> SpatialForce * SpatialForce
}.

Definition GetPropertyOrDefault (property : option double) (default : double)
  : double :=
  match property with Some value => value | None => default end.

Definition GetPointContactParameters
    (plant : MultibodyPlant) (id : GeometryId) (insp : SceneGraphInspector)
  : result (double * double) :=
  match insp id with
  | None => Err (DemandFailed "prop != nullptr")
  | Some prop =>
      Ok (GetPropertyOrDefault (point_stiffness prop)
            (geometry_stiffness (penalty_method_contact_parameters_ plant)),
          GetPropertyOrDefault (hc_dissipation prop)
            (dissipation (penalty_method_contact_parameters_ plant)))
  end.

Definition GetCoulombFriction
    (id : GeometryId) (insp : SceneGraphInspector) : result CoulombFriction :=
  match insp id with
  | None => Err (DemandFailed "prop != nullptr")
  | Some prop =>
      match coulomb_friction prop with
      | None => Err (ThrowUnlessFailed "prop->HasProperty(material, coulomb_friction)")
      | Some friction => Ok friction
      end
  end.

(** The velocity in world of the point of a body that coincides with the
    contact point [C]: [vc.get_V_WB(node).Shift(-p_CoBo_W).translational()]. *)
Definition contact_point_velocity
    (ext : Collaborators) (context : Context)
    (body_node_index : BodyNodeIndex) (p_WC : Vector3) : Vector3 :=
  let p_WBo := translation (X_WB context body_node_index) in
  let p_CoBo_W := v3_sub p_WBo p_WC in
  velocity_translational
    (velocity_Shift ext (V_WB context body_node_index) (v3_neg p_CoBo_W)).

Definition kNonZeroSqd : double := Fin (1e-14 * 1e-14).

(** Parts of the body of the loop of
    [AppendContactResultsContinuousPointPair], named after the variables
    they compute. *)

(** [p_WC = 0.5 * (p_WCa + p_WCb)] *)
Definition contact_point_C (pair : PenetrationAsPointPair) : Vector3 :=
  v3_scale (Fin (5 / 10)) (v3_add (p_WCa pair) (p_WCb pair)).

(** [v_AcBc_W = v_WBc - v_WAc] *)
Definition relative_contact_velocity
    (ext : Collaborators) (context : Context)
    (bodyA_node_index bodyB_node_index : BodyNodeIndex) (p_WC : Vector3)
  : Vector3 :=
  let v_WAc := contact_point_velocity ext context bodyA_node_index p_WC in
  let v_WBc := contact_point_velocity ext context bodyB_node_index p_WC in
  v3_sub v_WBc v_WAc.

(** [fn_AC = k * x * (1.0 + d * vn)] *)
Definition normal_force_magnitude (k d x vn : double) : double :=
  dmul (dmul k x) (dadd (Fin 1) (dmul d vn)).

(** The block guarded by [fn_AC > 0]: the force [f_Bc_W] on body B at the
    contact point and the slip speed. *)
Definition point_contact_force
    (plant : MultibodyPlant) (combined_friction : CoulombFriction)
    (fn_AC vn : double) (v_AcBc_W nhat_BA_W : Vector3) : Vector3 * double :=
  let fn_AC_W := v3_scale fn_AC nhat_BA_W in
  let vt_AcBc_W := v3_sub v_AcBc_W (v3_scale vn nhat_BA_W) in
  let vt_squared := squaredNorm vt_AcBc_W in
  let '(ft_AC_W, slip_velocity) :=
    if dgt vt_squared kNonZeroSqd then
      let slip_velocity := dsqrt vt_squared in
      let mu_stribeck :=
        ComputeFrictionCoefficient (friction_model_ plant)
          slip_velocity combined_friction in
      let that_W := v3_div vt_AcBc_W slip_velocity in
      let ft_AC := dmul mu_stribeck fn_AC in
      (v3_scale ft_AC that_W, slip_velocity)
    else (v3_zero, Fin 0) in
  let F_AC_W := mkSpatialForce v3_zero (v3_add fn_AC_W ft_AC_W) in
  let f_Bc_W := v3_neg (force_translational F_AC_W) in
  (f_Bc_W, slip_velocity).

Definition AddContactInfo
    (contact_results : ContactResults) (info : PointPairContactInfo)
  : ContactResults :=
  {| plant_is_this := plant_is_this contact_results;
     point_pair_contact_info := point_pair_contact_info contact_results ++ [info];
     hydroelastic_contact_info := hydroelastic_contact_info contact_results |}.

(** The body of the loop of [AppendContactResultsContinuousPointPair]: the
    contact results after the pair [pair] has been looked at.  (The
    [DRAKE_ASSERT(x >= 0)] on the depth is armed in debug builds only.) *)
Definition AppendContactResultsContinuousPointPair_pair
    (plant : MultibodyPlant) (ext : Collaborators) (context : Context)
    (insp : SceneGraphInspector)
    (contact_results : ContactResults) (pair : PenetrationAsPointPair)
  : result ContactResults :=
  (let geometryA_id := id_A pair in
   let geometryB_id := id_B pair in
   bodyA_index <- FindBodyByGeometryId plant geometryA_id ;;
   bodyB_index <- FindBodyByGeometryId plant geometryB_id ;;
   let bodyA_node_index := node_index plant bodyA_index in
   let bodyB_node_index := node_index plant bodyB_index in
   let x := depth pair in
   let nhat_BA_W := nhat_BA_W pair in
   let p_WC := contact_point_C pair in
   let v_AcBc_W :=
     relative_contact_velocity ext context bodyA_node_index bodyB_node_index
       p_WC in
   let vn := v3_dot v_AcBc_W nhat_BA_W in
   kdA <- GetPointContactParameters plant geometryA_id insp ;;
   kdB <- GetPointContactParameters plant geometryB_id insp ;;
   let kd := CombinePointContactParameters ext
               (fst kdA) (fst kdB) (snd kdA) (snd kdB) in
   let k := fst kd in
   let d := snd kd in
   let fn_AC := normal_force_magnitude k d x vn in
   geometryA_friction <- GetCoulombFriction geometryA_id insp ;;
   geometryB_friction <- GetCoulombFriction geometryB_id insp ;;
   let combined_friction :=
     CalcContactFrictionFromSurfaceProperties ext
       geometryA_friction geometryB_friction in
   if dgt fn_AC (Fin 0) then
     let '(f_Bc_W, slip_velocity) :=
       point_contact_force plant combined_friction fn_AC vn v_AcBc_W nhat_BA_W in
     Ok (AddContactInfo contact_results
           (mkPointPairContactInfo bodyA_index bodyB_index f_Bc_W p_WC vn
              slip_velocity pair))
   else Ok contact_results)%result.

Fixpoint AppendContactResultsContinuousPointPair_loop
    (plant : MultibodyPlant) (ext : Collaborators) (context : Context)
    (insp : SceneGraphInspector)
    (point_pairs : list PenetrationAsPointPair) (contact_results : ContactResults)
  : result ContactResults :=
  match point_pairs with
  | [] => Ok contact_results
  | pair_ :: rest =>
      (contact_results' <-
         AppendContactResultsContinuousPointPair_pair
           plant ext context insp contact_results pair_ ;;
       AppendContactResultsContinuousPointPair_loop
         plant ext context insp rest contact_results')%result
  end.

Definition AppendContactResultsContinuousPointPair
    (plant : MultibodyPlant) (ext : Collaborators) (context : Context)
    (contact_results : ContactResults) : result ContactResults :=
  (DRAKE_DEMAND (plant_is_this contact_results)
     "contact_results->plant() == this" ;;;
   point_pairs <- EvalPointPairPenetrations ext context ;;
   query_object <-
     EvalGeometryQueryInput context "AppendContactResultsContinuousPointPair" ;;
   AppendContactResultsContinuousPointPair_loop plant ext context
     (inspector query_object) point_pairs contact_results)%result.

(** ** Accumulating contact forces *)

Fixpoint list_update {A : Type} (l : list A) (i : nat) (x : A) : list A :=
  match l, i with
  | [], _ => []
  | _ :: rest, O => x :: rest
  | y :: rest, S i' => y :: list_update rest i' x
  end.

(** [array.at(i) += F]; [at] throws when [i] is out of range. *)
Definition at_add (array : list SpatialForce) (i : nat) (F : SpatialForce)
  : result (list SpatialForce) :=
  match nth_error array i with
  | Some G => Ok (list_update array i (SpatialForce_add G F))
  | None => Err OutOfRange
  end.

Record HydroelasticContactInfoAndBodySpatialForces : Type :=
  mkHydroelasticContactInfoAndBodySpatialForces {
    F_BBo_W_array : list SpatialForce;
    contact_info : list HydroelasticContactInfo
  }.

(** The body of the loop of [CalcHydroelasticContactForces].  Both property
    sets are fetched with [geometryM_id], as in the source. *)
Definition CalcHydroelasticContactForces_surface
    (plant : MultibodyPlant) (ext : Collaborators) (context : Context)
    (insp : SceneGraphInspector)
    (acc : HydroelasticContactInfoAndBodySpatialForces) (surface : ContactSurface)
  : result HydroelasticContactInfoAndBodySpatialForces :=
  (let geometryM_id := id_M surface in
   let geometryN_id := id_N surface in
   let propM := insp geometryM_id in
   let propN := insp geometryM_id in
   propM <- match propM with
            | Some prop => Ok prop
            | None => Err (DemandFailed "propM != nullptr")
            end ;;
   propN <- match propN with
            | Some prop => Ok prop
            | None => Err (DemandFailed "propN != nullptr")
            end ;;
   geometryM_friction <-
     match coulomb_friction propM with
     | Some friction => Ok friction
     | None => Err (ThrowUnlessFailed "propM->HasProperty(material, coulomb_friction)")
     end ;;
   geometryN_friction <-
     match coulomb_friction propN with
     | Some friction => Ok friction
     | None => Err (ThrowUnlessFailed "propN->HasProperty(material, coulomb_friction)")
     end ;;
   let combined_friction :=
     CalcContactFrictionFromSurfaceProperties ext
       geometryM_friction geometryN_friction in
   let dynamic_friction := dynamic_friction combined_friction in
   bodyA_index <- FindBodyByGeometryId plant geometryM_id ;;
   bodyB_index <- FindBodyByGeometryId plant geometryN_id ;;
   let nodeA := node_index plant bodyA_index in
   let nodeB := node_index plant bodyB_index in
   let data := mkTractionData (X_WB context nodeA) (X_WB context nodeB)
                 (V_WB context nodeA) (V_WB context nodeB) surface in
   let dissipation :=
     CalcCombinedDissipation ext geometryM_id geometryN_id insp in
   let F_Ac_W :=
     ComputeSpatialForcesAtCentroidFromHydroelasticModel ext
       (stiction_tolerance (friction_model_ plant)) data dissipation
       dynamic_friction in
   let '(F_Ao_W, F_Bo_W) :=
     ShiftSpatialForcesAtCentroidToBodyOrigins ext data F_Ac_W in
   F1 <- (if negb (Nat.eqb bodyA_index world_index)
          then at_add (F_BBo_W_array acc) nodeA F_Ao_W
          else Ok (F_BBo_W_array acc)) ;;
   F2 <- (if negb (Nat.eqb bodyB_index world_index)
          then at_add F1 nodeB F_Bo_W
          else Ok F1) ;;
   Ok {| F_BBo_W_array := F2;
         contact_info :=
           contact_info acc ++ [mkHydroelasticContactInfo surface F_Ac_W] |})%result.

Fixpoint CalcHydroelasticContactForces_loop
    (plant : MultibodyPlant) (ext : Collaborators) (context : Context)
    (insp : SceneGraphInspector)
    (all_surfaces : list ContactSurface)
    (acc : HydroelasticContactInfoAndBodySpatialForces)
  : result HydroelasticContactInfoAndBodySpatialForces :=
  match all_surfaces with
  | [] => Ok acc
  | surface :: rest =>
      (acc' <- CalcHydroelasticContactForces_surface
                 plant ext context insp acc surface ;;
       CalcHydroelasticContactForces_loop plant ext context insp rest acc')%result
  end.

Definition CalcHydroelasticContactForces
    (plant : MultibodyPlant) (ext : Collaborators) (context : Context)
    (contact_info_and_body_forces : HydroelasticContactInfoAndBodySpatialForces)
  : result HydroelasticContactInfoAndBodySpatialForces :=
  (DRAKE_DEMAND
     (Nat.eqb (List.length (F_BBo_W_array contact_info_and_body_forces))
              (num_bodies plant))
     "ssize(F_BBo_W_array) == num_bodies()" ;;;
   let F_BBo_W_array := repeat SpatialForce_Zero (num_bodies plant) in
   if Nat.eqb (num_collision_geometries plant) 0 then
     Ok {| F_BBo_W_array := F_BBo_W_array;
           contact_info := contact_info contact_info_and_body_forces |}
   else
     all_surfaces <- EvalContactSurfaces ext context ;;
     query_object <- EvalGeometryQueryInput context "CalcHydroelasticContactForces" ;;
     CalcHydroelasticContactForces_loop plant ext context
       (inspector query_object) all_surfaces
       {| F_BBo_W_array := F_BBo_W_array; contact_info := [] |})%result.

(** The cache entry "Hydroelastic contact info and body spatial forces." is
    declared with a default value of [num_bodies()] forces and computed by
    [CalcHydroelasticContactForces]. *)
Definition EvalHydroelasticContactForces
    (plant : MultibodyPlant) (ext : Collaborators) (context : Context)
  : result HydroelasticContactInfoAndBodySpatialForces :=
  CalcHydroelasticContactForces plant ext context
    {| F_BBo_W_array := repeat SpatialForce_Zero (num_bodies plant);
       contact_info := [] |}.

Definition AppendContactResultsContinuousHydroelastic
    (plant : MultibodyPlant) (ext : Collaborators) (context : Context)
    (contact_results : ContactResults) : result ContactResults :=
  (DRAKE_DEMAND (plant_is_this contact_results)
     "contact_results->plant() == this" ;;;
   contact_info_and_spatial_body_forces <-
     EvalHydroelasticContactForces plant ext context ;;
   Ok {| plant_is_this := plant_is_this contact_results;
         point_pair_contact_info := point_pair_contact_info contact_results;
         hydroelastic_contact_info :=
           hydroelastic_contact_info contact_results ++
           contact_info contact_info_and_spatial_body_forces |})%result.

(** [contact_results] is cleared and bound to this plant whatever it held,
    so the function does not depend on it. *)
Definition CalcContactResultsContinuous
    (plant : MultibodyPlant) (ext : Collaborators) (context : Context)
  : result ContactResults :=
  let contact_results := mkContactResults true [] [] in
  if Nat.eqb (num_collision_geometries plant) 0 then Ok contact_results
  else
    match contact_model_ plant with
    | kPoint =>
        AppendContactResultsContinuousPointPair plant ext context contact_results
    | kHydroelastic =>
        AppendContactResultsContinuousHydroelastic plant ext context contact_results
    | kHydroelasticWithFallback =>
        (contact_results' <-
           AppendContactResultsContinuousPointPair plant ext context
             contact_results ;;
         AppendContactResultsContinuousHydroelastic plant ext context
           contact_results')%result
    end.

(** In continuous mode the cache entry "Contact results." is computed by
    [CalcContactResultsContinuous]. *)
Definition EvalContactResults := CalcContactResultsContinuous.

Record HydroelasticFallbackCacheData : Type := mkHydroelasticFallbackCacheData {
  fallback_contact_surfaces : list ContactSurface;
  fallback_point_pairs : list PenetrationAsPointPair
}.

Definition CalcHydroelasticWithFallback
    (plant : MultibodyPlant) (context : Context)
    (data : HydroelasticFallbackCacheData)
  : result HydroelasticFallbackCacheData :=
  if Nat.ltb 0 (num_collision_geometries plant) then
    (query_object <- EvalGeometryQueryInput context "CalcHydroelasticWithFallback" ;;
     let '(surfaces, pairs) := ComputeContactSurfacesWithFallback query_object in
     Ok (mkHydroelasticFallbackCacheData surfaces pairs))%result
  else Ok data.

(** The body of the loop of [CalcAndAddContactForcesByPenaltyMethod]. *)
Definition CalcAndAddContactForcesByPenaltyMethod_pair
    (plant : MultibodyPlant) (ext : Collaborators) (context : Context)
    (F_BBo_W_array : list SpatialForce) (contact_info : PointPairContactInfo)
  : result (list SpatialForce) :=
  (let pair := point_pair contact_info in
   let geometryA_id := id_A pair in
   let geometryB_id := id_B pair in
   bodyA_index <- FindBodyByGeometryId plant geometryA_id ;;
   bodyB_index <- FindBodyByGeometryId plant geometryB_id ;;
   let bodyA_node_index := node_index plant bodyA_index in
   let bodyB_node_index := node_index plant bodyB_index in
   let p_WC := contact_point contact_info in
   let p_WAo := translation (X_WB context bodyA_node_index) in
   let p_CoAo_W := v3_sub p_WAo p_WC in
   let p_WBo := translation (X_WB context bodyB_node_index) in
   let p_CoBo_W := v3_sub p_WBo p_WC in
   let f_Bc_W := contact_force contact_info in
   let F_AC_W := mkSpatialForce v3_zero (v3_neg f_Bc_W) in
   F1 <- (if negb (Nat.eqb bodyA_index world_index) then
            let F_AAo_W := force_Shift ext F_AC_W p_CoAo_W in
            at_add F_BBo_W_array bodyA_node_index F_AAo_W
          else Ok F_BBo_W_array) ;;
   if negb (Nat.eqb bodyB_index world_index) then
     let F_BBo_W := SpatialForce_neg (force_Shift ext F_AC_W p_CoBo_W) in
     at_add F1 bodyB_node_index F_BBo_W
   else Ok F1)%result.

Fixpoint CalcAndAddContactForcesByPenaltyMethod_loop
    (plant : MultibodyPlant) (ext : Collaborators) (context : Context)
    (infos : list PointPairContactInfo) (F_BBo_W_array : list SpatialForce)
  : result (list SpatialForce) :=
  match infos with
  | [] => Ok F_BBo_W_array
  | contact_info :: rest =>
      (F' <- CalcAndAddContactForcesByPenaltyMethod_pair
               plant ext context F_BBo_W_array contact_info ;;
       CalcAndAddContactForcesByPenaltyMethod_loop plant ext context rest F')%result
  end.

Definition CalcAndAddContactForcesByPenaltyMethod
    (plant : MultibodyPlant) (ext : Collaborators) (context : Context)
    (F_BBo_W_array : list SpatialForce) : result (list SpatialForce) :=
  (DRAKE_DEMAND (Nat.eqb (List.length F_BBo_W_array) (num_bodies plant))
     "ssize(*F_BBo_W_array) == num_bodies()" ;;;
   if Nat.eqb (num_collision_geometries plant) 0 then Ok F_BBo_W_array
   else
     contact_results <- EvalContactResults plant ext context ;;
     CalcAndAddContactForcesByPenaltyMethod_loop plant ext context
       (point_pair_contact_info contact_results) F_BBo_W_array)%result.

(** The loop that adds [Fhydro_BBo_W_all[i]] to the [i]-th entry of the
    array, for every [i]; the two arrays have been demanded to be of one
    size. *)
Fixpoint add_arrays (F G : list SpatialForce) : list SpatialForce :=
  match F, G with
  | f :: F', g :: G' => SpatialForce_add f g :: add_arrays F' G'
  | _, _ => F
  end.

Definition CalcAndAddSpatialContactForcesContinuous
    (plant : MultibodyPlant) (ext : Collaborators) (context : Context)
    (F_array : list SpatialForce) : result (list SpatialForce) :=
  (DRAKE_DEMAND (Nat.eqb (List.length F_array) (num_bodies plant))
     "ssize(*F_BBo_W_array) == num_bodies()" ;;;
   DRAKE_DEMAND (negb (is_discrete plant)) "!is_discrete()" ;;;
   if Nat.eqb (num_collision_geometries plant) 0 then Ok F_array
   else
     match contact_model_ plant with
     | kPoint =>
         CalcAndAddContactForcesByPenaltyMethod plant ext context F_array
     | kHydroelastic =>
         hydro <- EvalHydroelasticContactForces plant ext context ;;
         Ok (F_BBo_W_array hydro)
     | kHydroelasticWithFallback =>
         F' <- CalcAndAddContactForcesByPenaltyMethod plant ext context
                 F_array ;;
         hydro <- EvalHydroelasticContactForces plant ext context ;;
         let Fhydro_BBo_W_all := F_BBo_W_array hydro in
         DRAKE_DEMAND (Nat.eqb (List.length F') (List.length Fhydro_BBo_W_all))
           "F_BBo_W_array->size() == Fhydro_BBo_W_all.size()" ;;;
         Ok (add_arrays F' Fhydro_BBo_W_all)
     end)%result.

Definition CalcSpatialContactForcesContinuous
    (plant : MultibodyPlant) (ext : Collaborators) (context : Context)
    (F_BBo_W_array : list SpatialForce) : result (list SpatialForce) :=
  (DRAKE_DEMAND (Nat.eqb (List.length F_BBo_W_array) (num_bodies plant))
     "ssize(*F_BBo_W_array) == num_bodies()" ;;;
   DRAKE_DEMAND (negb (is_discrete plant)) "!is_discrete()" ;;;
   CalcAndAddSpatialContactForcesContinuous plant ext context
     (map (fun _ => SpatialForce_Zero) F_BBo_W_array))%result.

(** ** The sign of the normal velocity

    The normal force applied to body A is [fn_AC * nhat_BA_W] with
    [fn_AC > 0], and its opposite is applied to body B: the contact pushes
    A along [+nhat_BA_W] and B along [-nhat_BA_W], away from each other.
    The two bodies separate at the contact when the contact point of A
    moves along [+nhat_BA_W] relative to that of B. *)



(** The normal velocity [vn] of the loop body, for the bodies [bodyA] and
    [bodyB] of a pair. *)
Definition normal_velocity
    (plant : MultibodyPlant) (ext : Collaborators) (context : Context)
    (bodyA bodyB : BodyIndex) (pair : PenetrationAsPointPair) : double :=
  v3_dot
    (relative_contact_velocity ext context
       (node_index plant bodyA) (node_index plant bodyB) (contact_point_C pair))
    (nhat_BA_W pair).

(** ** An instance of the collaborators, for the examples

    The rigid shift of spatial forces and velocities, the compliant series
    combination of the specification for the point-contact parameters, a
    harmonic-mean friction combination, the geometry accessors reading the
    entries computed by [CalcPointPairPenetrations] and
    [CalcContactSurfaces], and a stand-in traction calculator whose
    resultant is the dynamic friction it was given, along [z]. *)

Definition v3_cross (a b : Vector3) : Vector3 :=
  mkVector3 (dsub (dmul (vy a) (vz b)) (dmul (vz a) (vy b)))
            (dsub (dmul (vz a) (vx b)) (dmul (vx a) (vz b)))
            (dsub (dmul (vx a) (vy b)) (dmul (vy a) (vx b))).

Definition rigid_force_Shift (F : SpatialForce) (p : Vector3) : SpatialForce :=
  mkSpatialForce (v3_sub (force_rotational F) (v3_cross p (force_translational F)))
                 (force_translational F).

Definition rigid_velocity_Shift (V : SpatialVelocity) (p : Vector3)
  : SpatialVelocity :=
  mkSpatialVelocity (velocity_rotational V)
    (v3_add (velocity_translational V) (v3_cross (velocity_rotational V) p)).

(** Modelled from the spec: [k = k1*k2/(k1+k2)],
    [d = (d1*k2 + d2*k1)/(k1+k2)]. *)
Definition series_CombinePointContactParameters (k1 k2 d1 d2 : double)
  : double * double :=
  (ddiv (dmul k1 k2) (dadd k1 k2),
   ddiv (dadd (dmul d1 k2) (dmul d2 k1)) (dadd k1 k2)).

Definition harmonic_mean (a b : double) : double :=
  ddiv (dmul (Fin 2) (dmul a b)) (dadd a b).

Definition harmonic_friction (f1 f2 : CoulombFriction) : CoulombFriction :=
  mkCoulombFriction (harmonic_mean (static_friction f1) (static_friction f2))
                    (harmonic_mean (dynamic_friction f1) (dynamic_friction f2)).

Definition example_collaborators (plant : MultibodyPlant) : Collaborators :=
  {| force_Shift := rigid_force_Shift;
     velocity_Shift := rigid_velocity_Shift;
     CombinePointContactParameters := series_CombinePointContactParameters;
     CalcContactFrictionFromSurfaceProperties := harmonic_friction;
     EvalPointPairPenetrations := CalcPointPairPenetrations plant;
     EvalContactSurfaces := CalcContactSurfaces plant;
     CalcCombinedDissipation := fun _ _ _ => Fin 0;
     ComputeSpatialForcesAtCentroidFromHydroelasticModel :=
       fun _ _ _ dynamic_friction =>
         mkSpatialForce v3_zero (mkVector3 (Fin 0) (Fin 0) dynamic_friction);
     ShiftSpatialForcesAtCentroidToBodyOrigins :=
       fun _ F => (F, SpatialForce_neg F) |}.

Definition identity_pose : RigidTransform :=
  mkRigidTransform
    (mkVector3 (Fin 1) (Fin 0) (Fin 0),
     mkVector3 (Fin 0) (Fin 1) (Fin 0),
     mkVector3 (Fin 0) (Fin 0) (Fin 1))
    v3_zero.

Definition at_rest : SpatialVelocity := mkSpatialVelocity v3_zero v3_zero.

(** A plant of the world body alone, without collision geometry, and a
    context whose geometry query port is not connected. *)
Definition empty_plant : MultibodyPlant :=
  {| is_discrete := false;
     num_bodies := 1;
     num_collision_geometries := 0;
     geometry_id_to_body_index_ := fun _ => None;
     node_index := fun b => b;
     contact_model_ := kHydroelasticWithFallback;
     friction_model_ := set_stiction_tolerance (Fin (1 / 1000));
     penalty_method_contact_parameters_ := mkContactParameters (Fin 1) (Fin 0) |}.

Definition disconnected_context : Context :=
  {| geometry_query_input_port := None;
     X_WB := fun _ => identity_pose;
     V_WB := fun _ => at_rest |}.

(** ** A box falling into the ground: the scenario of the examples

    Bodies: the world (index 0) and a box (index 1).  Geometry 0 is the
    ground, fixed to the world; geometry 1 is the box.  In the one point
    pair, A is the box and B the ground: the normal [nhat_BA_W] points from
    the ground up into the box, the witness point of the box lies a depth
    of 1/100 below the ground surface, and the box moves down at unit
    speed. *)

Definition soft_properties : ProximityProperties :=
  {| point_stiffness := Some (Fin 2);
     hc_dissipation := Some (Fin 1);
     coulomb_friction := Some (mkCoulombFriction (Fin 1) (Fin 1)) |}.

Definition box_inspector : SceneGraphInspector :=
  fun id =>
    match id with
    | Some 0%nat | Some 1%nat => Some soft_properties
    | _ => None
    end.

Definition unit_z : Vector3 := mkVector3 (Fin 0) (Fin 0) (Fin 1).

Definition box_on_ground_pair : PenetrationAsPointPair :=
  {| id_A := Some 1%nat;
     id_B := Some 0%nat;
     p_WCa := mkVector3 (Fin 0) (Fin 0) (Fin (- (1 / 100)));
     p_WCb := mkVector3 (Fin 0) (Fin 0) (Fin 0);
     nhat_BA_W := unit_z;
     depth := Fin (1 / 100) |}.

Definition box_surface : ContactSurface :=
  {| id_M := Some 1%nat; id_N := Some 0%nat; surface_tag := 0 |}.

Definition box_query_object : QueryObject :=
  {| inspector := box_inspector;
     ComputePointPairPenetration := [box_on_ground_pair];
     ComputeContactSurfaces := [box_surface];
     ComputeContactSurfacesWithFallback := ([box_surface], [box_on_ground_pair]) |}.

Definition box_plant (model : ContactModel) : MultibodyPlant :=
  {| is_discrete := false;
     num_bodies := 2;
     num_collision_geometries := 2;
     geometry_id_to_body_index_ :=
       fun id => match id with
                 | 0%nat => Some 0%nat
                 | 1%nat => Some 1%nat
                 | _ => None
                 end;
     node_index := fun b => b;
     contact_model_ := model;
     friction_model_ := set_stiction_tolerance (Fin (1 / 1000));
     penalty_method_contact_parameters_ := mkContactParameters (Fin 1) (Fin 0) |}.

(** The box moves with the translational velocity [v]; the world rests. *)
Definition box_context (v : Vector3) : Context :=
  {| geometry_query_input_port := Some box_query_object;
     X_WB := fun _ => identity_pose;
     V_WB := fun node =>
               match node with
               | 1%nat => mkSpatialVelocity v3_zero v
               | _ => at_rest
               end |}.

Definition vertical (w : R) : Vector3 := mkVector3 (Fin 0) (Fin 0) (Fin w).

Definition falling : Vector3 := vertical (- 1).
Definition rising : Vector3 := vertical 2.

(** The box resting on the ground, seen through a given inspector. *)
Definition resting_context (insp : SceneGraphInspector) : Context :=
  {| geometry_query_input_port :=
       Some {| inspector := insp;
               ComputePointPairPenetration := [box_on_ground_pair];
               ComputeContactSurfaces := [box_surface];
               ComputeContactSurfacesWithFallback :=
                 ([box_surface], [box_on_ground_pair]) |};
     X_WB := fun _ => identity_pose;
     V_WB := fun _ => at_rest |}.

Definition rough : CoulombFriction := mkCoulombFriction (Fin 1) (Fin 1).
Definition frictionless : CoulombFriction := mkCoulombFriction (Fin 0) (Fin 0).

Definition properties_with (friction : option CoulombFriction)
  : ProximityProperties :=
  {| point_stiffness := Some (Fin 2);
     hc_dissipation := Some (Fin 1);
     coulomb_friction := friction |}.

(** The box (geometry 1, the M of the surface) is rough; the ground
    (geometry 0, the N of the surface) has the given friction
    property, or none. *)
Definition rough_box_on (ground : option CoulombFriction) : SceneGraphInspector :=
  fun id =>
    match id with
    | Some 1%nat => Some (properties_with (Some rough))
    | Some 0%nat => Some (properties_with ground)
    | _ => None
    end.

(** The hydroelastic pass with the property sets of M and N each fetched
    with its own identifier, as the demands on [propN] and the combination
    of [geometryM_friction] with [geometryN_friction] intend. *)
Definition combined_dynamic_friction_of_both
    (ext : Collaborators) (insp : SceneGraphInspector) (surface : ContactSurface)
  : result double :=
  (geometryM_friction <- GetCoulombFriction (id_M surface) insp ;;
   geometryN_friction <- GetCoulombFriction (id_N surface) insp ;;
   Ok (dynamic_friction
         (CalcContactFrictionFromSurfaceProperties ext
            geometryM_friction geometryN_friction)))%result.

(** ** Assembling the actuation input (AssembleActuationInput) *)

Definition ModelInstanceIndex := nat.

(** The plant and the context, as the assembly reads them: the model
    instances with their names and actuated degrees of freedom; the value
    of the actuation port for all instances and of the port of each
    instance, if it has one. *)
Record ActuationPlant : Type := mkActuationPlant {
  num_model_instances : nat;
  GetModelInstanceName : ModelInstanceIndex -> string;
  num_actuated_dofs : ModelInstanceIndex -> nat
}.

Record ActuationContext : Type := mkActuationContext {
  actuation_port_ : option (list double);
  instance_actuation_ports_ : ModelInstanceIndex -> option (list double)
}.

Definition hasNaN (v : list double) : bool := existsb isnan v.

Definition both_connected_message (name : string) : string :=
  ("Actuation input port for model instance " ++ name ++ " and the " ++
   "actuation port for all instances are both connected. At most " ++
   "one of these ports should be connected.")%string.

Definition must_be_connected_message (name : string) : string :=
  ("Actuation input port for model " ++
   "instance " ++ name ++ " must be connected.")%string.

Definition contains_NaN_message (name : string) : string :=
  ("Actuation input port for model " ++
   "instance " ++ name ++ " contains NaN.")%string.

(** The model instances the loops run over, from [first_non_world_index]. *)
Definition non_world_instances (plant : ActuationPlant)
  : list ModelInstanceIndex :=
  seq 1 (num_model_instances plant - 1).

(** The loop of the branch in which the port for all instances has a
    value. *)
Fixpoint check_no_instance_port
    (plant : ActuationPlant) (context : ActuationContext)
    (instances : list ModelInstanceIndex) : result unit :=
  match instances with
  | [] => Ok tt
  | model_instance_index :: rest =>
      if HasValue (instance_actuation_ports_ context model_instance_index)
      then Err (LogicError
                  (both_connected_message
                     (GetModelInstanceName plant model_instance_index)))
      else check_no_instance_port plant context rest
  end.

(** The loop of the other branch; [actuation_input] holds the segments
    written so far, of total length [u_offset]. *)
Fixpoint assemble_instances
    (plant : ActuationPlant) (context : ActuationContext)
    (instances : list ModelInstanceIndex) (actuation_input : list double)
  : result (list double) :=
  match instances with
  | [] => Ok actuation_input
  | model_instance_index :: rest =>
      let instance_num_dofs := num_actuated_dofs plant model_instance_index in
      if Nat.eqb instance_num_dofs 0
      then assemble_instances plant context rest actuation_input
      else
        match instance_actuation_ports_ context model_instance_index with
        | None =>
            Err (LogicError
                   (must_be_connected_message
                      (GetModelInstanceName plant model_instance_index)))
        | Some u_instance =>
            if hasNaN u_instance
            then Err (RuntimeError
                        (contains_NaN_message
                           (GetModelInstanceName plant model_instance_index)))
            else assemble_instances plant context rest
                   (actuation_input ++ u_instance)
        end
  end.

(** [AssembleActuationInput]; the two [DRAKE_ASSERT]s on sizes are armed in
    debug builds only. *)
Definition AssembleActuationInput
    (plant : ActuationPlant) (context : ActuationContext)
  : result (list double) :=
  match actuation_port_ context with
  | Some all_instances =>
      (check_no_instance_port plant context (non_world_instances plant) ;;;
       if hasNaN all_instances
       then Err (RuntimeError
                   "Detected NaN in the actuation input port for all instances.")
       else Ok all_instances)%result
  | None => assemble_instances plant context (non_world_instances plant) []
  end.

(** An instance is passed by the second loop when it has no actuated
    degree of freedom, or its port holds a value free of NaN. *)
Definition passes_b (plant : ActuationPlant) (context : ActuationContext)
    (j : ModelInstanceIndex) : bool :=
  Nat.eqb (num_actuated_dofs plant j) 0
  || match instance_actuation_ports_ context j with
     | Some u => negb (hasNaN u)
     | None => false
     end.

(** The error that the second loop raises at an instance it does not
    pass: the port has no value, or its value holds a NaN. *)
Definition instance_error (plant : ActuationPlant) (context : ActuationContext)
    (j : ModelInstanceIndex) : error :=
  match instance_actuation_ports_ context j with
  | None =>
      LogicError (must_be_connected_message (GetModelInstanceName plant j))
  | Some _ =>
      RuntimeError (contains_NaN_message (GetModelInstanceName plant j))
  end.

(** Whether [needle] occurs in [hay]. *)
Fixpoint occurs_in (needle hay : string) : bool :=
  String.prefix needle hay ||
  match hay with
  | EmptyString => false
  | String _ rest => occurs_in needle rest
  end.

(** An error names a model instance when its message has the name of the
    instance in it. *)
Definition error_names (e : error) (name : string) : bool :=
  match e with
  | LogicError message | RuntimeError message => occurs_in name message
  | _ => false
  end.

(** Two arms, "left" and "right", of one actuated degree of freedom each,
    after the world and the default model instance. *)
Definition two_arms : ActuationPlant :=
  {| num_model_instances := 4;
     GetModelInstanceName :=
       fun i => match i with
                | 0%nat => "WorldModelInstance"
                | 1%nat => "DefaultModelInstance"
                | 2%nat => "left"
                | _ => "right"
                end%string;
     num_actuated_dofs :=
       fun i => match i with 2%nat | 3%nat => 1%nat | _ => 0%nat end |}.

Definition nothing_connected : ActuationContext :=
  {| actuation_port_ := None; instance_actuation_ports_ := fun _ => None |}.

(** The port for all instances has a value, and so has the (empty) port of
    the world model instance. *)
Definition all_and_world_connected : ActuationContext :=
  {| actuation_port_ := Some [Fin 1; Fin 2];
     instance_actuation_ports_ :=
       fun i => match i with 0%nat => Some [] | _ => None end |}.

(** The left arm is fed a NaN, the right arm is not connected. *)
Definition left_NaN_right_missing : ActuationContext :=
  {| actuation_port_ := None;
     instance_actuation_ports_ :=
       fun i => match i with 2%nat => Some [NaN] | _ => None end |}.

(** ** The algebraic-loop guard of the non-contact forces

    The marker "evaluation of non-contact forces in progress" is a boolean
    cache entry of the context, so it outlives an exception.  A computation
    of this part takes the state of the guard and returns, with its result,
    the state it leaves behind.  The log records, for every entry into
    [ThrowIfNonContactForceInProgress], whether it passed or raised. *)

Inductive GuardEvent : Type := Passed | Raised.

Record GuardState : Type := mkGuardState {
  evaluation_in_progress : bool;
  guard_log : list GuardEvent
}.

Definition fresh_guard : GuardState := mkGuardState false [].

Definition algebraic_loop_message : string :=
  ("Algebraic loop detected. This situation is caused when connecting " ++
   "the input of your MultibodyPlant to the output of a feedback system " ++
   "which is an algebraic function of a feedthrough output of the " ++
   "plant. Ways to remedy this: 1. Revisit the model for your feedback " ++
   "system. Consider if its output can be written in terms of other " ++
   "inputs. 2. Break the algebraic loop by adding state to the " ++
   "controller, typically to 'remember' a previous input. 3. Break the " ++
   "algebraic loop by adding a zero-order hold system between the " ++
   "output of the plant and your feedback system. This effectively " ++
   "delays the input signal to the controller.")%string.

(** The scope guard returned on success: what its destructor does to the
    state of the guard. *)
Definition ScopeExit := GuardState -> GuardState.

Definition ThrowIfNonContactForceInProgress (s : GuardState)
  : result ScopeExit * GuardState :=
  if evaluation_in_progress s then
    (Err (RuntimeError algebraic_loop_message),
     mkGuardState (evaluation_in_progress s) (guard_log s ++ [Raised]))
  else
    (Ok (fun s' => mkGuardState false (guard_log s')),
     mkGuardState true (guard_log s ++ [Passed])).

(** The generalized forces of a [MultibodyForces]. *)
Definition MultibodyForces := list double.

Fixpoint add_forces (f u : list double) : list double :=
  match f, u with
  | x :: f', y :: u' => dadd x y :: add_forces f' u'
  | _, _ => f
  end.

(** Where the applied generalized force input comes from: the port is not
    connected, or holds a fixed value, or is fed by a system that computes
    it, without delay, from an output of this plant that needs the
    non-contact forces. *)
Inductive InputWiring : Type :=
| NotConnected
| FixedValue (applied_generalized_force : list double)
| Feedback (controller : MultibodyForces -> list double).

(** The plant, as the non-contact forces read it: the forces of the force
    elements and the joint-limit penalty forces come from the tree and from
    [AddJointLimitsPenaltyForces]. *)
Record ForcePlant : Type := mkForcePlant {
  num_velocities : nat;
  force_elements : MultibodyForces;
  joint_limit_forces : MultibodyForces -> result MultibodyForces
}.

(** [AddAppliedExternalGeneralizedForces] on the value of the port. *)
Definition add_applied_generalized_force
    (forces : MultibodyForces) (applied : list double) : result MultibodyForces :=
  if hasNaN applied
  then Err (RuntimeError "Detected NaN in applied generalized force input port.")
  else Ok (add_forces forces applied).

(** [CalcNonContactForces].  Evaluating an input fed back from the plant
    evaluates the non-contact forces of the same context again; [fuel]
    bounds the depth of that recursion, and [None] is the answer of a
    computation that ran out of it. *)
Fixpoint CalcNonContactForces
    (fuel : nat) (plant : ForcePlant) (wiring : InputWiring) (discrete : bool)
    (forces : MultibodyForces) (s : GuardState)
  : option (result MultibodyForces) * GuardState :=
  match fuel with
  | O => (None, s)
  | S fuel' =>
      if negb (Nat.eqb (List.length forces) (num_velocities plant)) then
        (Some (Err (DemandFailed "forces->CheckHasRightSizeForModel(*this)")), s)
      else
        match ThrowIfNonContactForceInProgress s with
        | (Err e, s1) => (Some (Err e), s1)
        | (Ok guard, s1) =>
            (* CalcForceElementsContribution resets the forces *)
            let forces1 := force_elements plant in
            (* AddInForcesFromInputPorts *)
            let '(from_ports, s2) :=
              match wiring with
              | NotConnected => (Some (Ok forces1), s1)
              | FixedValue applied =>
                  (Some (add_applied_generalized_force forces1 applied), s1)
              | Feedback controller =>
                  match CalcNonContactForces fuel' plant wiring discrete
                          forces s1 with
                  | (Some (Ok inner), s2) =>
                      (Some (add_applied_generalized_force forces1
                               (controller inner)), s2)
                  | (Some (Err e), s2) => (Some (Err e), s2)
                  | (None, s2) => (None, s2)
                  end
              end in
            let outcome :=
              match from_ports with
              | Some (Ok forces2) =>
                  if discrete then Some (joint_limit_forces plant forces2)
                  else Some (Ok forces2)
              | other => other
              end in
            (outcome, guard s2)
        end
  end.

(** A plant of two velocities, and a controller that feeds its forces back
    doubled. *)
Definition small_force_plant : ForcePlant :=
  {| num_velocities := 2;
     force_elements := [Fin 1; Fin 2];
     joint_limit_forces := fun forces => Ok forces |}.

Definition doubling_controller (forces : MultibodyForces) : list double :=
  map (fun f => dmul (Fin 2) f) forces.

(** ** The discrete step (CalcDiscreteStep) *)

(** [a + b] on two vectors, entry by entry.  (The operands have one size
    in the plant; the sum of vectors of different sizes is not defined, and
    the model stops at the shorter one.) *)
Definition vec_add (a b : list double) : list double :=
  map (fun p => dadd (fst p) (snd p)) (combine a b).

(** [h * v] *)
Definition vec_scale (h : double) (v : list double) : list double :=
  map (fun x => dmul h x) v.

Record AccelerationKinematicsCache : Type := mkAccelerationKinematicsCache {
  get_vdot : list double
}.

(** The context, as the step reads it: the value of the discrete state
    group 0, positions first, velocities after, and whether
    [IsValidGeometryInput(context)]. *)
Record StepContext : Type := mkStepContext {
  discrete_state_0 : list double;
  valid_geometry_input : bool
}.

(** The groups of discrete values handed to an update. *)
Definition DiscreteValues := list (list double).

(** [DiscreteValues] is declared outside the sources; [set_value(index,
    value)] is modelled as the replacement of the whole value of the group
    [index] by a vector of the same size, failing when there is no such
    group or the sizes differ. *)
Definition set_value (updates : DiscreteValues) (index : nat)
    (value : list double) : result DiscreteValues :=
  match nth_error updates index with
  | Some old =>
      if Nat.eqb (List.length old) (List.length value)
      then Ok (list_update updates index value)
      else Err OutOfRange
  | None => Err OutOfRange
  end.

Inductive EventStatus : Type := Succeeded.

Record DiscreteUpdateManager : Type := mkDiscreteUpdateManager {
  CalcDiscreteValues : StepContext -> DiscreteValues -> result DiscreteValues;
  CalcAccelerationKinematicsCache :
    StepContext -> result AccelerationKinematicsCache
}.

(** The plant, as the step reads it.  [MapVelocityToQDot] is the map of
    the tree from velocities to position rates at the positions of the
    context, and [CalcForwardDynamicsContinuous] the forward dynamics of a
    plant with continuous state; both are declared outside the sources and
    taken as given. *)
Record StepPlant : Type := mkStepPlant {
  num_positions : nat;
  step_num_velocities : nat;
  time_step : double;
  step_is_discrete : bool;
  discrete_update_manager_ : option DiscreteUpdateManager;
  CalcForwardDynamicsContinuous :
    StepContext -> result AccelerationKinematicsCache;
  MapVelocityToQDot : StepContext -> list double -> list double
}.

Definition topRows (n : nat) (x : list double) : list double := firstn n x.
Definition bottomRows (n : nat) (x : list double) : list double :=
  skipn (List.length x - n) x.

(** [DoCalcForwardDynamicsDiscrete], the forward dynamics of a discrete
    plant. *)
Definition DoCalcForwardDynamicsDiscrete
    (plant : StepPlant) (context0 : StepContext)
  : result AccelerationKinematicsCache :=
  (DRAKE_DEMAND (step_is_discrete plant) "is_discrete()" ;;;
   (if valid_geometry_input context0 then Ok tt
    else ThrowForDisconnectedGeometryPort
           "You've tried evaluating discrete forward dynamics.") ;;;
   match discrete_update_manager_ plant with
   | None => Err (DemandFailed "discrete_update_manager_ != nullptr")
   | Some manager => CalcAccelerationKinematicsCache manager context0
   end)%result.

(** [EvalForwardDynamics] reads the cache entry of the forward dynamics.
    The entry is computed by the base class of the plant, which calls the
    override [DoCalcForwardDynamicsDiscrete] above when the plant has
    discrete state and the continuous forward dynamics when it has not. *)
Definition EvalForwardDynamics
    (plant : StepPlant) (context0 : StepContext)
  : result AccelerationKinematicsCache :=
  if step_is_discrete plant then DoCalcForwardDynamicsDiscrete plant context0
  else CalcForwardDynamicsContinuous plant context0.

(** The statements of [CalcDiscreteStep] that follow the read of [vdot]:
    the next velocities and positions, and the write of the state. *)
Definition advance_state
    (plant : StepPlant) (context0 : StepContext) (updates : DiscreteValues)
    (q0 v0 vdot : list double) : result (EventStatus * DiscreteValues) :=
  (let v_next := vec_add v0 (vec_scale (time_step plant) vdot) in
   let qdot_next := MapVelocityToQDot plant context0 v_next in
   let q_next := vec_add q0 (vec_scale (time_step plant) qdot_next) in
   let x_next := q_next ++ v_next in
   updates' <- set_value updates 0 x_next ;;
   Ok (Succeeded, updates'))%result.

Definition CalcDiscreteStep
    (plant : StepPlant) (context0 : StepContext) (updates : DiscreteValues)
  : result (EventStatus * DiscreteValues) :=
  match discrete_update_manager_ plant with
  | Some manager =>
      (updates' <- CalcDiscreteValues manager context0 updates ;;
       Ok (Succeeded, updates'))%result
  | None =>
      (let x0 := discrete_state_0 context0 in
       let q0 := topRows (num_positions plant) x0 in
       let v0 := bottomRows (step_num_velocities plant) x0 in
       ac <- EvalForwardDynamics plant context0 ;;
       let vdot := get_vdot ac in
       advance_state plant context0 updates q0 v0 vdot)%result
  end.

(** A point mass on a line in discrete mode, without a discrete update
    manager: one position, one velocity, a step of 1/10 and the identity
    map from velocity to position rate. *)
Definition point_mass : StepPlant :=
  {| num_positions := 1;
     step_num_velocities := 1;
     time_step := Fin (1 / 10);
     step_is_discrete := true;
     discrete_update_manager_ := None;
     CalcForwardDynamicsContinuous :=
       fun _ => Ok (mkAccelerationKinematicsCache [Fin 0]);
     MapVelocityToQDot := fun _ v => v |}.

(** The point mass at position 5 with velocity 3. *)
Definition point_mass_context : StepContext :=
  mkStepContext [Fin 5; Fin 3] true.


(** ** Vocabulary for the joint limit arrays *)

(** The test [!isinf(lower) || !isinf(upper)] of
    [SetUpJointLimitsParameters], on the joints that have it. *)
Definition has_limits (joint : Joint) : bool :=
  match joint with
  | Revolute j =>
      negb (isinf (revolute_lower_limit j)) || negb (isinf (revolute_upper_limit j))
  | Prismatic j =>
      negb (isinf (prismatic_lower_limit j)) || negb (isinf (prismatic_upper_limit j))
  | OtherJoint _ => false
  end.

Definition joint_index (joint : Joint) : JointIndex :=
  match joint with
  | Revolute j => revolute_index j
  | Prismatic j => prismatic_index j
  | OtherJoint index => index
  end.

Definition joint_lower_limit (joint : Joint) : double :=
  match joint with
  | Revolute j => revolute_lower_limit j
  | Prismatic j => prismatic_lower_limit j
  | OtherJoint _ => NInf
  end.

Definition joint_upper_limit (joint : Joint) : double :=
  match joint with
  | Revolute j => revolute_upper_limit j
  | Prismatic j => prismatic_upper_limit j
  | OtherJoint _ => PInf
  end.

(** Whether each side of a revolute joint is the world body or a rigid
    body; other joints pass. *)
Definition sides_are_rigid (joint : Joint) : bool :=
  match joint with
  | Revolute j =>
      (Nat.eqb (body_index (revolute_parent_body j)) world_index
       || is_rigid_body (revolute_parent_body j))
      && (Nat.eqb (body_index (revolute_child_body j)) world_index
          || is_rigid_body (revolute_child_body j))
  | _ => true
  end.

(** A plant with a free joint, a hinge to the world with a lower stop
    only, a slider without stops and a slider with two stops. *)
Definition arm_link : Body := mkBody 1%nat true (Fin 2).
Definition world_body : Body := mkBody 0%nat true NaN.
Definition hinge_with_stop : RevoluteJoint :=
  mkRevoluteJoint 1%nat (mkFrame world_body (Fin 0)) (mkFrame arm_link (Fin 3))
    (Fin 0) PInf.
Definition free_slider : PrismaticJoint :=
  mkPrismaticJoint 2%nat arm_link heavy_parent NInf PInf.
Definition stopped_slider : PrismaticJoint :=
  mkPrismaticJoint 3%nat arm_link heavy_parent (Fin (- 1)) (Fin 1).
Definition mixed_joints : list Joint :=
  [OtherJoint 0%nat; Revolute hinge_with_stop; Prismatic free_slider;
   Prismatic stopped_slider].

(** ** Vocabulary for the contact results *)

(** [Subsequence l1 l2]: [l1] is [l2] with some elements left out, the
    others in their order. *)
Inductive Subsequence {A : Type} : list A -> list A -> Prop :=
| Subsequence_nil : Subsequence [] []
| Subsequence_skip (x : A) (l1 l2 : list A) :
    Subsequence l1 l2 -> Subsequence l1 (x :: l2)
| Subsequence_keep (x : A) (l1 l2 : list A) :
    Subsequence l1 l2 -> Subsequence (x :: l1) (x :: l2).

(** A point contact record agrees with the penetration pair it carries:
    its two body indices are those of the pair's geometries and its contact
    point is the midpoint of the pair's witness points. *)
Definition agrees_with_its_pair
    (plant : MultibodyPlant) (info : PointPairContactInfo) : Prop :=
  FindBodyByGeometryId plant (id_A (point_pair info)) = Ok (bodyA_index info)
  /\ FindBodyByGeometryId plant (id_B (point_pair info)) = Ok (bodyB_index info)
  /\ contact_point info = contact_point_C (point_pair info).

(** Two boxes, bodies 1 and 2, stacked on each other, and the record of
    their contact: the upper box (A) is pushed up with a unit force. *)
Definition stacked_boxes_plant : MultibodyPlant :=
  {| is_discrete := false;
     num_bodies := 3;
     num_collision_geometries := 2;
     geometry_id_to_body_index_ :=
       fun id => match id with
                 | 1%nat => Some 1%nat
                 | 2%nat => Some 2%nat
                 | _ => None
                 end;
     node_index := fun b => b;
     contact_model_ := kPoint;
     friction_model_ := set_stiction_tolerance (Fin (1 / 1000));
     penalty_method_contact_parameters_ := mkContactParameters (Fin 1) (Fin 0) |}.

Definition stacked_boxes_pair : PenetrationAsPointPair :=
  {| id_A := Some 1%nat;
     id_B := Some 2%nat;
     p_WCa := mkVector3 (Fin 0) (Fin 0) (Fin (- (1 / 100)));
     p_WCb := mkVector3 (Fin 0) (Fin 0) (Fin 0);
     nhat_BA_W := unit_z;
     depth := Fin (1 / 100) |}.

Definition stacked_boxes_contact : PointPairContactInfo :=
  {| bodyA_index := 1%nat;
     bodyB_index := 2%nat;
     contact_force := mkVector3 (Fin 0) (Fin 0) (Fin (- 1));
     contact_point := contact_point_C stacked_boxes_pair;
     normal_speed := Fin 0;
     slip_speed := Fin 0;
     point_pair := stacked_boxes_pair |}.

(** ** The heuristic for the point contact parameters
    ([EstimatePointContactParameters], [set_penetration_allowance]) *)

Module PenaltyMethod.

(** [penalty_method_contact_parameters_], with the time scale. *)
Record ContactByPenaltyMethodParameters : Type :=
  mkContactByPenaltyMethodParameters {
    geometry_stiffness : double;
    dissipation : double;
    time_scale : double
  }.

End PenaltyMethod.

(** What the heuristic reads of the gravity field element: whether
    [gravity_vector().isZero()], the value of [gravity_vector().norm()],
    and the constant [kDefaultStrength] (the element's class is outside the
    sources). *)
Record UniformGravityFieldElement : Type := mkUniformGravityFieldElement {
  gravity_vector_isZero : bool;
  gravity_vector_norm : double;
  kDefaultStrength : double
}.

(** The loop [mass = std::max(mass, body.default_mass())] over the bodies,
    from [mass = 0.0]. *)
Definition max_default_mass (default_masses : list double) : double :=
  fold_left (fun mass body_mass => std_max mass body_mass) default_masses (Fin 0).

(** [default_masses] lists [get_body(i).default_mass()] for the body
    indices [i] from 0 to [num_bodies() - 1]. *)
Definition EstimatePointContactParameters
    (gravity : UniformGravityFieldElement) (default_masses : list double)
    (penetration_allowance : double)
  : PenaltyMethod.ContactByPenaltyMethodParameters :=
  let g := if negb (gravity_vector_isZero gravity)
           then gravity_vector_norm gravity
           else kDefaultStrength gravity in
  let mass := max_default_mass default_masses in
  let combined_stiffness := ddiv (dmul mass g) penetration_allowance in
  let omega := dsqrt (ddiv combined_stiffness mass) in
  let time_scale := ddiv (Fin 1) omega in
  let damping_ratio := Fin 1 in
  let dissipation :=
    ddiv (dmul damping_ratio time_scale) penetration_allowance in
  {| PenaltyMethod.geometry_stiffness := dmul (Fin 2) combined_stiffness;
     PenaltyMethod.dissipation := dissipation;
     PenaltyMethod.time_scale := time_scale |}.

(** The members of the plant that [set_penetration_allowance] reads and
    writes. *)
Record PenetrationState : Type := mkPenetrationState {
  is_finalized : bool;
  gravity_field : UniformGravityFieldElement;
  body_default_masses : list double;
  penetration_allowance_ : double;
  contact_parameters_ : PenaltyMethod.ContactByPenaltyMethodParameters
}.

Definition set_penetration_allowance
    (plant : PenetrationState) (penetration_allowance : double)
  : result PenetrationState :=
  if dle penetration_allowance (Fin 0) then
    Err (LogicError
           "set_penetration_allowance(): penetration_allowance must be strictly positive.")
  else
    let plant' :=
      {| is_finalized := is_finalized plant;
         gravity_field := gravity_field plant;
         body_default_masses := body_default_masses plant;
         penetration_allowance_ := penetration_allowance;
         contact_parameters_ := contact_parameters_ plant |} in
    if is_finalized plant' then
      Ok {| is_finalized := is_finalized plant';
            gravity_field := gravity_field plant';
            body_default_masses := body_default_masses plant';
            penetration_allowance_ := penetration_allowance_ plant';
            contact_parameters_ :=
              EstimatePointContactParameters (gravity_field plant')
                (body_default_masses plant') penetration_allowance |}
    else Ok plant'.

(** Gravity of strength 10 along an axis; a world body of unspecified
    mass, a body of mass 3 and a body of mass 5. *)
Definition gravity_of_strength_10 : UniformGravityFieldElement :=
  mkUniformGravityFieldElement false (Fin 10) (Fin 981e-2).
Definition three_masses : list double := [NaN; Fin 3; Fin 5].

(** ** Registration of geometry
    ([RegisterGeometry], [RegisterCollisionGeometry],
    [RegisterVisualGeometry]) *)

Module Registration.

(** The members of the plant that the registration of geometry reads and
    writes.  The two vectors of per-body lists are indexed by the index of
    a body of this plant, and are given as functions of that index; a
    geometry id is the number the scene graph handed out. *)
Record Plant : Type := mkPlant {
  is_finalized : bool;
  geometry_source_is_registered : bool;
  geometry_id_to_body_index_ : nat -> option BodyIndex;
  collision_geometries_ : BodyIndex -> list nat;
  visual_geometries_ : BodyIndex -> list nat;
  num_collision_geometries_ : nat;
  num_visual_geometries_ : nat
}.

Definition ThrowIfFinalized (plant : Plant) (source_method : string)
  : result unit :=
  if is_finalized plant then
    Err (LogicError
           ("Post-finalize calls to '" ++ source_method ++
            "()' are not allowed; calls to this method must happen before Finalize().")%string)
  else Ok tt.

Definition ThrowIfNotFinalized (plant : Plant) (source_method : string)
  : result unit :=
  if negb (is_finalized plant) then
    Err (LogicError
           ("Pre-finalize calls to '" ++ source_method ++
            "()' are not allowed; you must call Finalize() first.")%string)
  else Ok tt.

(** [m[key] = value] on an unordered map. *)
Definition map_assign {V : Type} (m : nat -> option V) (key : nat) (value : V)
  : nat -> option V :=
  fun k => if Nat.eqb k key then Some value else m k.

(** [v[index].push_back(id)] *)
Definition push_back_at (v : BodyIndex -> list nat) (index : BodyIndex) (id : nat)
  : BodyIndex -> list nat :=
  fun b => if Nat.eqb b index then v b ++ [id] else v b.

(** [RegisterGeometry]; [geometry_id] is the id that
    [scene_graph_->RegisterGeometry] returns.  (The three [DRAKE_ASSERT]s
    are armed in debug builds only.) *)
Definition RegisterGeometry (plant : Plant) (body : BodyIndex) (geometry_id : nat)
  : nat * Plant :=
  (geometry_id,
   {| is_finalized := is_finalized plant;
      geometry_source_is_registered := geometry_source_is_registered plant;
      geometry_id_to_body_index_ :=
        map_assign (geometry_id_to_body_index_ plant) geometry_id body;
      collision_geometries_ := collision_geometries_ plant;
      visual_geometries_ := visual_geometries_ plant;
      num_collision_geometries_ := num_collision_geometries_ plant;
      num_visual_geometries_ := num_visual_geometries_ plant |}).

(** [RegisterCollisionGeometry] with proximity properties;
    [has_friction] tells whether they hold the property
    [(material, coulomb_friction)]. *)
Definition RegisterCollisionGeometry
    (plant : Plant) (body : BodyIndex) (has_friction : bool) (geometry_id : nat)
  : result (nat * Plant) :=
  (ThrowIfFinalized plant "RegisterCollisionGeometry" ;;;
   DRAKE_THROW_UNLESS (geometry_source_is_registered plant)
     "geometry_source_is_registered()" ;;;
   DRAKE_THROW_UNLESS has_friction
     "properties.HasProperty(geometry::internal::kMaterialGroup, geometry::internal::kFriction)" ;;;
   let '(id, plant1) := RegisterGeometry plant body geometry_id in
   Ok (id,
       {| is_finalized := is_finalized plant1;
          geometry_source_is_registered := geometry_source_is_registered plant1;
          geometry_id_to_body_index_ := geometry_id_to_body_index_ plant1;
          collision_geometries_ :=
            push_back_at (collision_geometries_ plant1) body id;
          visual_geometries_ := visual_geometries_ plant1;
          num_collision_geometries_ := S (num_collision_geometries_ plant1);
          num_visual_geometries_ := num_visual_geometries_ plant1 |}))%result.

(** The overload that takes a [CoulombFriction]: it builds properties
    that hold the friction and calls the one above. *)
Definition RegisterCollisionGeometry_friction
    (plant : Plant) (body : BodyIndex) (geometry_id : nat)
  : result (nat * Plant) :=
  RegisterCollisionGeometry plant body true geometry_id.

Definition RegisterVisualGeometry
    (plant : Plant) (body : BodyIndex) (geometry_id : nat)
  : result (nat * Plant) :=
  (ThrowIfFinalized plant "RegisterVisualGeometry" ;;;
   DRAKE_THROW_UNLESS (geometry_source_is_registered plant)
     "geometry_source_is_registered()" ;;;
   let '(id, plant1) := RegisterGeometry plant body geometry_id in
   Ok (id,
       {| is_finalized := is_finalized plant1;
          geometry_source_is_registered := geometry_source_is_registered plant1;
          geometry_id_to_body_index_ := geometry_id_to_body_index_ plant1;
          collision_geometries_ := collision_geometries_ plant1;
          visual_geometries_ :=
            push_back_at (visual_geometries_ plant1) body id;
          num_collision_geometries_ := num_collision_geometries_ plant1;
          num_visual_geometries_ := S (num_visual_geometries_ plant1) |}))%result.

Definition GetCollisionGeometriesForBody (plant : Plant) (body : BodyIndex)
  : list nat :=
  collision_geometries_ plant body.

Definition GetVisualGeometriesForBody (plant : Plant) (body : BodyIndex)
  : list nat :=
  visual_geometries_ plant body.

(** A call of one of the two registration functions. *)
Inductive Call : Type :=
| Collision (body : BodyIndex) (has_friction : bool) (geometry_id : nat)
| Visual (body : BodyIndex) (geometry_id : nat).

Definition call_id (c : Call) : nat :=
  match c with
  | Collision _ _ id => id
  | Visual _ id => id
  end.

Definition is_collision (c : Call) : bool :=
  match c with Collision _ _ _ => true | Visual _ _ => false end.

(** The calls made one after the other; the first failure ends them. *)
Fixpoint make_calls (plant : Plant) (calls : list Call) : result Plant :=
  match calls with
  | [] => Ok plant
  | Collision body has_friction id :: rest =>
      (r <- RegisterCollisionGeometry plant body has_friction id ;;
       make_calls (snd r) rest)%result
  | Visual body id :: rest =>
      (r <- RegisterVisualGeometry plant body id ;;
       make_calls (snd r) rest)%result
  end.

(** A plant registered as a geometry source, before any geometry. *)
Definition fresh_plant : Plant :=
  {| is_finalized := false;
     geometry_source_is_registered := true;
     geometry_id_to_body_index_ := fun _ => None;
     collision_geometries_ := fun _ => [];
     visual_geometries_ := fun _ => [];
     num_collision_geometries_ := 0;
     num_visual_geometries_ := 0 |}.

End Registration.

(** The two tables of a plant agree: a geometry listed for a body, as
    collision or as visual geometry, is mapped to that body. *)
Definition tables_agree (plant : Registration.Plant) : Prop :=
  forall body id,
    In id (Registration.collision_geometries_ plant body)
    \/ In id (Registration.visual_geometries_ plant body) ->
    Registration.geometry_id_to_body_index_ plant id = Some body.

(** ** Vocabulary for the assembled actuation *)

(** The values of the ports of the instances with actuated degrees of
    freedom, one after the other in the order of [instances]; a port
    without a value contributes nothing. *)
Definition instance_segments
    (plant : ActuationPlant) (context : ActuationContext)
    (instances : list ModelInstanceIndex) : list double :=
  flat_map
    (fun i =>
       if Nat.eqb (num_actuated_dofs plant i) 0 then []
       else match instance_actuation_ports_ context i with
            | Some u_instance => u_instance
            | None => []
            end)
    instances.

(** The left arm is fed 5 and the right arm 7; the port of the default
    model instance, which has no actuator, is fed a NaN. *)
Definition arms_fed_separately : ActuationContext :=
  {| actuation_port_ := None;
     instance_actuation_ports_ :=
       fun i => match i with
                | 1%nat => Some [NaN]
                | 2%nat => Some [Fin 5]
                | 3%nat => Some [Fin 7]
                | _ => None
                end |}.

(** ** Forces from the input ports
    ([AddInForcesFromInputPorts], [AddAppliedExternalGeneralizedForces],
    [AddAppliedExternalSpatialForces], [AddJointActuationForces]) and the
    actuation matrix ([MakeActuationMatrix]) *)

Module InputPorts.

Record ExternallyAppliedSpatialForce : Type :=
  mkExternallyAppliedSpatialForce {
    body_index : BodyIndex;
    p_BoBq_B : Vector3;
    F_Bq_W : SpatialForce
  }.

(** The accumulator [MultibodyForces]: the body forces, by node, and the
    generalized forces. *)
Record MultibodyForces : Type := mkMultibodyForces {
  body_forces : list SpatialForce;
  generalized_forces : list double
}.

(** The plant, as these functions read it.  [AddInOneForce] is the
    member of the joint actuator of that name (declared outside the sources),
    given the actuator index, the degree of freedom of its joint, the value
    and the accumulator. *)
Record Plant : Type := mkPlant {
  node_index : BodyIndex -> BodyNodeIndex;
  body_name : BodyIndex -> string;
  num_velocities : nat;
  num_actuators : nat;
  (** [num_actuated_dofs()], of the whole plant *)
  num_actuated_dofs : nat;
  (** [get_joint_actuator(a).joint().num_velocities()] *)
  joint_num_velocities : nat -> nat;
  (** [get_joint_actuator(a).joint().velocity_start()] *)
  joint_velocity_start : nat -> nat;
  AddInOneForce : nat -> nat -> double -> MultibodyForces -> MultibodyForces;
  actuation_plant : ActuationPlant
}.

(** The context: the values of the two force input ports, if they have
    one, the actuation ports, and the rotation [X_WB.rotation()] of a body's
    pose applied to a vector. *)
Record Context : Type := mkContext {
  applied_generalized_force_input : option (list double);
  applied_spatial_force_input : option (list ExternallyAppliedSpatialForce);
  actuation_context : ActuationContext;
  rotate_to_world : BodyIndex -> Vector3 -> Vector3
}.

(** A function that updates the accumulator in place and may throw: it
    returns how it ended, and the accumulator as it left it. *)
Definition Update : Type := MultibodyForces -> result unit * MultibodyForces.

Definition and_then (first second : Update) : Update :=
  fun forces =>
    match first forces with
    | (Ok _, forces') => second forces'
    | (Err e, forces') => (Err e, forces')
    end.

Definition v3_hasNaN (v : Vector3) : bool :=
  isnan (vx v) || isnan (vy v) || isnan (vz v).

Definition AddAppliedExternalGeneralizedForces (context : Context) : Update :=
  fun forces =>
    match applied_generalized_force_input context with
    | Some applied_generalized_force =>
        if hasNaN applied_generalized_force then
          (Err (RuntimeError
                  "Detected NaN in applied generalized force input port."),
           forces)
        else
          (Ok tt,
           {| body_forces := body_forces forces;
              generalized_forces :=
                add_forces (generalized_forces forces)
                  applied_generalized_force |})
    | None => (Ok tt, forces)
    end.

(** The lambda [throw_if_contains_nan]. *)
Definition throw_if_contains_nan
    (plant : Plant) (external_spatial_force : ExternallyAppliedSpatialForce)
  : result unit :=
  let spatial_force := F_Bq_W external_spatial_force in
  if v3_hasNaN (p_BoBq_B external_spatial_force)
     || v3_hasNaN (force_rotational spatial_force)
     || v3_hasNaN (force_translational spatial_force)
  then Err (RuntimeError
              ("Spatial force applied on body " ++
               body_name plant (body_index external_spatial_force) ++
               " contains NaN.")%string)
  else Ok tt.

(** [array[i] += F] on a vector; the index is that of a node of the
    plant.  (Out of range [operator[]] has no defined behaviour; the model
    leaves the array as it is.) *)
Definition index_add (array : list SpatialForce) (i : nat) (F : SpatialForce)
  : list SpatialForce :=
  match nth_error array i with
  | Some G => list_update array i (SpatialForce_add G F)
  | None => array
  end.

(** The loop of [AddAppliedExternalSpatialForces] over the forces of the
    port. *)
Fixpoint AddAppliedExternalSpatialForces_loop
    (plant : Plant) (ext : Collaborators) (context : Context)
    (applied_input : list ExternallyAppliedSpatialForce)
    (F_BBo_W_array : list SpatialForce)
  : result unit * list SpatialForce :=
  match applied_input with
  | [] => (Ok tt, F_BBo_W_array)
  | force_structure :: rest =>
      match throw_if_contains_nan plant force_structure with
      | Err e => (Err e, F_BBo_W_array)
      | Ok _ =>
          let body_node_index := node_index plant (body_index force_structure) in
          let p_BoBq_W :=
            rotate_to_world context (body_index force_structure)
              (p_BoBq_B force_structure) in
          AddAppliedExternalSpatialForces_loop plant ext context rest
            (index_add F_BBo_W_array body_node_index
               (force_Shift ext (F_Bq_W force_structure) (v3_neg p_BoBq_W)))
      end
  end.

Definition AddAppliedExternalSpatialForces
    (plant : Plant) (ext : Collaborators) (context : Context) : Update :=
  fun forces =>
    match applied_spatial_force_input context with
    | None => (Ok tt, forces)
    | Some applied_input =>
        let '(outcome, F_BBo_W_array) :=
          AddAppliedExternalSpatialForces_loop plant ext context applied_input
            (body_forces forces) in
        (outcome,
         {| body_forces := F_BBo_W_array;
            generalized_forces := generalized_forces forces |})
    end.

(** The loop of [AddJointActuationForces] over the actuators; its inner
    loop runs over the degrees of freedom of the joint, of which the demand
    has left one.  [u] holds one entry per actuator; an actuator for which
    the list is too short adds nothing. *)
Fixpoint AddJointActuationForces_loop
    (plant : Plant) (u : list double) (actuators : list nat) : Update :=
  fun forces =>
    match actuators with
    | [] => (Ok tt, forces)
    | actuator_index :: rest =>
        if Nat.eqb (joint_num_velocities plant actuator_index) 1 then
          AddJointActuationForces_loop plant u rest
            (match nth_error u actuator_index with
             | Some u_actuator =>
                 AddInOneForce plant actuator_index 0 u_actuator forces
             | None => forces
             end)
        else
          (Err (DemandFailed "actuator.joint().num_velocities() == 1"), forces)
    end.

Definition AddJointActuationForces (plant : Plant) (context : Context)
  : Update :=
  fun forces =>
    if Nat.ltb 0 (num_actuators plant) then
      match AssembleActuationInput (actuation_plant plant)
              (actuation_context context) with
      | Err e => (Err e, forces)
      | Ok u =>
          AddJointActuationForces_loop plant u (seq 0 (num_actuators plant))
            forces
      end
    else (Ok tt, forces).

Definition AddInForcesFromInputPorts
    (plant : Plant) (ext : Collaborators) (context : Context) : Update :=
  and_then (AddAppliedExternalGeneralizedForces context)
    (and_then (AddAppliedExternalSpatialForces plant ext context)
       (AddJointActuationForces plant context)).

(** A dense matrix: its sizes and its coefficients. *)
Record Matrix : Type := mkMatrix {
  rows : nat;
  cols : nat;
  coeff : nat -> nat -> double
}.

(** [MatrixX<T>::Zero(rows, cols)] *)
Definition Matrix_Zero (rows cols : nat) : Matrix :=
  {| rows := rows; cols := cols; coeff := fun _ _ => Fin 0 |}.

(** [B(row, column) = value]; the row is the velocity index of a joint of
    the plant and the column the index of one of its actuators.  (Outside
    the matrix the coefficient access has no defined behaviour in a release
    build.) *)
Definition set_coefficient (B : Matrix) (row column : nat) (value : double)
  : Matrix :=
  {| rows := rows B;
     cols := cols B;
     coeff := fun i j =>
                if Nat.eqb i row && Nat.eqb j column then value
                else coeff B i j |}.

Fixpoint MakeActuationMatrix_loop
    (plant : Plant) (actuators : list nat) (B : Matrix) : result Matrix :=
  match actuators with
  | [] => Ok B
  | actuator_index :: rest =>
      (DRAKE_DEMAND (Nat.eqb (joint_num_velocities plant actuator_index) 1)
         "actuator.joint().num_velocities() == 1" ;;;
       MakeActuationMatrix_loop plant rest
         (set_coefficient B (joint_velocity_start plant actuator_index)
            actuator_index (Fin 1)))%result
  end.

Definition MakeActuationMatrix (plant : Plant) : result Matrix :=
  MakeActuationMatrix_loop plant (seq 0 (num_actuators plant))
    (Matrix_Zero (num_velocities plant) (num_actuated_dofs plant)).

(** Row [i] of [B] times the vector [u], whose first entry belongs to
    column [k]. *)
Fixpoint row_times (B : Matrix) (i k : nat) (u : list double) : double :=
  match u with
  | [] => Fin 0
  | x :: rest => dadd (dmul (coeff B i k) x) (row_times B i (S k) rest)
  end.

(** [tau[i] += value] on the generalized forces. *)
Definition generalized_add (tau : list double) (i : nat) (value : double)
  : list double :=
  match nth_error tau i with
  | Some old => list_update tau i (dadd old value)
  | None => tau
  end.

(** An [AddInOneForce] that adds the value to the generalized force of
    the given degree of freedom of the actuator's joint. *)
Definition adds_at_velocity_start (velocity_start : nat -> nat)
  : nat -> nat -> double -> MultibodyForces -> MultibodyForces :=
  fun actuator_index joint_dof tau forces =>
    {| body_forces := body_forces forces;
       generalized_forces :=
         generalized_add (generalized_forces forces)
           (velocity_start actuator_index + joint_dof) tau |}.

(** The two arms with one actuator each: the actuator of the left arm
    drives the second velocity and that of the right arm the first. *)
Definition two_arm_plant : Plant :=
  {| node_index := fun b => b;
     body_name := fun b => match b with
                           | 0%nat => "world"
                           | 1%nat => "left_hand"
                           | _ => "right_hand"
                           end%string;
     num_velocities := 2;
     num_actuators := 2;
     num_actuated_dofs := 2;
     joint_num_velocities := fun _ => 1%nat;
     joint_velocity_start := fun a => (1 - a)%nat;
     AddInOneForce := adds_at_velocity_start (fun a => (1 - a)%nat);
     actuation_plant := two_arms |}.

Definition push_up : SpatialForce :=
  mkSpatialForce v3_zero (mkVector3 (Fin 0) (Fin 0) (Fin 1)).
Definition broken_push : SpatialForce :=
  mkSpatialForce v3_zero (mkVector3 (Fin 0) (Fin 0) NaN).

(** A generalized force on both velocities, a push on the left hand at
    its origin followed by a push on the right hand that holds a NaN; no
    actuation port is connected. *)
Definition second_push_broken : Context :=
  {| applied_generalized_force_input := Some [Fin 1; Fin 1];
     applied_spatial_force_input :=
       Some [mkExternallyAppliedSpatialForce 1%nat v3_zero push_up;
             mkExternallyAppliedSpatialForce 2%nat v3_zero broken_push];
     actuation_context := nothing_connected;
     rotate_to_world := fun _ v => v |}.

Definition resting_forces : MultibodyForces :=
  {| body_forces := [SpatialForce_Zero; SpatialForce_Zero; SpatialForce_Zero];
     generalized_forces := [Fin 0; Fin 0] |}.

(** Only the two actuation ports of the arms are connected. *)
Definition arms_driven : Context :=
  {| applied_generalized_force_input := None;
     applied_spatial_force_input := None;
     actuation_context := arms_fed_separately;
     rotate_to_world := fun _ v => v |}.

End InputPorts.

(** ** The velocities of the joints that are not locked
    ([CalcJointLockingIndices]) *)

Module Locking.

(** A joint, as the function reads it: whether it is locked in the
    context, and the block of velocities it owns. *)
Record Joint : Type := mkJoint {
  is_locked : bool;
  num_velocities : nat;
  velocity_start : nat
}.

(** The loop over the joints: the velocity indices of the joints that
    are not locked, in joint order.  (The vector they are written to has
    been resized to [num_velocities()], which the joints of a plant do not
    exceed; the [DRAKE_ASSERT] on the cursor is armed in debug builds
    only.) *)
Definition unlocked_velocities (joints : list Joint) : list nat :=
  flat_map
    (fun joint =>
       if negb (is_locked joint)
       then map (fun k => (velocity_start joint + k)%nat)
                (seq 0 (num_velocities joint))
       else [])
    joints.

(** [CalcJointLockingIndices]; [joints] lists the joints by index,
    [std::sort] is the sort of the library, and [DemandIndicesValid] is the
    check of that name, declared outside the sources. *)
Definition CalcJointLockingIndices
    (DemandIndicesValid : list nat -> nat -> result unit)
    (plant_num_velocities : nat) (joints : list Joint) : result (list nat) :=
  let unlocked := unlocked_velocities joints in
  let unlocked_cursor := List.length unlocked in
  let indices := NatSort.sort unlocked in
  (DemandIndicesValid indices plant_num_velocities ;;;
   DRAKE_DEMAND (Nat.eqb (List.length indices) unlocked_cursor)
     "ssize(indices) == unlocked_cursor" ;;;
   Ok indices)%result.

(** Three joints whose velocity blocks are not in joint order; the
    middle one is locked. *)
Definition three_joints : list Joint :=
  [mkJoint false 2 3; mkJoint true 1 2; mkJoint false 2 0].

End Locking.

(** ** The names of the positions of a model instance
    ([GetPositionNames] with a model instance) *)

Module Names.

(** A joint, as the function reads it. *)
Record Joint : Type := mkJoint {
  name : string;
  num_positions : nat;
  position_start : nat;
  position_suffix : nat -> string
}.

(** [fmt::format("{}{}{}", prefix, joint.name(), suffix)] for position
    [i] of the joint. *)
Definition position_name
    (prefix : string) (always_add_suffix : bool) (joint : Joint) (i : nat)
  : string :=
  let suffix :=
    if always_add_suffix || Nat.ltb 1 (num_positions joint)
    then ("_" ++ position_suffix joint i)%string
    else ""%string in
  (prefix ++ name joint ++ suffix)%string.

(** The inner loop: [names[position_start + i - position_offset] = ...]
    for the positions [i] of the joint. *)
Definition write_position_names
    (prefix : string) (always_add_suffix : bool) (position_offset : nat)
    (joint : Joint) (names : list string) : list string :=
  fold_left
    (fun names i =>
       list_update names (position_start joint + i - position_offset)
         (position_name prefix always_add_suffix joint i))
    (seq 0 (num_positions joint)) names.

(** The second loop over the joints of the instance. *)
Fixpoint GetPositionNames_loop
    (prefix : string) (always_add_suffix : bool) (position_offset : nat)
    (joints : list Joint) (names : list string) : result (list string) :=
  match joints with
  | [] => Ok names
  | joint :: rest =>
      (DRAKE_DEMAND (Nat.leb position_offset (position_start joint))
         "joint.position_start() >= position_offset" ;;;
       DRAKE_DEMAND
         (Nat.leb (position_start joint + num_positions joint - position_offset)
                  (List.length names))
         "joint.position_start() + joint.num_positions() - position_offset <= ssize(names)" ;;;
       GetPositionNames_loop prefix always_add_suffix position_offset rest
         (write_position_names prefix always_add_suffix position_offset
            joint names))%result
  end.

(** The first loop: the least [position_start] of the joints, from
    [num_positions()]. *)
Definition least_position_start
    (plant_num_positions : nat) (joints : list Joint) : nat :=
  fold_left (fun position_offset joint =>
               Nat.min position_offset (position_start joint))
    joints plant_num_positions.

(** [GetPositionNames(model_instance, add_model_instance_prefix,
    always_add_suffix)]: [joints] are the joints of [GetJointIndices] of the
    instance, [instance_num_positions] is [num_positions(model_instance)]
    and [instance_name] is [GetModelInstanceName(model_instance)]. *)
Definition GetPositionNames
    (is_finalized : bool) (plant_num_positions instance_num_positions : nat)
    (instance_name : string) (joints : list Joint)
    (add_model_instance_prefix always_add_suffix : bool)
  : result (list string) :=
  if negb is_finalized then
    Err (LogicError
           "Pre-finalize calls to 'GetPositionNames()' are not allowed; you must call Finalize() first.")
  else
    let names := repeat ""%string instance_num_positions in
    let position_offset := least_position_start plant_num_positions joints in
    let prefix :=
      if add_model_instance_prefix then (instance_name ++ "_")%string
      else ""%string in
    GetPositionNames_loop prefix always_add_suffix position_offset joints names.

(** An arm of two hinges that owns positions 3 and 4 of a plant of seven
    positions; and the same arm when position 4 belongs to another instance
    and its second hinge owns position 5. *)
Definition hinge (hinge_name : string) (start : nat) : Joint :=
  mkJoint hinge_name 1 start (fun _ => "q"%string).
Definition contiguous_arm : list Joint :=
  [hinge "elbow" 4; hinge "shoulder" 3].
Definition interleaved_arm : list Joint :=
  [hinge "elbow" 5; hinge "shoulder" 3].

End Names.

(** ** Coupler constraints and the choice of the contact solver
    ([AddCouplerConstraint], [set_discrete_contact_solver]) *)

Module Constraints.

Inductive DiscreteContactSolver : Type := kTamsi | kSap.

Record CouplerConstraintSpecs : Type := mkCouplerConstraintSpecs {
  joint0_index : JointIndex;
  joint1_index : JointIndex;
  gear_ratio : double;
  offset : double
}.

(** The members of the plant that the two functions read and write. *)
Record Plant : Type := mkPlant {
  is_finalized : bool;
  is_discrete : bool;
  contact_solver_enum_ : DiscreteContactSolver;
  coupler_constraints_specs_ : list CouplerConstraintSpecs
}.

Definition ThrowIfFinalized (plant : Plant) (source_method : string)
  : result unit :=
  if is_finalized plant then
    Err (LogicError
           ("Post-finalize calls to '" ++ source_method ++
            "()' are not allowed; calls to this method must happen before Finalize().")%string)
  else Ok tt.

Definition is_kTamsi (solver : DiscreteContactSolver) : bool :=
  match solver with kTamsi => true | kSap => false end.

Definition set_discrete_contact_solver
    (plant : Plant) (contact_solver : DiscreteContactSolver) : result Plant :=
  (ThrowIfFinalized plant "set_discrete_contact_solver" ;;;
   Ok {| is_finalized := is_finalized plant;
         is_discrete := is_discrete plant;
         contact_solver_enum_ := contact_solver;
         coupler_constraints_specs_ := coupler_constraints_specs_ plant |})%result.

Definition tamsi_coupler_message : string :=
  "Currently this MultibodyPlant is set to use the TAMSI solver. TAMSI does not support coupler constraints. Use set_discrete_contact_solver() to set a different solver type.".

(** [AddCouplerConstraint]; of each joint it is given the index, the
    name and the number of velocities, and [num_constraints] is the value of
    [num_constraints()] (of the class header) at the call. *)
Definition AddCouplerConstraint
    (plant : Plant)
    (joint0 joint1 : JointIndex) (name0 name1 : string)
    (num_velocities0 num_velocities1 : nat)
    (gear_ratio offset : double) (num_constraints : nat)
  : result (nat * Plant) :=
  (ThrowIfFinalized plant "AddCouplerConstraint" ;;;
   (if negb (is_discrete plant) then
      Err (RuntimeError
             "Currently coupler constraints are only supported for discrete MultibodyPlant models.")
    else Ok tt) ;;;
   (if is_kTamsi (contact_solver_enum_ plant) then
      Err (RuntimeError tamsi_coupler_message)
    else Ok tt) ;;;
   (if negb (Nat.eqb num_velocities0 1) || negb (Nat.eqb num_velocities1 1) then
      Err (RuntimeError
             ("Coupler constraints can only be defined on single-DOF joints. However joint '" ++
              name0 ++ "' has " ++ format_index num_velocities0 ++
              " DOFs and joint '" ++ name1 ++ "' has " ++
              format_index num_velocities1 ++ " DOFs.")%string)
    else Ok tt) ;;;
   let constraint_index := num_constraints in
   Ok (constraint_index,
       {| is_finalized := is_finalized plant;
          is_discrete := is_discrete plant;
          contact_solver_enum_ := contact_solver_enum_ plant;
          coupler_constraints_specs_ :=
            coupler_constraints_specs_ plant ++
            [mkCouplerConstraintSpecs joint0 joint1 gear_ratio offset] |}))%result.

(** A discrete plant before finalize, set to use SAP, without
    constraints. *)
Definition sap_plant : Plant := mkPlant false true kSap [].

End Constraints.
(* ================================================================== *)
(** * Part II: theorems *)
(* ================================================================== *)

Lemma Rltb_true (a b : R) : a < b -> Rltb a b = true.
Proof. intros H. unfold Rltb. destruct (Rlt_dec a b); [reflexivity | contradiction]. Qed.

Lemma Rltb_false (a b : R) : b <= a -> Rltb a b = false.
Proof. intros H. unfold Rltb. destruct (Rlt_dec a b); [lra | reflexivity]. Qed.

Lemma Rleb_true (a b : R) : a <= b -> Rleb a b = true.
Proof. intros H. unfold Rleb. destruct (Rle_dec a b); [reflexivity | contradiction]. Qed.

Lemma Rleb_false (a b : R) : b < a -> Rleb a b = false.
Proof. intros H. unfold Rleb. destruct (Rle_dec a b); [lra | reflexivity]. Qed.

Lemma Rltb_spec (a b : R) : Rltb a b = true <-> a < b.
Proof. unfold Rltb. destruct (Rlt_dec a b); split; intros; try easy. Qed.

Lemma Rleb_spec (a b : R) : Rleb a b = true <-> a <= b.
Proof. unfold Rleb. destruct (Rle_dec a b); split; intros; try easy. Qed.

(** ** Joint limit penalty forces *)

Lemma dle_Fin (a b : R) : dle (Fin a) (Fin b) = true <-> a <= b.
Proof. apply Rleb_spec. Qed.

Lemma dlt_Fin (a b : R) : dlt (Fin a) (Fin b) = true <-> a < b.
Proof. apply Rltb_spec. Qed.

Lemma dlt_Fin_false (a b : R) : dlt (Fin a) (Fin b) = false <-> b <= a.
Proof.
  simpl. unfold Rltb. destruct (Rlt_dec a b); split; intros; try easy; lra.
Qed.

Lemma std_min_Fin (a b : R) : std_min (Fin a) (Fin b) = Fin (Rmin a b).
Proof.
  unfold std_min, Rmin. simpl. unfold Rltb.
  destruct (Rlt_dec b a), (Rle_dec a b); try reflexivity; try lra.
Qed.

Lemma std_max_Fin (a b : R) : std_max (Fin a) (Fin b) = Fin (Rmax a b).
Proof.
  unfold std_max, Rmax. simpl. unfold Rltb.
  destruct (Rlt_dec a b), (Rle_dec a b); try reflexivity; try lra.
  f_equal. lra.
Qed.

Lemma CalcPenaltyForce_demands
    (lower upper : double) (k d : R) (q v : double) :
  dle lower upper = true -> 0 <= k -> 0 <= d ->
  CalcPenaltyForce lower upper (Fin k) (Fin d) q v =
  if dgt q upper then
    Ok (std_min (dsub (dmul (dneg (Fin k)) (dsub q upper)) (dmul (Fin d) v))
                (Fin 0))
  else if dlt q lower then
    Ok (std_max (dsub (dmul (dneg (Fin k)) (dsub q lower)) (dmul (Fin d) v))
                (Fin 0))
  else Ok (Fin 0).
Proof.
  intros Hlim Hk Hd. unfold CalcPenaltyForce, DRAKE_DEMAND, dge.
  rewrite Hlim.
  assert (Ek : dle (Fin 0) (Fin k) = true) by (apply dle_Fin; exact Hk).
  assert (Ed : dle (Fin 0) (Fin d) = true) by (apply dle_Fin; exact Hd).
  rewrite Ek, Ed. reflexivity.
Qed.

(** C5.  For limits [lower <= upper] of which at least one is finite, and
    penalty parameters [k >= 0], [d >= 0], the penalty force at position
    [q] and velocity [v] is [0] when [lower <= q <= upper] (so also at
    [q = lower] and at [q = upper]), is [min(-k*(q-upper) - d*v, 0)] when
    [q > upper], and is [max(-k*(q-lower) - d*v, 0)] when [q < lower]. *)
Theorem C5_joint_limit_penalty_force
    (lower upper : double) (k d q v : R)
    (Hlim : dle lower upper = true)
    (Hfinite : isfinite lower || isfinite upper = true)
    (Hk : 0 <= k) (Hd : 0 <= d) :
  (dle lower (Fin q) = true -> dle (Fin q) upper = true ->
   CalcPenaltyForce lower upper (Fin k) (Fin d) (Fin q) (Fin v) = Ok (Fin 0))
  /\ (lower = Fin q \/ upper = Fin q ->
      CalcPenaltyForce lower upper (Fin k) (Fin d) (Fin q) (Fin v) = Ok (Fin 0))
  /\ (dgt (Fin q) upper = true ->
      exists u, upper = Fin u /\
        CalcPenaltyForce lower upper (Fin k) (Fin d) (Fin q) (Fin v) =
        Ok (Fin (Rmin (- k * (q - u) - d * v) 0)))
  /\ (dlt (Fin q) lower = true ->
      exists l, lower = Fin l /\
        CalcPenaltyForce lower upper (Fin k) (Fin d) (Fin q) (Fin v) =
        Ok (Fin (Rmax (- k * (q - l) - d * v) 0))).
Proof.
  rewrite (CalcPenaltyForce_demands lower upper k d (Fin q) (Fin v) Hlim Hk Hd).
  assert (Hin : dle lower (Fin q) = true -> dle (Fin q) upper = true ->
                (if dgt (Fin q) upper then
                   Ok (std_min (dsub (dmul (dneg (Fin k)) (dsub (Fin q) upper))
                                     (dmul (Fin d) (Fin v))) (Fin 0))
                 else if dlt (Fin q) lower then
                   Ok (std_max (dsub (dmul (dneg (Fin k)) (dsub (Fin q) lower))
                                     (dmul (Fin d) (Fin v))) (Fin 0))
                 else Ok (Fin 0)) = Ok (Fin 0)).
  { intros Hl Hu. unfold dgt.
    destruct upper as [u| | |]; simpl in Hu; try discriminate;
      destruct lower as [l| | |]; simpl in Hl; try discriminate;
      simpl; try reflexivity;
      repeat match goal with
             | H : Rleb _ _ = true |- _ => apply Rleb_spec in H
             end;
      repeat (rewrite Rltb_false by lra); reflexivity. }
  split; [exact Hin|].
  split.
  { intros [E | E]; subst.
    - apply Hin; [apply dle_Fin; lra | exact Hlim].
    - apply Hin; [exact Hlim | apply dle_Fin; lra]. }
  split.
  - intros Hgt. unfold dgt in Hgt.
    destruct upper as [u| | |]; simpl in Hgt; try discriminate.
    + exists u. split; [reflexivity|].
      unfold dgt. simpl. rewrite Hgt. simpl.
      rewrite std_min_Fin. reflexivity.
    + destruct lower; simpl in Hlim, Hfinite; discriminate.
  - intros Hlt.
    destruct lower as [l| | |]; simpl in Hlt; try discriminate.
    + exists l. split; [reflexivity|].
      apply Rltb_spec in Hlt.
      assert (Hqu : dgt (Fin q) upper = false).
      { unfold dgt. destruct upper as [u| | |]; simpl in *; try reflexivity;
          try discriminate.
        apply Rleb_spec in Hlim. apply Rltb_false. lra. }
      rewrite Hqu. simpl. rewrite (Rltb_true q l Hlt).
      rewrite std_max_Fin. reflexivity.
    + destruct upper; simpl in Hlim, Hfinite; discriminate.
Qed.

Lemma C5_joint_limit_penalty_force_witness :
  dle (Fin 0) (Fin 1) = true /\
  CalcPenaltyForce (Fin 0) (Fin 1) (Fin 2) (Fin 1) (Fin 3) (Fin 1) =
  Ok (Fin (Rmin (- 2 * (3 - 1) - 1 * 1) 0)).
Proof.
  assert (Hlim : dle (Fin 0) (Fin 1) = true) by (apply dle_Fin; lra).
  split; [exact Hlim|].
  destruct (C5_joint_limit_penalty_force (Fin 0) (Fin 1) 2 1 3 1 Hlim
              eq_refl ltac:(lra) ltac:(lra)) as (_ & _ & Hup & _).
  destruct (Hup ltac:(apply dlt_Fin; lra)) as (u & Eu & Hres).
  injection Eu as <-. exact Hres.
Defined.

(** ** Stribeck friction *)

Lemma Rsign_pos (r : R) : 0 < r -> Rsign r = Pos.
Proof. intros H. unfold Rsign. destruct (Rlt_dec 0 r); [reflexivity | contradiction]. Qed.

Lemma Rsign_neg (r : R) : r < 0 -> Rsign r = Neg.
Proof.
  intros H. unfold Rsign.
  destruct (Rlt_dec 0 r); [lra|]. destruct (Rlt_dec r 0); [reflexivity | contradiction].
Qed.

Lemma Rsign_zero : Rsign 0 = Zero.
Proof.
  unfold Rsign. destruct (Rlt_dec 0 0); [lra | reflexivity].
Qed.

Lemma ddiv_Fin_pos (a b : R) : 0 < b -> ddiv (Fin a) (Fin b) = Fin (a / b).
Proof. intros H. simpl. rewrite (Rsign_pos b H). reflexivity. Qed.

Lemma step5_Fin (x : R) : step5 (Fin x) = Fin (s5 x).
Proof. unfold step5, s5. simpl. f_equal. ring. Qed.

Lemma ComputeFrictionCoefficient_Fin (tol speed mu_s mu_d : R) :
  0 < tol ->
  ComputeFrictionCoefficient (set_stiction_tolerance (Fin tol)) (Fin speed)
    (mkCoulombFriction (Fin mu_s) (Fin mu_d)) =
  let v := speed / tol in
  if Rleb 3 v then Fin mu_d
  else if Rleb 1 v then Fin (mu_s - (mu_s - mu_d) * s5 ((v - 1) / 2))
  else Fin (mu_s * s5 v).
Proof.
  intros Htol. unfold ComputeFrictionCoefficient, set_stiction_tolerance.
  cbn [inv_v_stiction_tolerance_ static_friction dynamic_friction].
  rewrite (ddiv_Fin_pos 1 tol Htol).
  replace (dmul (Fin speed) (Fin (1 / tol))) with (Fin (speed / tol))
    by (simpl; f_equal; field; lra).
  cbv zeta. unfold dge. cbn [dle].
  destruct (Rleb 3 (speed / tol)); [reflexivity|].
  destruct (Rleb 1 (speed / tol)).
  - cbn [dsub dneg dadd]. rewrite (ddiv_Fin_pos _ 2) by lra.
    rewrite step5_Fin. simpl. f_equal.
  - rewrite step5_Fin. reflexivity.
Qed.

Lemma stribeck_curve_piecewise (mu_s mu_d v : R) :
  stribeck_curve mu_s mu_d v =
  if Rleb 3 v then mu_d
  else if Rleb 1 v then mu_s - (mu_s - mu_d) * s5 ((v - 1) / 2)
  else mu_s * s5 v.
Proof.
  unfold stribeck_curve.
  rewrite ComputeFrictionCoefficient_Fin by lra. cbv zeta.
  replace (v / 1) with v by field.
  destruct (Rleb 3 v); [reflexivity|].
  destruct (Rleb 1 v); reflexivity.
Qed.

Lemma s5_0 : s5 0 = 0.
Proof. unfold s5. ring. Qed.

Lemma s5_1 : s5 1 = 1.
Proof. unfold s5. ring. Qed.

Lemma continuity_static_branch (mu_s : R) :
  continuity (fun v => mu_s * s5 v).
Proof. unfold s5. reg. Qed.

Lemma continuity_transition_branch (mu_s mu_d : R) :
  continuity (fun v => mu_s - (mu_s - mu_d) * s5 ((v - 1) / 2)).
Proof. unfold s5. reg. Qed.

(** Two functions continuous at [c] that agree there glue to a function
    continuous at [c]. *)
Lemma continuity_pt_glue (f g h : R -> R) (c r : R) :
  0 < r ->
  continuity_pt f c -> continuity_pt g c -> f c = g c ->
  (forall x, c - r < x < c -> h x = f x) ->
  (forall x, c <= x < c + r -> h x = g x) ->
  continuity_pt h c.
Proof.
  intros Hr Hf Hg Hfg Hleft Hright eps Heps.
  destruct (Hf eps Heps) as (d1 & Hd1 & H1).
  destruct (Hg eps Heps) as (d2 & Hd2 & H2).
  exists (Rmin r (Rmin d1 d2)). split.
  - repeat apply Rmin_pos; assumption.
  - intros x [Hx Hdist]. simpl in *. unfold R_dist in *.
    assert (Hxr : Rabs (x - c) < r).
    { eapply Rlt_le_trans; [exact Hdist | apply Rmin_l]. }
    assert (Hx1 : Rabs (x - c) < d1).
    { eapply Rlt_le_trans; [exact Hdist|].
      eapply Rle_trans; [apply Rmin_r | apply Rmin_l]. }
    assert (Hx2 : Rabs (x - c) < d2).
    { eapply Rlt_le_trans; [exact Hdist|].
      eapply Rle_trans; [apply Rmin_r | apply Rmin_r]. }
    apply Rabs_def2 in Hxr.
    rewrite (Hright c) by lra.
    destruct (Rlt_dec x c) as [Hlt | Hge].
    + rewrite (Hleft x) by lra. rewrite <- Hfg. apply H1. split; assumption.
    + rewrite (Hright x) by lra. apply H2. split; assumption.
Qed.

Lemma stribeck_curve_continuous_at_1 (mu_s mu_d : R) :
  continuity_pt (stribeck_curve mu_s mu_d) 1.
Proof.
  apply (continuity_pt_glue
           (fun v => mu_s * s5 v)
           (fun v => mu_s - (mu_s - mu_d) * s5 ((v - 1) / 2))
           (stribeck_curve mu_s mu_d) 1 1).
  - lra.
  - apply continuity_static_branch.
  - apply continuity_transition_branch.
  - replace ((1 - 1) / 2) with 0 by field. rewrite s5_0, s5_1. ring.
  - intros x Hx. rewrite stribeck_curve_piecewise.
    rewrite (Rleb_false 3 x) by lra. rewrite (Rleb_false 1 x) by lra.
    reflexivity.
  - intros x Hx. rewrite stribeck_curve_piecewise.
    rewrite (Rleb_false 3 x) by lra. rewrite (Rleb_true 1 x) by lra.
    reflexivity.
Qed.

Lemma stribeck_curve_continuous_at_3 (mu_s mu_d : R) :
  continuity_pt (stribeck_curve mu_s mu_d) 3.
Proof.
  apply (continuity_pt_glue
           (fun v => mu_s - (mu_s - mu_d) * s5 ((v - 1) / 2))
           (fun _ => mu_d)
           (stribeck_curve mu_s mu_d) 3 1).
  - lra.
  - apply continuity_transition_branch.
  - apply continuity_const. intros x y. reflexivity.
  - replace ((3 - 1) / 2) with 1 by field. rewrite s5_1. ring.
  - intros x Hx. rewrite stribeck_curve_piecewise.
    rewrite (Rleb_false 3 x) by lra. rewrite (Rleb_true 1 x) by lra.
    reflexivity.
  - intros x Hx. rewrite stribeck_curve_piecewise.
    rewrite (Rleb_true 3 x) by lra. reflexivity.
Qed.

(** C4.  With [v = slip_speed / stiction_tolerance], the Stribeck coefficient
    is [mu_s * s5(v)] on [0 <= v < 1], [mu_s - (mu_s - mu_d) * s5((v-1)/2)]
    on [1 <= v < 3] and [mu_d] on [v >= 3], with
    [s5(x) = 10x^3 - 15x^4 + 6x^5]; the two branches meeting at [v = 1] both
    give [mu_s], those meeting at [v = 3] both give [mu_d], and the
    coefficient is a continuous function of [v] at both points. *)
Theorem C4_stribeck_coefficient
    (slip_speed stiction_tol mu_s mu_d : R)
    (Hspeed : 0 <= slip_speed) (Htol : 0 < stiction_tol)
    (Hmu : 0 <= mu_d <= mu_s) :
  let v := slip_speed / stiction_tol in
  let mu := ComputeFrictionCoefficient
              (set_stiction_tolerance (Fin stiction_tol)) (Fin slip_speed)
              (mkCoulombFriction (Fin mu_s) (Fin mu_d)) in
  (0 <= v < 1 -> mu = Fin (mu_s * s5 v))
  /\ (1 <= v < 3 -> mu = Fin (mu_s - (mu_s - mu_d) * s5 ((v - 1) / 2)))
  /\ (3 <= v -> mu = Fin mu_d)
  /\ (mu_s * s5 1 = mu_s /\ mu_s - (mu_s - mu_d) * s5 ((1 - 1) / 2) = mu_s)
  /\ (mu_s - (mu_s - mu_d) * s5 ((3 - 1) / 2) = mu_d)
  /\ continuity_pt (stribeck_curve mu_s mu_d) 1
  /\ continuity_pt (stribeck_curve mu_s mu_d) 3.
Proof.
  intros v mu. subst mu.
  rewrite (ComputeFrictionCoefficient_Fin _ _ _ _ Htol). cbv zeta. fold v.
  repeat split.
  - intros [_ H]. rewrite (Rleb_false 3 v) by lra.
    rewrite (Rleb_false 1 v) by lra. reflexivity.
  - intros [H1 H3]. rewrite (Rleb_false 3 v) by lra.
    rewrite (Rleb_true 1 v) by lra. reflexivity.
  - intros H. rewrite (Rleb_true 3 v) by lra. reflexivity.
  - rewrite s5_1. ring.
  - replace ((1 - 1) / 2) with 0 by field. rewrite s5_0. ring.
  - replace ((3 - 1) / 2) with 1 by field. rewrite s5_1. ring.
  - apply stribeck_curve_continuous_at_1.
  - apply stribeck_curve_continuous_at_3.
Qed.

Lemma C4_stribeck_coefficient_witness :
  ComputeFrictionCoefficient (set_stiction_tolerance (Fin 1)) (Fin 2)
    (mkCoulombFriction (Fin 1) (Fin (1 / 2))) =
  Fin (1 - (1 - 1 / 2) * s5 ((2 / 1 - 1) / 2)).
Proof.
  destruct (C4_stribeck_coefficient 2 1 1 (1 / 2)
              ltac:(lra) ltac:(lra) ltac:(lra)) as (_ & H & _).
  apply H. lra.
Defined.

(** ** Joint limit penalty parameters *)

Lemma harmonic_oscillator_finite (period inertia : R) :
  0 < period -> 0 <= inertia ->
  CalcCriticallyDampedHarmonicOscillatorParameters (Fin period) (Fin inertia) =
  (Fin (inertia * (2 * PI / period) ^ 2),
   Fin (2 * sqrt (inertia * (inertia * (2 * PI / period) ^ 2)))).
Proof.
  intros Hp Hm. unfold CalcCriticallyDampedHarmonicOscillatorParameters, M_PI.
  cbn [dmul]. rewrite (ddiv_Fin_pos _ period Hp). cbn [dmul].
  assert (Hk : 0 <= inertia * (inertia * (2 * PI / period) * (2 * PI / period))).
  { apply Rmult_le_pos; [exact Hm|].
    replace (inertia * (2 * PI / period) * (2 * PI / period))
      with (inertia * ((2 * PI / period) * (2 * PI / period))) by ring.
    apply Rmult_le_pos; [exact Hm|]. apply Rle_0_sqr. }
  unfold dsqrt.
  destruct (Rlt_dec (inertia * (inertia * (2 * PI / period) * (2 * PI / period))) 0);
    [lra|].
  cbn [dmul]. f_equal.
  - f_equal. ring.
  - f_equal. replace (2 * 1) with 2 by ring. do 2 f_equal. ring.
Qed.

Lemma harmonic_oscillator_infinite (period : R) :
  0 < period ->
  CalcCriticallyDampedHarmonicOscillatorParameters (Fin period) infinity =
  (PInf, PInf).
Proof.
  intros Hp. unfold CalcCriticallyDampedHarmonicOscillatorParameters, M_PI, infinity.
  cbn [dmul]. rewrite (ddiv_Fin_pos _ period Hp).
  assert (Hw : 0 < 2 * PI / period).
  { apply Rdiv_lt_0_compat; [|exact Hp]. pose proof PI_RGT_0. lra. }
  cbn [dmul dsign]. rewrite (Rsign_pos _ Hw). cbn. rewrite (Rsign_pos _ Hw).
  cbn. rewrite (Rsign_pos (2 * 1)) by lra. reflexivity.
Qed.

Lemma harmonic_oscillator_nan (period : double) :
  CalcCriticallyDampedHarmonicOscillatorParameters period NaN = (NaN, NaN).
Proof.
  unfold CalcCriticallyDampedHarmonicOscillatorParameters. simpl. reflexivity.
Qed.

(** The pair that is picked is one of the two, and no stiffer than either
    whenever the two stiffnesses can be compared. *)
Lemma PickLessStiffPenaltyParameters_least (params1 params2 : double * double) :
  let picked := PickLessStiffPenaltyParameters params1 params2 in
  (picked = params1 \/ picked = params2)
  /\ (isnan (fst params1) = false -> isnan (fst params2) = false ->
      dle (fst picked) (fst params1) = true /\
      dle (fst picked) (fst params2) = true).
Proof.
  unfold PickLessStiffPenaltyParameters.
  destruct params1 as [k1 d1], params2 as [k2 d2]. cbn [fst].
  destruct (dlt k1 k2) eqn:E; cbn [fst]; (split; [tauto|]); intros N1 N2.
  - destruct k1, k2; simpl in *; try discriminate; try (split; reflexivity).
    + apply Rltb_spec in E. split; apply Rleb_true; lra.
    + split; [apply Rleb_true; lra | reflexivity].
  - destruct k1, k2; simpl in *; try discriminate; try (split; reflexivity).
    + assert (r0 <= r).
      { unfold Rltb in E. destruct (Rlt_dec r r0); [discriminate | lra]. }
      split; apply Rleb_true; lra.
    + split; [reflexivity | apply Rleb_true; lra].
Qed.

(** The revolute path follows the rule of the specification. *)
Lemma revolute_parameters_follow_spec
    (joint : RevoluteJoint) (period : double) :
  is_rigid_body (revolute_parent_body joint) = true ->
  is_rigid_body (revolute_child_body joint) = true ->
  CalcRevoluteJointPenaltyParameters joint period =
  Ok (spec_penalty_parameters period
        (revolute_parent_body joint) (revolute_child_body joint)
        (axis_inertia (frame_on_parent joint))
        (axis_inertia (frame_on_child joint))).
Proof.
  intros Hp Hc.
  unfold CalcRevoluteJointPenaltyParameters, spec_penalty_parameters,
    spec_side_inertia, CalcRotationalInertiaAboutAxis, DRAKE_THROW_UNLESS.
  unfold revolute_parent_body, revolute_child_body in *.
  rewrite Hp, Hc. cbn [bind].
  destruct (Nat.eqb (body_index (frame_body (frame_on_parent joint))) world_index);
    destruct (Nat.eqb (body_index (frame_body (frame_on_child joint))) world_index);
    cbn [bind orb];
    destruct (isnan (default_mass (frame_body (frame_on_parent joint))));
    destruct (isnan (default_mass (frame_body (frame_on_child joint))));
    reflexivity.
Qed.

(** The prismatic path follows it when no mass is NaN. *)
Lemma prismatic_parameters_follow_spec
    (joint : PrismaticJoint) (period : double) :
  isnan (default_mass (prismatic_parent_body joint)) = false ->
  isnan (default_mass (prismatic_child_body joint)) = false ->
  CalcPrismaticJointPenaltyParameters joint period =
  spec_penalty_parameters period
    (prismatic_parent_body joint) (prismatic_child_body joint)
    (default_mass (prismatic_parent_body joint))
    (default_mass (prismatic_child_body joint)).
Proof.
  intros Hp Hc.
  unfold CalcPrismaticJointPenaltyParameters, spec_penalty_parameters,
    spec_side_inertia.
  rewrite Hp, Hc. rewrite !orb_false_r. reflexivity.
Qed.

(** A non-world child of unspecified mass makes the prismatic estimate NaN,
    whatever the parent is. *)
Lemma prismatic_nan_child (joint : PrismaticJoint) (period : double) :
  body_index (prismatic_child_body joint) <> world_index ->
  default_mass (prismatic_child_body joint) = NaN ->
  CalcPrismaticJointPenaltyParameters joint period = (NaN, NaN).
Proof.
  intros Hw Hm. unfold CalcPrismaticJointPenaltyParameters.
  apply Nat.eqb_neq in Hw. rewrite Hw, Hm.
  rewrite harmonic_oscillator_nan.
  unfold PickLessStiffPenaltyParameters. cbn [fst].
  destruct (fst _); reflexivity.
Qed.

Lemma kAlpha_period_positive : 0 < 20 * PI * 1.
Proof. pose proof PI_RGT_0. lra. Qed.

(** C8.  The prismatic estimator at a joint whose child body has an
    unspecified (NaN) mass: finalize stores the pair (NaN, NaN), whereas
    the rule of the specification (infinite inertia for a body of
    unspecified mass, then the less stiff pair) selects the parent's
    estimate, stiffness 1 and damping 20; the penalty force evaluated with
    the stored pair fails its demand on the stiffness. *)
Theorem C8_prismatic_unspecified_mass :
  SetUpJointLimitsParameters (Fin 1) [Prismatic nan_mass_slider] =
    Ok (mkJointLimitsParameters [0%nat] [Fin 0] [Fin 1] [NaN] [NaN])
  /\ spec_penalty_parameters (dmul kAlpha (Fin 1))
       heavy_parent unspecified_child
       (default_mass heavy_parent) (default_mass unspecified_child) =
     (Fin 1, Fin 20)
  /\ CalcPenaltyForce (Fin 0) (Fin 1) NaN NaN (Fin 2) (Fin 0) =
     Err (DemandFailed "stiffness >= 0").
Proof.
  split; [|split].
  - unfold SetUpJointLimitsParameters. cbn [SetUpJointLimitsParameters_loop].
    unfold SetUpJointLimitsParameters_joint.
    cbn [nan_mass_slider prismatic_lower_limit prismatic_upper_limit isinf negb orb].
    rewrite prismatic_nan_child; [reflexivity | discriminate | reflexivity].
  - unfold spec_penalty_parameters, spec_side_inertia, kAlpha, M_PI.
    cbn [heavy_parent unspecified_child body_index default_mass world_index
         Nat.eqb isnan orb dmul].
    rewrite (harmonic_oscillator_finite _ 100 kAlpha_period_positive) by lra.
    rewrite (harmonic_oscillator_infinite _ kAlpha_period_positive).
    unfold PickLessStiffPenaltyParameters. cbn [fst dlt].
    pose proof PI_RGT_0 as Hpi.
    assert (E : 100 * (2 * PI / (20 * PI * 1)) ^ 2 = 1) by (field; lra).
    rewrite E. f_equal. f_equal.
    replace (100 * 1) with (10 * 10) by ring.
    rewrite sqrt_square by lra. ring.
  - unfold CalcPenaltyForce, DRAKE_DEMAND, dge. cbn [dle].
    rewrite (Rleb_true 0 1) by lra. reflexivity.
Qed.

(** ** Plants without collision geometry *)

Lemma DRAKE_DEMAND_true (text : string) : DRAKE_DEMAND true text = Ok tt.
Proof. reflexivity. Qed.

Lemma length_eqb {A : Type} (l : list A) (n : nat) :
  List.length l = n -> Nat.eqb (List.length l) n = true.
Proof. intros H. apply Nat.eqb_eq. exact H. Qed.

(** C10.  With no collision geometry registered, whatever the state of the
    geometry query port: the geometry input is valid and validates; the
    point pairs are the empty list; the penalty pass returns the
    accumulator it was given; and so do the contact results, the
    hydroelastic pass, the fallback query and the continuous contact
    force pass, none of which reaches the port. *)
Theorem C10_no_collision_geometry
    (plant : MultibodyPlant) (ext : Collaborators) (context : Context)
    (Hzero : num_collision_geometries plant = 0%nat) :
  IsValidGeometryInput plant context = true
  /\ (forall explanation,
        ValidateGeometryInput plant context explanation = Ok tt)
  /\ CalcPointPairPenetrations plant context = Ok []
  /\ (forall F, List.length F = num_bodies plant ->
        CalcAndAddContactForcesByPenaltyMethod plant ext context F = Ok F)
  /\ CalcContactResultsContinuous plant ext context =
       Ok (mkContactResults true [] [])
  /\ (forall out, List.length (F_BBo_W_array out) = num_bodies plant ->
        CalcHydroelasticContactForces plant ext context out =
        Ok {| F_BBo_W_array := repeat SpatialForce_Zero (num_bodies plant);
              contact_info := contact_info out |})
  /\ (forall data, CalcHydroelasticWithFallback plant context data = Ok data)
  /\ (forall F, List.length F = num_bodies plant -> is_discrete plant = false ->
        CalcAndAddSpatialContactForcesContinuous plant ext context F = Ok F).
Proof.
  refine (conj _ (conj _ (conj _ (conj _ (conj _ (conj _ (conj _ _))))))).
  - unfold IsValidGeometryInput. rewrite Hzero. reflexivity.
  - intros explanation. unfold ValidateGeometryInput, IsValidGeometryInput.
    rewrite Hzero. reflexivity.
  - unfold CalcPointPairPenetrations. rewrite Hzero. reflexivity.
  - intros F HF. unfold CalcAndAddContactForcesByPenaltyMethod.
    rewrite (length_eqb _ _ HF), Hzero. reflexivity.
  - unfold CalcContactResultsContinuous. rewrite Hzero. reflexivity.
  - intros out HF. unfold CalcHydroelasticContactForces.
    rewrite (length_eqb _ _ HF), Hzero. reflexivity.
  - intros data. unfold CalcHydroelasticWithFallback. rewrite Hzero. reflexivity.
  - intros F HF Hd. unfold CalcAndAddSpatialContactForcesContinuous.
    rewrite (length_eqb _ _ HF), Hd, Hzero. reflexivity.
Qed.

Lemma C10_no_collision_geometry_witness :
  num_collision_geometries empty_plant = 0%nat
  /\ geometry_query_input_port disconnected_context = None
  /\ EvalGeometryQueryInput disconnected_context "probe" =
     Err (LogicError (disconnected_geometry_port_message "probe"))
  /\ IsValidGeometryInput empty_plant disconnected_context = true
  /\ CalcPointPairPenetrations empty_plant disconnected_context = Ok []
  /\ CalcAndAddContactForcesByPenaltyMethod empty_plant
       (example_collaborators empty_plant) disconnected_context
       [SpatialForce_Zero] = Ok [SpatialForce_Zero].
Proof.
  destruct (C10_no_collision_geometry empty_plant
              (example_collaborators empty_plant) disconnected_context eq_refl)
    as (Hvalid & _ & Hpairs & Hadd & _).
  refine (conj eq_refl (conj eq_refl (conj eq_refl
            (conj Hvalid (conj Hpairs (Hadd [SpatialForce_Zero] eq_refl)))))).
Defined.

(** The contact-surface query itself needs the port, geometry or not; it
    is read by [CalcHydroelasticContactForces] behind the guard on the
    number of collision geometries only. *)
Lemma CalcContactSurfaces_needs_port (plant : MultibodyPlant) (context : Context) :
  geometry_query_input_port context = None ->
  CalcContactSurfaces plant context =
  Err (LogicError (disconnected_geometry_port_message "CalcContactSurfaces")).
Proof.
  intros H. unfold CalcContactSurfaces, EvalGeometryQueryInput. rewrite H.
  reflexivity.
Qed.

(** ** The world body receives no contact force *)

Lemma bind_Ok {A B : Type} (m : result A) (k : A -> result B) (b : B) :
  bind m k = Ok b -> exists a, m = Ok a /\ k a = Ok b.
Proof.
  destruct m as [a | e]; cbn [bind]; intros H; [|discriminate].
  exists a. split; [reflexivity | exact H].
Qed.

Ltac bind_inv H :=
  let x := fresh "x" in
  let Hx := fresh "Hx" in
  apply bind_Ok in H; destruct H as (x & Hx & H).

Lemma nth_error_list_update_other {A : Type} (l : list A) (i j : nat) (x : A) :
  i <> j -> nth_error (list_update l i x) j = nth_error l j.
Proof.
  revert i j. induction l as [| y l IH]; intros i j Hij.
  - destruct i; reflexivity.
  - destruct i as [| i], j as [| j]; cbn; try reflexivity.
    + contradiction.
    + apply IH. intros E. apply Hij. f_equal. exact E.
Qed.

Lemma length_list_update {A : Type} (l : list A) (i : nat) (x : A) :
  List.length (list_update l i x) = List.length l.
Proof.
  revert i. induction l as [| y l IH]; intros [| i]; cbn; try reflexivity.
  f_equal. apply IH.
Qed.

Lemma at_add_other (array array' : list SpatialForce) (i j : nat) (F : SpatialForce) :
  at_add array i F = Ok array' -> i <> j ->
  nth_error array' j = nth_error array j.
Proof.
  unfold at_add. destruct (nth_error array i); intros H Hij; [|discriminate].
  injection H as <-. apply nth_error_list_update_other. exact Hij.
Qed.

Lemma at_add_length (array array' : list SpatialForce) (i : nat) (F : SpatialForce) :
  at_add array i F = Ok array' -> List.length array' = List.length array.
Proof.
  unfold at_add. destruct (nth_error array i); intros H; [|discriminate].
  injection H as <-. apply length_list_update.
Qed.

(** A guarded addition at the node of body [b] leaves the world's entry
    alone: either [b] is the world and nothing is added, or its node is
    another one. *)
Lemma guarded_at_add_keeps_world
    (plant : MultibodyPlant) (array array' : list SpatialForce)
    (b : BodyIndex) (F : SpatialForce) :
  (forall b', b' <> world_index ->
     node_index plant b' <> node_index plant world_index) ->
  (if negb (Nat.eqb b world_index)
   then at_add array (node_index plant b) F
   else Ok array) = Ok array' ->
  nth_error array' (node_index plant world_index) =
  nth_error array (node_index plant world_index)
  /\ List.length array' = List.length array.
Proof.
  intros Hnode H. destruct (Nat.eqb b world_index) eqn:E; cbn [negb] in H.
  - injection H as <-. split; reflexivity.
  - apply Nat.eqb_neq in E. split.
    + eapply at_add_other; [exact H | apply Hnode; exact E].
    + eapply at_add_length; exact H.
Qed.

Lemma penalty_pair_keeps_world
    (plant : MultibodyPlant) (ext : Collaborators) (context : Context)
    (F F' : list SpatialForce) (info : PointPairContactInfo) :
  (forall b, b <> world_index ->
     node_index plant b <> node_index plant world_index) ->
  CalcAndAddContactForcesByPenaltyMethod_pair plant ext context F info = Ok F' ->
  nth_error F' (node_index plant world_index) =
  nth_error F (node_index plant world_index)
  /\ List.length F' = List.length F.
Proof.
  intros Hnode H. unfold CalcAndAddContactForcesByPenaltyMethod_pair in H.
  cbv zeta in H.
  bind_inv H. bind_inv H. bind_inv H.
  destruct (guarded_at_add_keeps_world plant _ _ _ _ Hnode Hx1) as [E1 L1].
  destruct (guarded_at_add_keeps_world plant _ _ _ _ Hnode H) as [E2 L2].
  split; congruence.
Qed.

Lemma penalty_loop_keeps_world
    (plant : MultibodyPlant) (ext : Collaborators) (context : Context)
    (infos : list PointPairContactInfo) (F F' : list SpatialForce) :
  (forall b, b <> world_index ->
     node_index plant b <> node_index plant world_index) ->
  CalcAndAddContactForcesByPenaltyMethod_loop plant ext context infos F = Ok F' ->
  nth_error F' (node_index plant world_index) =
  nth_error F (node_index plant world_index)
  /\ List.length F' = List.length F.
Proof.
  intros Hnode. revert F. induction infos as [| info rest IH]; intros F H.
  - injection H as <-. split; reflexivity.
  - cbn [CalcAndAddContactForcesByPenaltyMethod_loop] in H. bind_inv H.
    destruct (penalty_pair_keeps_world _ _ _ _ _ _ Hnode Hx) as [E1 L1].
    destruct (IH _ H) as [E2 L2]. split; congruence.
Qed.

Lemma penalty_method_keeps_world
    (plant : MultibodyPlant) (ext : Collaborators) (context : Context)
    (F F' : list SpatialForce) :
  (forall b, b <> world_index ->
     node_index plant b <> node_index plant world_index) ->
  CalcAndAddContactForcesByPenaltyMethod plant ext context F = Ok F' ->
  nth_error F' (node_index plant world_index) =
  nth_error F (node_index plant world_index)
  /\ List.length F' = List.length F.
Proof.
  intros Hnode H. unfold CalcAndAddContactForcesByPenaltyMethod in H.
  bind_inv H.
  destruct (Nat.eqb (num_collision_geometries plant) 0).
  - injection H as <-. split; reflexivity.
  - bind_inv H. eapply penalty_loop_keeps_world; eassumption.
Qed.

Lemma hydro_surface_keeps_world
    (plant : MultibodyPlant) (ext : Collaborators) (context : Context)
    (insp : SceneGraphInspector)
    (acc acc' : HydroelasticContactInfoAndBodySpatialForces)
    (surface : ContactSurface) :
  (forall b, b <> world_index ->
     node_index plant b <> node_index plant world_index) ->
  CalcHydroelasticContactForces_surface plant ext context insp acc surface =
    Ok acc' ->
  nth_error (F_BBo_W_array acc') (node_index plant world_index) =
  nth_error (F_BBo_W_array acc) (node_index plant world_index)
  /\ List.length (F_BBo_W_array acc') = List.length (F_BBo_W_array acc).
Proof.
  intros Hnode H. unfold CalcHydroelasticContactForces_surface in H.
  cbv zeta in H.
  do 6 bind_inv H.
  destruct (ShiftSpatialForcesAtCentroidToBodyOrigins ext _ _) as [F_Ao_W F_Bo_W].
  bind_inv H. bind_inv H. injection H as <-. cbn [F_BBo_W_array].
  destruct (guarded_at_add_keeps_world plant _ _ _ _ Hnode Hx5) as [E1 L1].
  destruct (guarded_at_add_keeps_world plant _ _ _ _ Hnode Hx6) as [E2 L2].
  split; congruence.
Qed.

Lemma hydro_loop_keeps_world
    (plant : MultibodyPlant) (ext : Collaborators) (context : Context)
    (insp : SceneGraphInspector) (surfaces : list ContactSurface)
    (acc acc' : HydroelasticContactInfoAndBodySpatialForces) :
  (forall b, b <> world_index ->
     node_index plant b <> node_index plant world_index) ->
  CalcHydroelasticContactForces_loop plant ext context insp surfaces acc =
    Ok acc' ->
  nth_error (F_BBo_W_array acc') (node_index plant world_index) =
  nth_error (F_BBo_W_array acc) (node_index plant world_index)
  /\ List.length (F_BBo_W_array acc') = List.length (F_BBo_W_array acc).
Proof.
  intros Hnode. revert acc.
  induction surfaces as [| surface rest IH]; intros acc H.
  - injection H as <-. split; reflexivity.
  - cbn [CalcHydroelasticContactForces_loop] in H. bind_inv H.
    destruct (hydro_surface_keeps_world _ _ _ _ _ _ _ Hnode Hx) as [E1 L1].
    destruct (IH _ H) as [E2 L2]. split; congruence.
Qed.

Lemma hydro_forces_world_zero
    (plant : MultibodyPlant) (ext : Collaborators) (context : Context)
    (out out' : HydroelasticContactInfoAndBodySpatialForces) :
  (forall b, b <> world_index ->
     node_index plant b <> node_index plant world_index) ->
  CalcHydroelasticContactForces plant ext context out = Ok out' ->
  nth_error (F_BBo_W_array out') (node_index plant world_index) =
  nth_error (repeat SpatialForce_Zero (num_bodies plant))
            (node_index plant world_index)
  /\ List.length (F_BBo_W_array out') = num_bodies plant.
Proof.
  intros Hnode H. unfold CalcHydroelasticContactForces in H.
  bind_inv H.
  destruct (Nat.eqb (num_collision_geometries plant) 0).
  - injection H as <-. cbn [F_BBo_W_array]. split; [reflexivity|].
    apply repeat_length.
  - bind_inv H. bind_inv H.
    destruct (hydro_loop_keeps_world _ _ _ _ _ _ _ Hnode H) as [E L].
    cbn [F_BBo_W_array] in E, L. rewrite repeat_length in L.
    split; assumption.
Qed.

Lemma nth_error_repeat_zero (n w : nat) :
  (w < n)%nat ->
  nth_error (repeat SpatialForce_Zero n) w = Some SpatialForce_Zero.
Proof.
  revert w. induction n as [| n IH]; intros w Hw; [lia|].
  destruct w as [| w]; cbn; [reflexivity|]. apply IH. lia.
Qed.

Lemma nth_error_map_zero (F : list SpatialForce) (w : nat) :
  (w < List.length F)%nat ->
  nth_error (map (fun _ => SpatialForce_Zero) F) w = Some SpatialForce_Zero.
Proof.
  revert w. induction F as [| f F IH]; intros w Hw; cbn in *; [lia|].
  destruct w as [| w]; cbn; [reflexivity|]. apply IH. lia.
Qed.

Lemma SpatialForce_add_Zero_Zero :
  SpatialForce_add SpatialForce_Zero SpatialForce_Zero = SpatialForce_Zero.
Proof.
  unfold SpatialForce_add, SpatialForce_Zero, v3_add, v3_zero. cbn.
  rewrite Rplus_0_l. reflexivity.
Qed.

Lemma nth_error_add_arrays (F G : list SpatialForce) (w : nat) (f g : SpatialForce) :
  nth_error F w = Some f -> nth_error G w = Some g ->
  nth_error (add_arrays F G) w = Some (SpatialForce_add f g).
Proof.
  revert G w. induction F as [| f0 F IH]; intros G w HF HG.
  - destruct w; discriminate.
  - destruct G as [| g0 G]; [destruct w; discriminate|].
    destruct w as [| w]; cbn in *.
    + congruence.
    + apply IH; assumption.
Qed.

(** ** The continuous point-contact pass *)



Lemma normal_force_magnitude_Fin (k d x vn : R) :
  normal_force_magnitude (Fin k) (Fin d) (Fin x) (Fin vn) =
  Fin (k * x * (1 + d * vn)).
Proof. reflexivity. Qed.


(** The loop body once its lookups have succeeded. *)
Lemma point_pair_step
    (plant : MultibodyPlant) (ext : Collaborators) (context : Context)
    (insp : SceneGraphInspector) (results : ContactResults)
    (pair : PenetrationAsPointPair)
    (bodyA bodyB : BodyIndex) (kA dA kB dB : double) (fA fB : CoulombFriction) :
  FindBodyByGeometryId plant (id_A pair) = Ok bodyA ->
  FindBodyByGeometryId plant (id_B pair) = Ok bodyB ->
  GetPointContactParameters plant (id_A pair) insp = Ok (kA, dA) ->
  GetPointContactParameters plant (id_B pair) insp = Ok (kB, dB) ->
  GetCoulombFriction (id_A pair) insp = Ok fA ->
  GetCoulombFriction (id_B pair) insp = Ok fB ->
  let vn := normal_velocity plant ext context bodyA bodyB pair in
  let kd := CombinePointContactParameters ext kA kB dA dB in
  let fn := normal_force_magnitude (fst kd) (snd kd) (depth pair) vn in
  let force :=
    point_contact_force plant
      (CalcContactFrictionFromSurfaceProperties ext fA fB) fn vn
      (relative_contact_velocity ext context
         (node_index plant bodyA) (node_index plant bodyB)
         (contact_point_C pair))
      (nhat_BA_W pair) in
  AppendContactResultsContinuousPointPair_pair plant ext context insp
    results pair =
  if dgt fn (Fin 0) then
    Ok (AddContactInfo results
          (mkPointPairContactInfo bodyA bodyB (fst force)
             (contact_point_C pair) vn (snd force) pair))
  else Ok results.
Proof.
  intros HA HB HpA HpB HfA HfB vn kd fn force.
  unfold AppendContactResultsContinuousPointPair_pair.
  rewrite HA, HB. cbn [bind]. rewrite HpA, HpB. cbn [bind fst snd].
  rewrite HfA, HfB. cbn [bind].
  change (v3_dot
            (relative_contact_velocity ext context (node_index plant bodyA)
               (node_index plant bodyB) (contact_point_C pair))
            (nhat_BA_W pair)) with vn.
  fold kd. fold fn. fold force.
  destruct (dgt fn (Fin 0)); [|reflexivity].
  destruct force as [f slip]. reflexivity.
Qed.


(** *** The falling box *)

Lemma box_contact_point :
  contact_point_C box_on_ground_pair =
  mkVector3 (Fin 0) (Fin 0) (Fin (- (1 / 200))).
Proof.
  unfold contact_point_C, box_on_ground_pair, v3_scale, v3_add. cbn.
  f_equal; f_equal; lra.
Qed.

Lemma box_point_velocity (plant : MultibodyPlant) (w a b c : R) :
  contact_point_velocity (example_collaborators plant)
    (box_context (vertical w)) 1%nat (mkVector3 (Fin a) (Fin b) (Fin c)) =
  vertical w.
Proof.
  unfold contact_point_velocity, vertical. cbn.
  unfold v3_sub, v3_add, v3_cross, v3_neg, v3_zero. cbn.
  f_equal; f_equal; ring.
Qed.

Lemma ground_point_velocity (plant : MultibodyPlant) (v : Vector3) (a b c : R) :
  contact_point_velocity (example_collaborators plant)
    (box_context v) 0%nat (mkVector3 (Fin a) (Fin b) (Fin c)) =
  v3_zero.
Proof.
  unfold contact_point_velocity. cbn.
  unfold v3_sub, v3_add, v3_cross, v3_neg, v3_zero. cbn.
  f_equal; f_equal; ring.
Qed.

Lemma box_relative_velocity (plant : MultibodyPlant) (w a b c : R) :
  relative_contact_velocity (example_collaborators plant)
    (box_context (vertical w)) 1%nat 0%nat (mkVector3 (Fin a) (Fin b) (Fin c)) =
  vertical (- w).
Proof.
  unfold relative_contact_velocity.
  rewrite box_point_velocity, ground_point_velocity.
  unfold v3_sub, v3_zero, vertical. cbn. f_equal; f_equal; ring.
Qed.

Lemma box_normal_velocity (model : ContactModel) (w : R) :
  normal_velocity (box_plant model) (example_collaborators (box_plant model))
    (box_context (vertical w)) 1%nat 0%nat box_on_ground_pair = Fin (- w).
Proof.
  unfold normal_velocity. rewrite box_contact_point.
  cbn [box_plant node_index]. rewrite box_relative_velocity.
  unfold v3_dot, vertical. cbn. f_equal. ring.
Qed.

Lemma box_series_parameters :
  series_CombinePointContactParameters (Fin 2) (Fin 2) (Fin 1) (Fin 1) =
  (Fin 1, Fin 1).
Proof.
  unfold series_CombinePointContactParameters. cbn.
  rewrite (Rsign_pos (2 + 2)) by lra. f_equal; f_equal; lra.
Qed.

Lemma box_harmonic_friction :
  harmonic_friction (mkCoulombFriction (Fin 1) (Fin 1))
    (mkCoulombFriction (Fin 1) (Fin 1)) = mkCoulombFriction (Fin 1) (Fin 1).
Proof.
  unfold harmonic_friction, harmonic_mean. cbn.
  rewrite (Rsign_pos (1 + 1)) by lra. f_equal; f_equal; lra.
Qed.





Lemma box_contact_results (model : ContactModel) (w : R) :
  w < 1 ->
  exists f slip,
    AppendContactResultsContinuousPointPair (box_plant model)
      (example_collaborators (box_plant model)) (box_context (vertical w))
      (mkContactResults true [] []) =
    Ok (mkContactResults true
          [mkPointPairContactInfo 1%nat 0%nat f
             (contact_point_C box_on_ground_pair) (Fin (- w)) slip
             box_on_ground_pair] []).
Proof.
  intros Hw.
  unfold AppendContactResultsContinuousPointPair.
  cbn [plant_is_this DRAKE_DEMAND bind example_collaborators
       EvalPointPairPenetrations].
  unfold CalcPointPairPenetrations, EvalGeometryQueryInput.
  cbn [box_plant num_collision_geometries Nat.ltb Nat.leb box_context
       geometry_query_input_port bind box_query_object
       ComputePointPairPenetration inspector
       AppendContactResultsContinuousPointPair_loop].
  rewrite (point_pair_step (box_plant model)
             (example_collaborators (box_plant model))
             (box_context (vertical w)) box_inspector
             (mkContactResults true [] []) box_on_ground_pair
             1%nat 0%nat (Fin 2) (Fin 1) (Fin 2) (Fin 1)
             (mkCoulombFriction (Fin 1) (Fin 1))
             (mkCoulombFriction (Fin 1) (Fin 1))
             eq_refl eq_refl eq_refl eq_refl eq_refl eq_refl).
  cbv zeta.
  pose proof (box_normal_velocity model w) as Evn.
  cbn [example_collaborators CombinePointContactParameters] in *.
  rewrite box_series_parameters. cbn [fst snd].
  rewrite Evn.
  change (depth box_on_ground_pair) with (Fin (1 / 100)).
  rewrite normal_force_magnitude_Fin. unfold dgt. cbn [dlt].
  rewrite Rltb_true by (apply Rmult_lt_0_compat; lra).
  cbn [bind]. eexists. eexists. reflexivity.
Qed.

Lemma box_spatial_contact_forces :
  exists F1,
    CalcSpatialContactForcesContinuous (box_plant kPoint)
      (example_collaborators (box_plant kPoint)) (box_context falling)
      [SpatialForce_Zero; SpatialForce_Zero] =
    Ok [SpatialForce_Zero; F1].
Proof.
  destruct (box_contact_results kPoint (- 1) ltac:(lra)) as (f & slip & Hres).
  unfold CalcSpatialContactForcesContinuous,
    CalcAndAddSpatialContactForcesContinuous,
    CalcAndAddContactForcesByPenaltyMethod, EvalContactResults,
    CalcContactResultsContinuous.
  cbn [box_plant num_bodies num_collision_geometries is_discrete contact_model_
       List.length map Nat.eqb negb DRAKE_DEMAND bind].
  unfold falling.
  rewrite Hres.
  cbn [bind point_pair_contact_info CalcAndAddContactForcesByPenaltyMethod_loop].
  unfold CalcAndAddContactForcesByPenaltyMethod_pair.
  cbn [point_pair box_on_ground_pair id_A id_B FindBodyByGeometryId
       geometry_id_to_body_index_ bind node_index world_index Nat.eqb negb
       at_add nth_error list_update].
  eexists. reflexivity.
Qed.

(** C9.  Every body other than the world has a node of its own.  Then the
    penalty pass leaves the world's entry of the accumulator as it found
    it, the hydroelastic pass leaves it at the zero it was reset to, and
    after the continuous contact pass, under each of the three contact
    models, the world's entry is exactly zero. *)
Theorem C9_world_body_receives_no_contact_force
    (plant : MultibodyPlant) (ext : Collaborators) (context : Context)
    (Hnode : forall b, b <> world_index ->
               node_index plant b <> node_index plant world_index) :
  let world_node := node_index plant world_index in
  (forall F F',
      CalcAndAddContactForcesByPenaltyMethod plant ext context F = Ok F' ->
      nth_error F' world_node = nth_error F world_node)
  /\ (forall out out',
      CalcHydroelasticContactForces plant ext context out = Ok out' ->
      nth_error (F_BBo_W_array out') world_node =
      nth_error (repeat SpatialForce_Zero (num_bodies plant)) world_node)
  /\ (forall F F',
      (world_node < num_bodies plant)%nat ->
      CalcSpatialContactForcesContinuous plant ext context F = Ok F' ->
      nth_error F' world_node = Some SpatialForce_Zero).
Proof.
  intros world_node. refine (conj _ (conj _ _)).
  - intros F F' H.
    apply (penalty_method_keeps_world plant ext context F F' Hnode H).
  - intros out out' H.
    apply (hydro_forces_world_zero plant ext context out out' Hnode H).
  - intros F F' Hw H. unfold CalcSpatialContactForcesContinuous in H.
    bind_inv H. bind_inv H.
    assert (HF : List.length F = num_bodies plant).
    { unfold DRAKE_DEMAND in Hx.
      destruct (Nat.eqb (List.length F) (num_bodies plant)) eqn:E;
        [apply Nat.eqb_eq; exact E | discriminate]. }
    assert (Hzero : nth_error (map (fun _ => SpatialForce_Zero) F) world_node =
                    Some SpatialForce_Zero).
    { apply nth_error_map_zero. rewrite HF. exact Hw. }
    unfold CalcAndAddSpatialContactForcesContinuous in H.
    bind_inv H. bind_inv H.
    destruct (Nat.eqb (num_collision_geometries plant) 0).
    { injection H as <-. exact Hzero. }
    destruct (contact_model_ plant).
    + destruct (penalty_method_keeps_world _ _ _ _ _ Hnode H) as [E _].
      unfold world_node. rewrite E. exact Hzero.
    + bind_inv H. injection H as <-.
      unfold EvalHydroelasticContactForces in Hx3.
      destruct (hydro_forces_world_zero _ _ _ _ _ Hnode Hx3) as [E _].
      unfold world_node. rewrite E. apply nth_error_repeat_zero. exact Hw.
    + bind_inv H. bind_inv H. bind_inv H. injection H as <-.
      destruct (penalty_method_keeps_world _ _ _ _ _ Hnode Hx3) as [E1 _].
      unfold EvalHydroelasticContactForces in Hx4.
      destruct (hydro_forces_world_zero _ _ _ _ _ Hnode Hx4) as [E2 _].
      rewrite <- SpatialForce_add_Zero_Zero.
      apply nth_error_add_arrays.
      * unfold world_node in *. rewrite E1. exact Hzero.
      * unfold world_node in *. rewrite E2.
        apply nth_error_repeat_zero. exact Hw.
Qed.

Lemma C9_world_body_receives_no_contact_force_witness :
  exists F1,
    CalcSpatialContactForcesContinuous (box_plant kPoint)
      (example_collaborators (box_plant kPoint)) (box_context falling)
      [SpatialForce_Zero; SpatialForce_Zero] = Ok [SpatialForce_Zero; F1]
    /\ nth_error [SpatialForce_Zero; F1] 0 = Some SpatialForce_Zero.
Proof.
  destruct box_spatial_contact_forces as [F1 HF].
  exists F1. split; [exact HF|].
  assert (Hnode : forall b : BodyIndex, b <> world_index ->
            node_index (box_plant kPoint) b <>
            node_index (box_plant kPoint) world_index).
  { intros b Hb. exact Hb. }
  destruct (C9_world_body_receives_no_contact_force (box_plant kPoint)
              (example_collaborators (box_plant kPoint)) (box_context falling)
              Hnode) as (_ & _ & Hpass).
  apply (Hpass [SpatialForce_Zero; SpatialForce_Zero] [SpatialForce_Zero; F1]).
  - unfold world_index. cbn. lia.
  - exact HF.
Defined.

(** ** The friction of a hydroelastic surface *)

(** The loop body never reads the properties of geometry N: two inspectors
    that agree on geometry M, and under which the engine combines the same
    dissipation, give the same contribution. *)
Lemma hydro_surface_never_reads_N
    (plant : MultibodyPlant) (ext : Collaborators) (context : Context)
    (insp insp' : SceneGraphInspector)
    (acc : HydroelasticContactInfoAndBodySpatialForces)
    (surface : ContactSurface) :
  insp (id_M surface) = insp' (id_M surface) ->
  CalcCombinedDissipation ext (id_M surface) (id_N surface) insp =
  CalcCombinedDissipation ext (id_M surface) (id_N surface) insp' ->
  CalcHydroelasticContactForces_surface plant ext context insp acc surface =
  CalcHydroelasticContactForces_surface plant ext context insp' acc surface.
Proof.
  intros HM Hd. unfold CalcHydroelasticContactForces_surface. cbv zeta.
  rewrite HM, Hd. reflexivity.
Qed.

Lemma harmonic_rough_frictionless :
  harmonic_friction rough frictionless = frictionless.
Proof.
  unfold harmonic_friction, harmonic_mean, rough, frictionless. cbn.
  rewrite (Rsign_pos (1 + 0)) by lra. f_equal; f_equal; field.
Qed.

(** C6.  A rough box (geometry M, friction 1) on a ground (geometry N) that
    is frictionless, or has no friction property at all.  Combining the
    friction of both geometries gives the dynamic friction 0, or fails for
    want of N's property; the hydroelastic pass instead integrates every
    such surface with the dynamic friction 1 of M combined with itself, and
    succeeds whatever N's friction property is. *)
Theorem C6_hydroelastic_friction_ignores_N :
  let plant := box_plant kHydroelastic in
  let ext := example_collaborators plant in
  combined_dynamic_friction_of_both ext (rough_box_on (Some frictionless))
    box_surface = Ok (Fin 0)
  /\ combined_dynamic_friction_of_both ext (rough_box_on None) box_surface =
     Err (ThrowUnlessFailed "prop->HasProperty(material, coulomb_friction)")
  /\ forall ground : option CoulombFriction,
     exists F1,
       CalcHydroelasticContactForces plant ext
         (resting_context (rough_box_on ground))
         {| F_BBo_W_array := [SpatialForce_Zero; SpatialForce_Zero];
            contact_info := [] |} =
       Ok {| F_BBo_W_array := [SpatialForce_Zero; F1];
             contact_info :=
               [mkHydroelasticContactInfo box_surface
                  (mkSpatialForce v3_zero
                     (mkVector3 (Fin 0) (Fin 0) (Fin 1)))] |}.
Proof.
  cbv zeta. refine (conj _ (conj _ _)).
  - unfold combined_dynamic_friction_of_both.
    cbn [box_surface id_M id_N GetCoulombFriction rough_box_on properties_with
         coulomb_friction bind example_collaborators
         CalcContactFrictionFromSurfaceProperties].
    rewrite harmonic_rough_frictionless. reflexivity.
  - reflexivity.
  - intros ground.
    unfold CalcHydroelasticContactForces.
    cbn [F_BBo_W_array List.length box_plant num_bodies Nat.eqb DRAKE_DEMAND
         bind num_collision_geometries repeat example_collaborators
         EvalContactSurfaces].
    unfold CalcContactSurfaces, EvalGeometryQueryInput.
    cbn [resting_context geometry_query_input_port bind ComputeContactSurfaces
         inspector CalcHydroelasticContactForces_loop].
    unfold CalcHydroelasticContactForces_surface.
    cbn [box_surface id_M id_N rough_box_on properties_with coulomb_friction
         bind example_collaborators CalcContactFrictionFromSurfaceProperties].
    change (harmonic_friction rough rough) with
      (harmonic_friction (mkCoulombFriction (Fin 1) (Fin 1))
         (mkCoulombFriction (Fin 1) (Fin 1))).
    rewrite box_harmonic_friction.
    cbn [dynamic_friction FindBodyByGeometryId geometry_id_to_body_index_ bind
         node_index box_plant ComputeSpatialForcesAtCentroidFromHydroelasticModel
         ShiftSpatialForcesAtCentroidToBodyOrigins world_index Nat.eqb negb
         F_BBo_W_array contact_info at_add nth_error list_update app].
    eexists. reflexivity.
Qed.

(** ** Assembling the actuation input *)

Lemma check_no_instance_port_first
    (plant : ActuationPlant) (context : ActuationContext)
    (before : list ModelInstanceIndex) (i : ModelInstanceIndex)
    (after : list ModelInstanceIndex) :
  (forall j, In j before ->
     HasValue (instance_actuation_ports_ context j) = false) ->
  HasValue (instance_actuation_ports_ context i) = true ->
  check_no_instance_port plant context (before ++ i :: after) =
  Err (LogicError (both_connected_message (GetModelInstanceName plant i))).
Proof.
  intros Hbefore Hi. induction before as [| j before IH]; cbn.
  - rewrite Hi. reflexivity.
  - rewrite (Hbefore j (or_introl eq_refl)). apply IH.
    intros j' Hj'. apply Hbefore. right. exact Hj'.
Qed.

Lemma check_no_instance_port_fails
    (plant : ActuationPlant) (context : ActuationContext)
    (instances : list ModelInstanceIndex) :
  (exists i, In i instances /\
             HasValue (instance_actuation_ports_ context i) = true) ->
  exists j, In j instances
    /\ HasValue (instance_actuation_ports_ context j) = true
    /\ check_no_instance_port plant context instances =
       Err (LogicError (both_connected_message (GetModelInstanceName plant j))).
Proof.
  induction instances as [| k rest IH]; intros (i & Hin & Hi).
  - destruct Hin.
  - cbn. destruct (HasValue (instance_actuation_ports_ context k)) eqn:Hk.
    + exists k. repeat split; [left; reflexivity | exact Hk].
    + destruct Hin as [-> | Hin]; [congruence|].
      destruct (IH (ex_intro _ i (conj Hin Hi))) as (j & Hj & Hv & Hres).
      exists j. repeat split; [right; exact Hj | exact Hv | exact Hres].
Qed.

Lemma seq_split_at (a len i : nat) :
  (a <= i < a + len)%nat ->
  seq a len = seq a (i - a) ++ i :: seq (S i) (a + len - S i).
Proof.
  intros H.
  replace len with ((i - a) + S (a + len - S i))%nat at 1 by lia.
  rewrite seq_app. cbn [seq]. repeat f_equal; lia.
Qed.

Lemma non_world_instances_split (plant : ActuationPlant) (i : ModelInstanceIndex) :
  (1 <= i < num_model_instances plant)%nat ->
  non_world_instances plant =
  seq 1 (i - 1) ++ i :: seq (S i) (num_model_instances plant - S i).
Proof.
  intros H. unfold non_world_instances.
  rewrite (seq_split_at 1 (num_model_instances plant - 1) i) by lia.
  repeat f_equal. lia.
Qed.

Lemma In_non_world_instances (plant : ActuationPlant) (i : ModelInstanceIndex) :
  In i (non_world_instances plant) <-> (1 <= i < num_model_instances plant)%nat.
Proof. unfold non_world_instances. rewrite in_seq. lia. Qed.

Lemma passes_b_false (plant : ActuationPlant) (context : ActuationContext)
    (j : ModelInstanceIndex) :
  passes_b plant context j = false <->
  num_actuated_dofs plant j <> 0%nat
  /\ (instance_actuation_ports_ context j = None
      \/ exists u, instance_actuation_ports_ context j = Some u
                   /\ hasNaN u = true).
Proof.
  unfold passes_b. split.
  - intros H. apply orb_false_elim in H. destruct H as [Hd Hp].
    split; [apply Nat.eqb_neq; exact Hd|].
    destruct (instance_actuation_ports_ context j) as [u |].
    + right. exists u. split; [reflexivity|].
      apply negb_false_iff. exact Hp.
    + left. reflexivity.
  - intros (Hd & [Hp | (u & Hp & Hn)]); apply Nat.eqb_neq in Hd;
      rewrite Hd, Hp; [reflexivity|]. rewrite Hn. reflexivity.
Qed.

Lemma check_no_instance_port_passes
    (plant : ActuationPlant) (context : ActuationContext)
    (instances : list ModelInstanceIndex) :
  (forall j, In j instances ->
     HasValue (instance_actuation_ports_ context j) = false) ->
  check_no_instance_port plant context instances = Ok tt.
Proof.
  induction instances as [| j rest IH]; intros H; cbn.
  - reflexivity.
  - rewrite (H j (or_introl eq_refl)). apply IH.
    intros k Hk. apply H. right. exact Hk.
Qed.

Lemma assemble_instances_passes
    (plant : ActuationPlant) (context : ActuationContext)
    (instances : list ModelInstanceIndex) :
  forall acc,
    (forall j, In j instances -> passes_b plant context j = true) ->
    assemble_instances plant context instances acc =
    Ok (acc ++ instance_segments plant context instances).
Proof.
  induction instances as [| j rest IH]; intros acc H.
  - cbn. rewrite app_nil_r. reflexivity.
  - unfold instance_segments. cbn [assemble_instances flat_map].
    fold (instance_segments plant context rest).
    pose proof (H j (or_introl eq_refl)) as Hj. unfold passes_b in Hj.
    assert (Hrest : forall k, In k rest -> passes_b plant context k = true)
      by (intros k Hk; apply H; right; exact Hk).
    destruct (Nat.eqb (num_actuated_dofs plant j) 0).
    + apply IH. exact Hrest.
    + cbn in Hj.
      destruct (instance_actuation_ports_ context j) as [u |]; [|discriminate].
      apply negb_true_iff in Hj. rewrite Hj.
      rewrite (IH _ Hrest), <- app_assoc. reflexivity.
Qed.

Lemma assemble_instances_first_error
    (plant : ActuationPlant) (context : ActuationContext)
    (before : list ModelInstanceIndex) (i : ModelInstanceIndex)
    (after : list ModelInstanceIndex) :
  forall acc,
    (forall j, In j before -> passes_b plant context j = true) ->
    passes_b plant context i = false ->
    assemble_instances plant context (before ++ i :: after) acc =
    Err (instance_error plant context i).
Proof.
  induction before as [| j before IH]; intros acc Hbefore Hi.
  - cbn [app assemble_instances]. unfold passes_b in Hi. unfold instance_error.
    apply orb_false_elim in Hi. destruct Hi as [Hd Hp]. rewrite Hd.
    destruct (instance_actuation_ports_ context i) as [u |]; [|reflexivity].
    apply negb_false_iff in Hp. rewrite Hp. reflexivity.
  - cbn [app assemble_instances].
    pose proof (Hbefore j (or_introl eq_refl)) as Hj. unfold passes_b in Hj.
    assert (Hrest : forall k, In k before -> passes_b plant context k = true)
      by (intros k Hk; apply Hbefore; right; exact Hk).
    destruct (Nat.eqb (num_actuated_dofs plant j) 0).
    + apply IH; assumption.
    + cbn in Hj.
      destruct (instance_actuation_ports_ context j) as [u |]; [|discriminate].
      apply negb_true_iff in Hj. rewrite Hj. apply IH; assumption.
Qed.

(** The messages tell the names of the instances apart. *)
Lemma append_inj_l (p a b : string) :
  (p ++ a = p ++ b)%string -> a = b.
Proof.
  induction p as [| c p IH]; cbn; intros H; [exact H|].
  injection H as H. apply IH. exact H.
Qed.

Lemma length_append (a s : string) :
  String.length (a ++ s) = (String.length a + String.length s)%nat.
Proof. induction a as [| c a IH]; cbn; [reflexivity | rewrite IH; reflexivity]. Qed.

Lemma append_inj_r (s a b : string) :
  (a ++ s = b ++ s)%string -> a = b.
Proof.
  intros H.
  assert (Hlen : String.length a = String.length b).
  { apply (f_equal String.length) in H. rewrite !length_append in H. lia. }
  revert b H Hlen. induction a as [| c a IH]; intros [| d b] H Hlen;
    cbn in Hlen; try discriminate; [reflexivity|].
  cbn in H. injection H as -> H. f_equal. apply IH; [exact H | lia].
Qed.

Lemma must_be_connected_message_inj (a b : string) :
  must_be_connected_message a = must_be_connected_message b -> a = b.
Proof.
  unfold must_be_connected_message. intros H.
  apply append_inj_l, append_inj_l, append_inj_r in H. exact H.
Qed.

Lemma contains_NaN_message_inj (a b : string) :
  contains_NaN_message a = contains_NaN_message b -> a = b.
Proof.
  unfold contains_NaN_message. intros H.
  apply append_inj_l, append_inj_l, append_inj_r in H. exact H.
Qed.

Lemma both_connected_message_inj (a b : string) :
  both_connected_message a = both_connected_message b -> a = b.
Proof.
  unfold both_connected_message. intros H.
  apply append_inj_l, append_inj_r in H. exact H.
Qed.

Lemma instance_error_inj (plant : ActuationPlant) (context : ActuationContext)
    (i j : ModelInstanceIndex) :
  instance_error plant context i = instance_error plant context j ->
  GetModelInstanceName plant i = GetModelInstanceName plant j.
Proof.
  unfold instance_error.
  destruct (instance_actuation_ports_ context i),
           (instance_actuation_ports_ context j); intros H;
    try discriminate.
  - apply contains_NaN_message_inj. congruence.
  - apply must_be_connected_message_inj. congruence.
Qed.

(** The least index of a range at which a test holds. *)
Lemma first_in_range (P : nat -> bool) (a : nat) :
  forall i, (a <= i)%nat -> P i = true ->
  exists j, (a <= j <= i)%nat /\ P j = true
            /\ forall k, (a <= k < j)%nat -> P k = false.
Proof.
  intros i. induction i as [i IH] using (well_founded_induction lt_wf).
  intros Hi HP.
  destruct (existsb P (seq a (i - a))) eqn:E.
  - apply existsb_exists in E. destruct E as (m & Hm & HPm).
    apply in_seq in Hm.
    destruct (IH m ltac:(lia) ltac:(lia) HPm) as (j & Hj & HPj & Hleast).
    exists j. split; [lia|]. split; assumption.
  - exists i. split; [lia|]. split; [exact HP|].
    intros k Hk.
    destruct (P k) eqn:HPk; [|reflexivity].
    assert (Hex : existsb P (seq a (i - a)) = true).
    { apply existsb_exists. exists k. split; [|exact HPk].
      apply in_seq. lia. }
    congruence.
Qed.

(** C7 (amended).  Assembly runs over the model instances other than the
    world, in index order, and stops at the first failure.
    - When the port for all instances has a value: if the port of some
      instance other than the world has a value too, assembly fails with the
      error that names the first such instance; if none has, the result is
      the value of the port for all instances, or the error about a NaN in
      it.
    - When the port for all instances has no value: an instance is passed
      when it has no actuated degree of freedom or its port holds a value
      free of NaN.  If some instance is not passed, assembly fails at the
      first such instance, with the error that names it: "must be
      connected" when its port has no value, "contains NaN" when it holds a
      NaN.  If every instance is passed, the result is the values of the
      ports laid end to end.
    - When the names of the instances are distinct, the converses hold: the
      error names a given instance whose port has a value beside the port
      for all instances exactly when no earlier instance has one, and it is
      the error of a given instance that is not passed exactly when every
      earlier instance is passed. *)
Theorem C7_actuation_assembly_errors
    (plant : ActuationPlant) (context : ActuationContext) :
  let in_range i := (1 <= i < num_model_instances plant)%nat in
  let has_value i := HasValue (instance_actuation_ports_ context i) in
  let assembled := AssembleActuationInput plant context in
  let names_distinct :=
    forall i j, in_range i -> in_range j ->
      GetModelInstanceName plant i = GetModelInstanceName plant j -> i = j in
  (forall all_instances,
     actuation_port_ context = Some all_instances ->
     (forall i, in_range i -> has_value i = true ->
        (forall j, (1 <= j < i)%nat -> has_value j = false) ->
        assembled =
        Err (LogicError (both_connected_message (GetModelInstanceName plant i))))
     /\ (forall i, in_range i -> has_value i = true ->
           exists j, (1 <= j <= i)%nat /\ has_value j = true
             /\ (forall k, (1 <= k < j)%nat -> has_value k = false)
             /\ assembled =
                Err (LogicError
                       (both_connected_message (GetModelInstanceName plant j))))
     /\ ((forall i, in_range i -> has_value i = false) ->
         assembled =
         if hasNaN all_instances
         then Err (RuntimeError
                     "Detected NaN in the actuation input port for all instances.")
         else Ok all_instances)
     /\ (names_distinct ->
         forall i, in_range i ->
           (assembled =
            Err (LogicError
                   (both_connected_message (GetModelInstanceName plant i)))
            <-> has_value i = true
                /\ forall j, (1 <= j < i)%nat -> has_value j = false)))
  /\ (actuation_port_ context = None ->
      (forall i, in_range i -> passes_b plant context i = false ->
         (forall j, (1 <= j < i)%nat -> passes_b plant context j = true) ->
         assembled = Err (instance_error plant context i))
      /\ (forall i, in_range i -> passes_b plant context i = false ->
            exists j, (1 <= j <= i)%nat /\ passes_b plant context j = false
              /\ (forall k, (1 <= k < j)%nat -> passes_b plant context k = true)
              /\ assembled = Err (instance_error plant context j))
      /\ ((forall i, in_range i -> passes_b plant context i = true) ->
          assembled =
          Ok (instance_segments plant context
                (seq 1 (num_model_instances plant - 1))))
      /\ (names_distinct ->
          forall i, in_range i -> passes_b plant context i = false ->
            (assembled = Err (instance_error plant context i)
             <-> forall j, (1 <= j < i)%nat ->
                   passes_b plant context j = true)))
  /\ (forall i,
        (passes_b plant context i = false <->
         num_actuated_dofs plant i <> 0%nat
         /\ (instance_actuation_ports_ context i = None
             \/ exists u, instance_actuation_ports_ context i = Some u
                          /\ hasNaN u = true))
        /\ (instance_actuation_ports_ context i = None ->
            instance_error plant context i =
            LogicError
              (must_be_connected_message (GetModelInstanceName plant i)))
        /\ (forall u, instance_actuation_ports_ context i = Some u ->
            instance_error plant context i =
            RuntimeError
              (contains_NaN_message (GetModelInstanceName plant i)))).
Proof.
  intros in_range has_value assembled names_distinct.
  assert (Hfirst_value : forall all_instances i,
    actuation_port_ context = Some all_instances ->
    in_range i -> has_value i = true ->
    (forall j, (1 <= j < i)%nat -> has_value j = false) ->
    assembled =
    Err (LogicError (both_connected_message (GetModelInstanceName plant i)))).
  { intros all_instances i Hall Hi Hv Hbefore.
    unfold assembled, AssembleActuationInput. rewrite Hall.
    rewrite (non_world_instances_split plant i Hi).
    rewrite check_no_instance_port_first; [reflexivity | | exact Hv].
    intros j Hj. apply in_seq in Hj. apply Hbefore. lia. }
  assert (Hleast_value : forall all_instances i,
    actuation_port_ context = Some all_instances ->
    in_range i -> has_value i = true ->
    exists j, (1 <= j <= i)%nat /\ has_value j = true
      /\ (forall k, (1 <= k < j)%nat -> has_value k = false)
      /\ assembled =
         Err (LogicError
                (both_connected_message (GetModelInstanceName plant j)))).
  { intros all_instances i Hall Hi Hv.
    destruct (first_in_range has_value 1 i ltac:(unfold in_range in Hi; lia) Hv)
      as (j & Hj & Hvj & Hleast).
    exists j. refine (conj Hj (conj Hvj (conj Hleast _))).
    apply (Hfirst_value all_instances j Hall); [|exact Hvj | exact Hleast].
    unfold in_range in *. lia. }
  assert (Hno_value : forall all_instances,
    actuation_port_ context = Some all_instances ->
    (forall i, in_range i -> has_value i = false) ->
    assembled =
    if hasNaN all_instances
    then Err (RuntimeError
                "Detected NaN in the actuation input port for all instances.")
    else Ok all_instances).
  { intros all_instances Hall Hnone.
    unfold assembled, AssembleActuationInput. rewrite Hall.
    rewrite check_no_instance_port_passes; [reflexivity|].
    intros j Hj. apply In_non_world_instances in Hj. apply Hnone. exact Hj. }
  assert (Hfirst_error : forall i,
    actuation_port_ context = None ->
    in_range i -> passes_b plant context i = false ->
    (forall j, (1 <= j < i)%nat -> passes_b plant context j = true) ->
    assembled = Err (instance_error plant context i)).
  { intros i Hnone Hi Hp Hbefore.
    unfold assembled, AssembleActuationInput. rewrite Hnone.
    rewrite (non_world_instances_split plant i Hi).
    apply assemble_instances_first_error; [|exact Hp].
    intros j Hj. apply in_seq in Hj. apply Hbefore. lia. }
  assert (Hleast_error : forall i,
    actuation_port_ context = None ->
    in_range i -> passes_b plant context i = false ->
    exists j, (1 <= j <= i)%nat /\ passes_b plant context j = false
      /\ (forall k, (1 <= k < j)%nat -> passes_b plant context k = true)
      /\ assembled = Err (instance_error plant context j)).
  { intros i Hnone Hi Hp.
    destruct (first_in_range (fun j => negb (passes_b plant context j)) 1 i
                ltac:(unfold in_range in Hi; lia)
                ltac:(cbn beta; rewrite Hp; reflexivity))
      as (j & Hj & Hpj & Hleast).
    apply negb_true_iff in Hpj.
    assert (Hleast' : forall k, (1 <= k < j)%nat ->
              passes_b plant context k = true).
    { intros k Hk. apply negb_false_iff. apply Hleast. exact Hk. }
    exists j. refine (conj Hj (conj Hpj (conj Hleast' _))).
    apply (Hfirst_error j Hnone); [|exact Hpj | exact Hleast'].
    unfold in_range in *. lia. }
  refine (conj _ (conj _ _)).
  - intros all_instances Hall. refine (conj _ (conj _ (conj _ _))).
    + intros i. apply (Hfirst_value all_instances i Hall).
    + intros i. apply (Hleast_value all_instances i Hall).
    + apply (Hno_value all_instances Hall).
    + intros Hnames i Hi. split.
      * intros Hres.
        destruct (existsb has_value (non_world_instances plant)) eqn:Hany.
        -- apply existsb_exists in Hany. destruct Hany as (k & Hk & Hvk).
           apply In_non_world_instances in Hk.
           destruct (Hleast_value all_instances k Hall Hk Hvk)
             as (j & Hj & Hvj & Hleast & Hresj).
           assert (Hji : j = i).
           { apply Hnames; [unfold in_range in *; lia | exact Hi |].
             apply both_connected_message_inj. congruence. }
           subst j. split; assumption.
        -- exfalso.
           rewrite (Hno_value all_instances Hall) in Hres.
           ++ destruct (hasNaN all_instances); discriminate.
           ++ intros k Hk.
              destruct (has_value k) eqn:Hvk; [|reflexivity].
              assert (Hex : existsb has_value (non_world_instances plant) = true).
              { apply existsb_exists. exists k. split; [|exact Hvk].
                apply In_non_world_instances. exact Hk. }
              congruence.
      * intros [Hv Hbefore].
        apply (Hfirst_value all_instances i Hall Hi Hv Hbefore).
  - intros Hnone. refine (conj _ (conj _ (conj _ _))).
    + intros i. apply (Hfirst_error i Hnone).
    + intros i. apply (Hleast_error i Hnone).
    + intros Hall. unfold assembled, AssembleActuationInput. rewrite Hnone.
      rewrite assemble_instances_passes; [reflexivity|].
      intros j Hj. apply In_non_world_instances in Hj. apply Hall. exact Hj.
    + intros Hnames i Hi Hp. split.
      * intros Hres.
        destruct (Hleast_error i Hnone Hi Hp) as (j & Hj & Hpj & Hleast & Hresj).
        assert (Hji : j = i).
        { apply Hnames; [unfold in_range in *; lia | exact Hi |].
          apply (instance_error_inj plant context). congruence. }
        subst j. exact Hleast.
      * intros Hbefore. apply (Hfirst_error i Hnone Hi Hp Hbefore).
  - intros i. refine (conj (passes_b_false plant context i) (conj _ _)).
    + intros Hp. unfold instance_error. rewrite Hp. reflexivity.
    + intros u Hp. unfold instance_error. rewrite Hp. reflexivity.
Qed.

(** Two arms without a value on their ports, the port for all instances
    without a value either: the error names the left arm and not the right
    one.  A NaN on the left arm's port comes before the missing value of
    the right arm.  And a value on the world instance's port beside the
    port for all instances is no conflict. *)
Lemma C7_every_instance_named_counterexample :
  ~ (forall i,
       actuation_port_ nothing_connected = None ->
       num_actuated_dofs two_arms i <> 0%nat ->
       instance_actuation_ports_ nothing_connected i = None ->
       exists e, AssembleActuationInput two_arms nothing_connected = Err e
                 /\ error_names e (GetModelInstanceName two_arms i) = true)
  /\ AssembleActuationInput two_arms nothing_connected =
     Err (LogicError (must_be_connected_message "left"))
  /\ AssembleActuationInput two_arms left_NaN_right_missing =
     Err (RuntimeError (contains_NaN_message "left"))
  /\ (HasValue (actuation_port_ all_and_world_connected) = true
      /\ HasValue (instance_actuation_ports_ all_and_world_connected 0%nat) = true
      /\ AssembleActuationInput two_arms all_and_world_connected =
         Ok [Fin 1; Fin 2]).
Proof.
  refine (conj _ (conj eq_refl (conj eq_refl (conj eq_refl (conj eq_refl eq_refl))))).
  intros H.
  destruct (H 3%nat eq_refl ltac:(discriminate) eq_refl) as (e & He & Hname).
  vm_compute in He. injection He as <-.
  vm_compute in Hname. discriminate.
Qed.

Lemma C7_actuation_assembly_errors_witness :
  AssembleActuationInput two_arms left_NaN_right_missing =
    Err (RuntimeError
           (contains_NaN_message (GetModelInstanceName two_arms 2%nat)))
  /\ AssembleActuationInput two_arms nothing_connected =
    Err (LogicError
           (must_be_connected_message (GetModelInstanceName two_arms 2%nat)))
  /\ AssembleActuationInput two_arms nothing_connected <>
    Err (instance_error two_arms nothing_connected 3%nat).
Proof.
  refine (conj _ (conj _ _)).
  - destruct (C7_actuation_assembly_errors two_arms left_NaN_right_missing)
      as (_ & Hnone & _).
    destruct (Hnone eq_refl) as (Hfirst & _).
    apply (Hfirst 2%nat).
    + cbn. lia.
    + reflexivity.
    + intros j Hj. assert (j = 1%nat) as -> by lia. reflexivity.
  - destruct (C7_actuation_assembly_errors two_arms nothing_connected)
      as (_ & Hnone & _).
    destruct (Hnone eq_refl) as (Hfirst & _).
    apply (Hfirst 2%nat).
    + cbn. lia.
    + reflexivity.
    + intros j Hj. assert (j = 1%nat) as -> by lia. reflexivity.
  - destruct (C7_actuation_assembly_errors two_arms nothing_connected)
      as (_ & Hnone & _).
    destruct (Hnone eq_refl) as (_ & _ & _ & Hconverse).
    intros Hres.
    assert (Hnames : forall i j,
              (1 <= i < num_model_instances two_arms)%nat ->
              (1 <= j < num_model_instances two_arms)%nat ->
              GetModelInstanceName two_arms i = GetModelInstanceName two_arms j ->
              i = j).
    { intros i j Hi Hj. cbn in Hi, Hj.
      assert (Ei : (i = 1 \/ i = 2 \/ i = 3)%nat) by lia.
      assert (Ej : (j = 1 \/ j = 2 \/ j = 3)%nat) by lia.
      destruct Ei as [-> | [-> | ->]], Ej as [-> | [-> | ->]];
        cbn; intros E; try reflexivity; discriminate. }
    assert (Hleft : passes_b two_arms nothing_connected 2%nat = true).
    { apply (proj1 (Hconverse Hnames 3%nat ltac:(cbn; lia) eq_refl) Hres).
      lia. }
    discriminate.
Defined.

(** ** The algebraic-loop guard *)

(** Every exit path leaves the marker as an evaluation from outside must
    find it: an evaluation entered with the marker down leaves it down,
    whether it returns, fails or runs out of fuel. *)
Lemma marker_reset_on_every_exit
    (fuel : nat) (plant : ForcePlant) (wiring : InputWiring) (discrete : bool)
    (forces : MultibodyForces) (s : GuardState) :
  evaluation_in_progress s = false ->
  evaluation_in_progress
    (snd (CalcNonContactForces fuel plant wiring discrete forces s)) = false.
Proof.
  intros Hs. destruct fuel as [| fuel]; cbn [CalcNonContactForces].
  - exact Hs.
  - destruct (negb (Nat.eqb (List.length forces) (num_velocities plant)));
      [exact Hs|].
    unfold ThrowIfNonContactForceInProgress. rewrite Hs.
    destruct wiring as [| applied | controller].
    + reflexivity.
    + reflexivity.
    + destruct (CalcNonContactForces fuel plant (Feedback controller) discrete
                  forces _) as [[[inner | e] |] s2]; reflexivity.
Qed.

(** An entry that finds the marker up raises at once and leaves it up: it
    belongs to the evaluation in progress. *)
Lemma entry_in_progress_raises
    (fuel : nat) (plant : ForcePlant) (wiring : InputWiring) (discrete : bool)
    (forces : MultibodyForces) (s : GuardState) :
  List.length forces = num_velocities plant ->
  evaluation_in_progress s = true ->
  CalcNonContactForces (S fuel) plant wiring discrete forces s =
  (Some (Err (RuntimeError algebraic_loop_message)),
   mkGuardState true (guard_log s ++ [Raised])).
Proof.
  intros Hsize Hs. cbn [CalcNonContactForces].
  rewrite (length_eqb _ _ Hsize). cbn [negb].
  unfold ThrowIfNonContactForceInProgress. rewrite Hs. reflexivity.
Qed.

Lemma reentrant_evaluation
    (n : nat) (plant : ForcePlant) (controller : MultibodyForces -> list double)
    (discrete : bool) (forces : MultibodyForces) :
  List.length forces = num_velocities plant ->
  CalcNonContactForces (S (S n)) plant (Feedback controller) discrete forces
    fresh_guard =
  (Some (Err (RuntimeError algebraic_loop_message)),
   mkGuardState false [Passed; Raised]).
Proof.
  intros Hsize.
  change (CalcNonContactForces (S (S n)) plant (Feedback controller) discrete
            forces fresh_guard)
    with (if negb (Nat.eqb (List.length forces) (num_velocities plant)) then
            (Some (Err (DemandFailed "forces->CheckHasRightSizeForModel(*this)")),
             fresh_guard)
          else
            let '(from_ports, s2) :=
              match CalcNonContactForces (S n) plant (Feedback controller)
                      discrete forces (mkGuardState true [Passed]) with
              | (Some (Ok inner), s2) =>
                  (Some (add_applied_generalized_force (force_elements plant)
                           (controller inner)), s2)
              | (Some (Err e), s2) => (Some (Err e), s2)
              | (None, s2) => (None, s2)
              end in
            (match from_ports with
             | Some (Ok forces2) =>
                 if discrete then Some (joint_limit_forces plant forces2)
                 else Some (Ok forces2)
             | other => other
             end,
             mkGuardState false (guard_log s2))).
  rewrite (length_eqb _ _ Hsize). cbn [negb].
  rewrite (entry_in_progress_raises n plant _ discrete forces
             (mkGuardState true [Passed]) Hsize eq_refl).
  reflexivity.
Qed.

Lemma later_evaluation_succeeds
    (m : nat) (plant : ForcePlant) (forces : MultibodyForces) (s : GuardState)
    (applied : list double) :
  List.length forces = num_velocities plant ->
  evaluation_in_progress s = false ->
  hasNaN applied = false ->
  CalcNonContactForces (S m) plant (FixedValue applied) false forces s =
    (Some (Ok (add_forces (force_elements plant) applied)),
     mkGuardState false (guard_log s ++ [Passed]))
  /\ CalcNonContactForces (S m) plant NotConnected false forces s =
    (Some (Ok (force_elements plant)),
     mkGuardState false (guard_log s ++ [Passed])).
Proof.
  intros Hsize Hs Hnan. cbn [CalcNonContactForces].
  rewrite (length_eqb _ _ Hsize). cbn [negb].
  unfold ThrowIfNonContactForceInProgress, add_applied_generalized_force.
  rewrite Hs, Hnan. split; reflexivity.
Qed.

Lemma NaN_input_resets_marker
    (m : nat) (plant : ForcePlant) (discrete : bool) (forces : MultibodyForces)
    (s : GuardState) (applied : list double) :
  List.length forces = num_velocities plant ->
  evaluation_in_progress s = false ->
  hasNaN applied = true ->
  CalcNonContactForces (S m) plant (FixedValue applied) discrete forces s =
  (Some (Err (RuntimeError
                "Detected NaN in applied generalized force input port.")),
   mkGuardState false (guard_log s ++ [Passed])).
Proof.
  intros Hsize Hs Hnan. cbn [CalcNonContactForces].
  rewrite (length_eqb _ _ Hsize). cbn [negb].
  unfold ThrowIfNonContactForceInProgress, add_applied_generalized_force.
  rewrite Hs, Hnan. reflexivity.
Qed.

(** C3.  An input fed back from the plant makes the evaluation of the
    non-contact forces enter itself.  With fuel for the two entries, the
    first entry passes and the second raises the algebraic-loop error
    instead of recursing; the marker is down again afterwards, as it is
    after every exit of an evaluation entered with the marker down (the
    NaN error path among them); and a later evaluation on the state left
    behind, with the input not connected or holding a NaN-free value,
    returns its forces. *)
Theorem C3_algebraic_loop_guard
    (n : nat) (plant : ForcePlant) (controller : MultibodyForces -> list double)
    (discrete : bool) (forces : MultibodyForces)
    (Hsize : List.length forces = num_velocities plant) :
  let run :=
    CalcNonContactForces (S (S n)) plant (Feedback controller) discrete forces
      fresh_guard in
  fst run = Some (Err (RuntimeError algebraic_loop_message))
  /\ guard_log (snd run) = [Passed; Raised]
  /\ evaluation_in_progress (snd run) = false
  /\ (forall fuel wiring d f s,
        evaluation_in_progress s = false ->
        evaluation_in_progress
          (snd (CalcNonContactForces fuel plant wiring d f s)) = false)
  /\ (forall m applied,
        hasNaN applied = true ->
        CalcNonContactForces (S m) plant (FixedValue applied) discrete forces
          fresh_guard =
        (Some (Err (RuntimeError
                      "Detected NaN in applied generalized force input port.")),
         mkGuardState false [Passed]))
  /\ (forall m applied,
        hasNaN applied = false ->
        fst (CalcNonContactForces (S m) plant (FixedValue applied) false forces
               (snd run)) =
        Some (Ok (add_forces (force_elements plant) applied)))
  /\ (forall m,
        fst (CalcNonContactForces (S m) plant NotConnected false forces
               (snd run)) =
        Some (Ok (force_elements plant))).
Proof.
  intros run. unfold run.
  rewrite (reentrant_evaluation n plant controller discrete forces Hsize).
  cbn [fst snd guard_log evaluation_in_progress].
  refine (conj eq_refl (conj eq_refl (conj eq_refl (conj _ (conj _ (conj _ _)))))).
  - intros fuel wiring d f s Hs. apply marker_reset_on_every_exit. exact Hs.
  - intros m applied Hnan.
    apply (NaN_input_resets_marker m plant discrete forces fresh_guard applied
             Hsize eq_refl Hnan).
  - intros m applied Hnan.
    destruct (later_evaluation_succeeds m plant forces
                (mkGuardState false [Passed; Raised]) applied Hsize eq_refl Hnan)
      as [E _].
    rewrite E. reflexivity.
  - intros m.
    destruct (later_evaluation_succeeds m plant forces
                (mkGuardState false [Passed; Raised]) [] Hsize eq_refl eq_refl)
      as [_ E].
    rewrite E. reflexivity.
Qed.

Lemma C3_algebraic_loop_guard_witness :
  List.length [Fin 0; Fin 0] = num_velocities small_force_plant
  /\ fst (CalcNonContactForces 2 small_force_plant (Feedback doubling_controller)
            false [Fin 0; Fin 0] fresh_guard) =
     Some (Err (RuntimeError algebraic_loop_message))
  /\ fst (CalcNonContactForces 1 small_force_plant NotConnected false
            [Fin 0; Fin 0]
            (snd (CalcNonContactForces 2 small_force_plant
                    (Feedback doubling_controller) false [Fin 0; Fin 0]
                    fresh_guard))) =
     Some (Ok [Fin 1; Fin 2]).
Proof.
  destruct (C3_algebraic_loop_guard 0 small_force_plant doubling_controller
              false [Fin 0; Fin 0] eq_refl)
    as (Hraise & _ & _ & _ & _ & _ & Hlater).
  refine (conj eq_refl (conj Hraise (Hlater 0%nat))).
Defined.

(** ** The discrete step *)

Lemma dadd_zero_product (x : double) (h : R) :
  dadd x (dmul (Fin h) (Fin 0)) = x.
Proof.
  destruct x as [a | | |]; cbn; try reflexivity. f_equal. ring.
Qed.

Lemma nth_error_list_update_same {A : Type} (l : list A) (i : nat) (x y : A) :
  nth_error l i = Some y -> nth_error (list_update l i x) i = Some x.
Proof.
  revert i. induction l as [| z l IH]; intros [| i] H; cbn in *;
    try discriminate; [reflexivity | apply IH; exact H].
Qed.

Lemma length_vec_add (a b : list double) :
  List.length a = List.length b -> List.length (vec_add a b) = List.length a.
Proof.
  intros H. unfold vec_add. rewrite length_map, length_combine, <- H.
  apply Nat.min_id.
Qed.

Lemma length_vec_scale (h : double) (v : list double) :
  List.length (vec_scale h v) = List.length v.
Proof. apply length_map. Qed.

Lemma nth_error_vec_add (a b : list double) (i : nat) (x y : double) :
  nth_error a i = Some x -> nth_error b i = Some y ->
  nth_error (vec_add a b) i = Some (dadd x y).
Proof.
  revert b i. induction a as [| a0 a IH]; intros [| b0 b] [| i] Ha Hb;
    cbn in *; try discriminate.
  - injection Ha as <-. injection Hb as <-. reflexivity.
  - apply IH; assumption.
Qed.

Lemma nth_error_vec_scale (h : double) (v : list double) (i : nat) (b : double) :
  nth_error v i = Some b -> nth_error (vec_scale h v) i = Some (dmul h b).
Proof.
  intros H. unfold vec_scale. rewrite nth_error_map, H. reflexivity.
Qed.

Lemma vec_add_zero_acceleration (v0 vdot : list double) (h : R) :
  List.length vdot = List.length v0 ->
  (forall b, In b vdot -> b = Fin 0) ->
  vec_add v0 (vec_scale (Fin h) vdot) = v0.
Proof.
  revert vdot. induction v0 as [| x v0 IH]; intros [| b vdot] Hlen Hzero;
    cbn in Hlen; try discriminate; [reflexivity|].
  unfold vec_add, vec_scale. cbn [map combine fst snd].
  rewrite (Hzero b (or_introl eq_refl)), dadd_zero_product. f_equal.
  apply IH; [lia|]. intros c Hc. apply Hzero. right. exact Hc.
Qed.

(** Without a discrete update manager the discrete step never returns:
    it fails where the forward dynamics does. *)
Lemma step_without_manager_fails
    (plant : StepPlant) (context0 : StepContext) (updates : DiscreteValues) :
  step_is_discrete plant = true ->
  discrete_update_manager_ plant = None ->
  CalcDiscreteStep plant context0 updates =
  if valid_geometry_input context0
  then Err (DemandFailed "discrete_update_manager_ != nullptr")
  else ThrowForDisconnectedGeometryPort
         "You've tried evaluating discrete forward dynamics.".
Proof.
  intros Hdiscrete Hmanager.
  unfold CalcDiscreteStep, EvalForwardDynamics, DoCalcForwardDynamicsDiscrete.
  rewrite Hmanager, Hdiscrete. cbn [DRAKE_DEMAND bind].
  destruct (valid_geometry_input context0); reflexivity.
Qed.

(** C2 (amended).  One discrete step of a plant.
    - With a discrete update manager the step is the manager's
      [CalcDiscreteValues].
    - Without one the step reads the forward dynamics before it writes
      anything, and the forward dynamics of a plant in discrete mode demands
      a manager: the step of such a plant fails, on that demand when the
      geometry input is valid, and never returns an update.
    - Without a manager the step is the forward dynamics, followed, when it
      returns accelerations [vdot], by the statements below on the two
      halves [q0], [v0] of the state.
    - The statements that follow the read, given accelerations [vdot]: with
      the state [q0 ++ v0] and the step [h] they replace group 0 of the
      updates, and nothing else, by [q_next ++ v_next], where entry [i] of
      [v_next] is [v0[i] + h * vdot[i]] and entry [j] of [q_next] is
      [q0[j] + h * qdot_next[j]] for [qdot_next = map(q0, v_next)]; with
      [vdot] zero and [h] finite, [v_next = v0]. *)
Theorem C2_discrete_step
    (plant : StepPlant) (context0 : StepContext) (updates : DiscreteValues) :
  (forall manager,
     discrete_update_manager_ plant = Some manager ->
     CalcDiscreteStep plant context0 updates =
     match CalcDiscreteValues manager context0 updates with
     | Ok updates' => Ok (Succeeded, updates')
     | Err e => Err e
     end)
  /\ (step_is_discrete plant = true ->
      discrete_update_manager_ plant = None ->
      (valid_geometry_input context0 = true ->
       CalcDiscreteStep plant context0 updates =
       Err (DemandFailed "discrete_update_manager_ != nullptr"))
      /\ forall outcome, CalcDiscreteStep plant context0 updates <> Ok outcome)
  /\ (discrete_update_manager_ plant = None ->
      CalcDiscreteStep plant context0 updates =
      match EvalForwardDynamics plant context0 with
      | Ok ac =>
          advance_state plant context0 updates
            (topRows (num_positions plant) (discrete_state_0 context0))
            (bottomRows (step_num_velocities plant) (discrete_state_0 context0))
            (get_vdot ac)
      | Err e => Err e
      end)
  /\ (forall q0 v0 vdot old,
        List.length q0 = num_positions plant ->
        List.length v0 = step_num_velocities plant ->
        List.length vdot = step_num_velocities plant ->
        (forall v, List.length v = step_num_velocities plant ->
                   List.length (MapVelocityToQDot plant context0 v) =
                   num_positions plant) ->
        nth_error updates 0 = Some old ->
        List.length old =
          (num_positions plant + step_num_velocities plant)%nat ->
        exists q_next v_next,
          advance_state plant context0 updates q0 v0 vdot =
            Ok (Succeeded, list_update updates 0 (q_next ++ v_next))
          /\ List.length q_next = num_positions plant
          /\ List.length v_next = step_num_velocities plant
          /\ (forall i a b,
                nth_error v0 i = Some a -> nth_error vdot i = Some b ->
                nth_error v_next i = Some (dadd a (dmul (time_step plant) b)))
          /\ (forall j a c,
                nth_error q0 j = Some a ->
                nth_error (MapVelocityToQDot plant context0 v_next) j = Some c ->
                nth_error q_next j = Some (dadd a (dmul (time_step plant) c)))
          /\ nth_error (list_update updates 0 (q_next ++ v_next)) 0 =
             Some (q_next ++ v_next)
          /\ (forall g, g <> 0%nat ->
                nth_error (list_update updates 0 (q_next ++ v_next)) g =
                nth_error updates g)
          /\ (forall hr, time_step plant = Fin hr ->
                (forall b, In b vdot -> b = Fin 0) -> v_next = v0)).
Proof.
  refine (conj _ (conj _ (conj _ _))).
  - intros manager Hmanager. unfold CalcDiscreteStep. rewrite Hmanager.
    destruct (CalcDiscreteValues manager context0 updates); reflexivity.
  - intros Hdiscrete Hmanager.
    pose proof (step_without_manager_fails plant context0 updates
                  Hdiscrete Hmanager) as Hfails.
    split.
    + intros Hvalid. rewrite Hfails, Hvalid. reflexivity.
    + intros outcome. rewrite Hfails.
      destruct (valid_geometry_input context0); discriminate.
  - intros Hmanager. unfold CalcDiscreteStep. rewrite Hmanager.
    destruct (EvalForwardDynamics plant context0); reflexivity.
  - intros q0 v0 vdot old Hq Hv Hvdot Hmap Hgroup Hold.
    set (v_next := vec_add v0 (vec_scale (time_step plant) vdot)).
    set (q_next := vec_add q0
                     (vec_scale (time_step plant)
                        (MapVelocityToQDot plant context0 v_next))).
    assert (Lv : List.length v_next = step_num_velocities plant).
    { unfold v_next. rewrite length_vec_add; [exact Hv|].
      rewrite length_vec_scale. congruence. }
    assert (Lq : List.length q_next = num_positions plant).
    { unfold q_next. rewrite length_vec_add; [exact Hq|].
      rewrite length_vec_scale, (Hmap v_next Lv). exact Hq. }
    exists q_next, v_next.
    refine (conj _ (conj Lq (conj Lv (conj _ (conj _ (conj _ (conj _ _))))))).
    + unfold advance_state. cbv zeta. fold v_next. fold q_next.
      unfold set_value. rewrite Hgroup.
      assert (Hsize : List.length old = List.length (q_next ++ v_next))
        by (rewrite length_app, Lq, Lv; exact Hold).
      rewrite (length_eqb _ _ Hsize). reflexivity.
    + intros i a b Ha Hb. unfold v_next.
      apply nth_error_vec_add; [exact Ha|].
      apply nth_error_vec_scale. exact Hb.
    + intros j a c Ha Hc. unfold q_next.
      apply nth_error_vec_add; [exact Ha|].
      apply nth_error_vec_scale. exact Hc.
    + eapply nth_error_list_update_same. exact Hgroup.
    + intros g Hg. apply nth_error_list_update_other. lia.
    + intros hr Hh Hzero. unfold v_next. rewrite Hh.
      apply vec_add_zero_acceleration; [congruence | exact Hzero].
Qed.

(** The point mass without a manager, at position 5 with velocity 3: the
    step does not write [q_next = 5 + 3/10] and [v_next = 3], nor any other
    state; it fails on the demand for a manager. *)
Lemma C2_step_without_manager_counterexample :
  ~ (exists updates',
       CalcDiscreteStep point_mass point_mass_context [[Fin 0; Fin 0]] =
       Ok (Succeeded, updates'))
  /\ CalcDiscreteStep point_mass point_mass_context [[Fin 0; Fin 0]] =
     Err (DemandFailed "discrete_update_manager_ != nullptr").
Proof.
  split; [|reflexivity].
  intros [updates' H]. discriminate.
Qed.

Lemma C2_discrete_step_witness :
  CalcDiscreteStep point_mass point_mass_context [[Fin 0; Fin 0]] =
    Err (DemandFailed "discrete_update_manager_ != nullptr")
  /\ exists q_next v_next,
       advance_state point_mass point_mass_context [[Fin 0; Fin 0]]
         [Fin 5] [Fin 3] [Fin 0] =
         Ok (Succeeded, [q_next ++ v_next])
       /\ v_next = [Fin 3]
       /\ nth_error q_next 0 = Some (dadd (Fin 5) (dmul (Fin (1 / 10)) (Fin 3))).
Proof.
  destruct (C2_discrete_step point_mass point_mass_context [[Fin 0; Fin 0]])
    as (_ & Hnone & _ & Hadvance).
  split; [exact (proj1 (Hnone eq_refl eq_refl) eq_refl)|].
  destruct (Hadvance [Fin 5] [Fin 3] [Fin 0] [Fin 0; Fin 0]
              eq_refl eq_refl eq_refl (fun v Hv => Hv) eq_refl eq_refl)
    as (q_next & v_next & Hres & _ & _ & _ & Hq & _ & _ & Hzero).
  assert (Hv : v_next = [Fin 3]).
  { apply (Hzero (1 / 10) eq_refl). intros b [<- | []]. reflexivity. }
  exists q_next, v_next. split; [exact Hres|]. split; [exact Hv|].
  apply (Hq 0%nat (Fin 5) (Fin 3)); [reflexivity|].
  rewrite Hv. reflexivity.
Defined.

(* ================================================================== *)
(** * Part III: further properties of the plant *)
(* ================================================================== *)

(** ** The Stribeck curve: smoothness at the junctions *)

Lemma s5_derivable_pt_lim (x : R) :
  derivable_pt_lim s5 x (30 * x ^ 2 * (1 - x) ^ 2).
Proof.
  unfold s5.
  replace (30 * x ^ 2 * (1 - x) ^ 2) with
    (10 * (INR 3 * x ^ 2) - 15 * (INR 4 * x ^ 3) + 6 * (INR 5 * x ^ 4))
    by (simpl; ring).
  apply (derivable_pt_lim_plus
           (fun x => 10 * x ^ 3 - 15 * x ^ 4) (fun x => 6 * x ^ 5)).
  - apply (derivable_pt_lim_minus (fun x => 10 * x ^ 3) (fun x => 15 * x ^ 4)).
    + apply (derivable_pt_lim_scal (fun x => x ^ 3) 10).
      apply (derivable_pt_lim_pow x 3).
    + apply (derivable_pt_lim_scal (fun x => x ^ 4) 15).
      apply (derivable_pt_lim_pow x 4).
  - apply (derivable_pt_lim_scal (fun x => x ^ 5) 6).
    apply (derivable_pt_lim_pow x 5).
Qed.

(** Two functions with the same derivative at [c] that agree there glue to
    a function with that derivative at [c]. *)
Lemma derivable_pt_lim_glue (f g h : R -> R) (c r l : R) :
  0 < r ->
  derivable_pt_lim f c l -> derivable_pt_lim g c l -> f c = g c ->
  (forall x, c - r < x < c -> h x = f x) ->
  (forall x, c <= x < c + r -> h x = g x) ->
  derivable_pt_lim h c l.
Proof.
  intros Hr Hf Hg Hfg Hleft Hright eps Heps.
  destruct (Hf eps Heps) as (d1 & H1).
  destruct (Hg eps Heps) as (d2 & H2).
  assert (Hd : 0 < Rmin r (Rmin d1 d2)).
  { repeat apply Rmin_pos; [exact Hr | apply cond_pos | apply cond_pos]. }
  exists (mkposreal _ Hd). intros delta Hnz Hdelta. cbn [pos] in Hdelta.
  assert (Hxr : Rabs delta < r).
  { eapply Rlt_le_trans; [exact Hdelta | apply Rmin_l]. }
  assert (Hx1 : Rabs delta < d1).
  { eapply Rlt_le_trans; [exact Hdelta|].
    eapply Rle_trans; [apply Rmin_r | apply Rmin_l]. }
  assert (Hx2 : Rabs delta < d2).
  { eapply Rlt_le_trans; [exact Hdelta|].
    eapply Rle_trans; [apply Rmin_r | apply Rmin_r]. }
  apply Rabs_def2 in Hxr.
  rewrite (Hright c) by lra.
  destruct (Rlt_dec delta 0) as [Hneg | Hpos].
  - rewrite (Hleft (c + delta)) by lra. rewrite <- Hfg. apply H1; assumption.
  - rewrite (Hright (c + delta)) by lra. apply H2; assumption.
Qed.

Lemma static_branch_derivative (mu_s v : R) :
  derivable_pt_lim (fun v => mu_s * s5 v) v (mu_s * (30 * v ^ 2 * (1 - v) ^ 2)).
Proof.
  apply (derivable_pt_lim_scal s5 mu_s). apply s5_derivable_pt_lim.
Qed.

Lemma half_shift_derivative (v : R) :
  derivable_pt_lim (fun v => (v - 1) / 2) v (1 / 2).
Proof.
  intros eps Heps. exists (mkposreal 1 Rlt_0_1). intros h Hh _.
  replace (((v + h - 1) / 2 - (v - 1) / 2) / h - 1 / 2) with 0
    by (field; exact Hh).
  rewrite Rabs_R0. exact Heps.
Qed.

Lemma transition_branch_derivative (mu_s mu_d v : R) :
  derivable_pt_lim (fun v => mu_s - (mu_s - mu_d) * s5 ((v - 1) / 2)) v
    (0 - (mu_s - mu_d) *
         (30 * ((v - 1) / 2) ^ 2 * (1 - (v - 1) / 2) ^ 2 * (1 / 2))).
Proof.
  apply (derivable_pt_lim_minus (fun _ => mu_s)
           (fun v => (mu_s - mu_d) * s5 ((v - 1) / 2))).
  - apply derivable_pt_lim_const.
  - apply (derivable_pt_lim_scal (fun v => s5 ((v - 1) / 2)) (mu_s - mu_d)).
    apply (derivable_pt_lim_comp (fun v => (v - 1) / 2) s5).
    + apply half_shift_derivative.
    + apply s5_derivable_pt_lim.
Qed.

(** The friction coefficient, as a function of the dimensionless slip
    speed, has no kink where its branches meet: at [v = 1] and at [v = 3]
    it is differentiable with derivative 0. *)
Theorem stribeck_curve_smooth_at_junctions (mu_s mu_d : R) :
  derivable_pt_lim (stribeck_curve mu_s mu_d) 1 0
  /\ derivable_pt_lim (stribeck_curve mu_s mu_d) 3 0.
Proof.
  split.
  - apply (derivable_pt_lim_glue
             (fun v => mu_s * s5 v)
             (fun v => mu_s - (mu_s - mu_d) * s5 ((v - 1) / 2))
             (stribeck_curve mu_s mu_d) 1 1 0).
    + lra.
    + replace 0 with (mu_s * (30 * 1 ^ 2 * (1 - 1) ^ 2)) by ring.
      apply static_branch_derivative.
    + replace 0 with
        (0 - (mu_s - mu_d) *
             (30 * ((1 - 1) / 2) ^ 2 * (1 - (1 - 1) / 2) ^ 2 * (1 / 2)))
        by field.
      apply transition_branch_derivative.
    + replace ((1 - 1) / 2) with 0 by field. rewrite s5_0, s5_1. ring.
    + intros x Hx. rewrite stribeck_curve_piecewise.
      rewrite (Rleb_false 3 x), (Rleb_false 1 x) by lra. reflexivity.
    + intros x Hx. rewrite stribeck_curve_piecewise.
      rewrite (Rleb_false 3 x), (Rleb_true 1 x) by lra. reflexivity.
  - apply (derivable_pt_lim_glue
             (fun v => mu_s - (mu_s - mu_d) * s5 ((v - 1) / 2))
             (fun _ => mu_d)
             (stribeck_curve mu_s mu_d) 3 1 0).
    + lra.
    + replace 0 with
        (0 - (mu_s - mu_d) *
             (30 * ((3 - 1) / 2) ^ 2 * (1 - (3 - 1) / 2) ^ 2 * (1 / 2)))
        by field.
      apply transition_branch_derivative.
    + apply derivable_pt_lim_const.
    + replace ((3 - 1) / 2) with 1 by field. rewrite s5_1. ring.
    + intros x Hx. rewrite stribeck_curve_piecewise.
      rewrite (Rleb_false 3 x), (Rleb_true 1 x) by lra. reflexivity.
    + intros x Hx. rewrite stribeck_curve_piecewise.
      rewrite (Rleb_true 3 x) by lra. reflexivity.
Qed.

(** ** Joint limits: the penalty force is one-sided *)

(** [std::min(x, 0)] is [x] or [0] and is never above [0]; [std::max(x, 0)]
    is [x] or [0] and is never below [0].  Both hold for every [x], a NaN
    and the infinities included, as only the outcome of the one comparison
    matters. *)
Lemma std_min_zero (x : double) :
  dgt (std_min x (Fin 0)) (Fin 0) = false
  /\ (std_min x (Fin 0) = Fin 0 \/ std_min x (Fin 0) = x).
Proof.
  unfold std_min, dgt. destruct (dlt (Fin 0) x) eqn:E.
  - split; [|left; reflexivity]. cbn. apply Rltb_false. lra.
  - split; [exact E | right; reflexivity].
Qed.

Lemma std_max_zero (x : double) :
  dlt (std_max x (Fin 0)) (Fin 0) = false
  /\ (std_max x (Fin 0) = Fin 0 \/ std_max x (Fin 0) = x).
Proof.
  unfold std_max. destruct (dlt x (Fin 0)) eqn:E.
  - split; [|left; reflexivity]. cbn. apply Rltb_false. lra.
  - split; [exact E | right; reflexivity].
Qed.

(** For all arguments, finite, infinite or NaN: when the three demands
    [lower <= upper], [stiffness >= 0] and [damping >= 0] hold, the lambda
    returns a force [f].  Above the upper limit [f > 0] is false and [f] is
    [0] or the penalty [-k*(q-upper) - d*v]; otherwise, below the lower
    limit, [f < 0] is false and [f] is [0] or the penalty
    [-k*(q-lower) - d*v]; otherwise, so also when [q] is NaN, [f] is [0].
    When a demand does not hold, the call aborts with the first demand that
    does not. *)
Theorem joint_limit_force_is_one_sided
    (lower upper stiffness damping q v : double) :
  let demands :=
    dle lower upper && dge stiffness (Fin 0) && dge damping (Fin 0) in
  let penalty limit :=
    dsub (dmul (dneg stiffness) (dsub q limit)) (dmul damping v) in
  (demands = true ->
   exists f,
     CalcPenaltyForce lower upper stiffness damping q v = Ok f
     /\ (dgt q upper = true ->
         dgt f (Fin 0) = false /\ (f = Fin 0 \/ f = penalty upper))
     /\ (dgt q upper = false -> dlt q lower = true ->
         dlt f (Fin 0) = false /\ (f = Fin 0 \/ f = penalty lower))
     /\ (dgt q upper = false -> dlt q lower = false -> f = Fin 0))
  /\ (demands = false ->
      CalcPenaltyForce lower upper stiffness damping q v =
      Err (DemandFailed
             (if negb (dle lower upper) then "lower_limit <= upper_limit"
              else if negb (dge stiffness (Fin 0)) then "stiffness >= 0"
              else "damping >= 0"))).
Proof.
  intros demands penalty. unfold demands, CalcPenaltyForce, DRAKE_DEMAND.
  split.
  - intros H. apply andb_prop in H. destruct H as [H Hd].
    apply andb_prop in H. destruct H as [Hlim Hk].
    rewrite Hlim, Hk, Hd. cbn [bind].
    destruct (dgt q upper) eqn:Hgt.
    + eexists. split; [reflexivity|].
      refine (conj _ (conj _ _)); try discriminate.
      intros _. apply std_min_zero.
    + destruct (dlt q lower) eqn:Hlt.
      * eexists. split; [reflexivity|].
        refine (conj _ (conj _ _)); try discriminate.
        intros _ _. apply std_max_zero.
      * exists (Fin 0). split; [reflexivity|].
        refine (conj _ (conj _ _)); try discriminate.
        intros _ _. reflexivity.
  - intros H.
    destruct (dle lower upper); [|reflexivity].
    destruct (dge stiffness (Fin 0)); [|reflexivity].
    destruct (dge damping (Fin 0)); [discriminate | reflexivity].
Qed.

Lemma joint_limit_force_is_one_sided_witness :
  (exists f,
     CalcPenaltyForce (Fin 0) (Fin 1) PInf PInf (Fin 3) (Fin (- 5)) = Ok f
     /\ dgt f (Fin 0) = false)
  /\ CalcPenaltyForce (Fin 0) (Fin 1) (Fin 2) (Fin 1) NaN (Fin (- 5)) =
     Ok (Fin 0).
Proof.
  split.
  - destruct (joint_limit_force_is_one_sided
                (Fin 0) (Fin 1) PInf PInf (Fin 3) (Fin (- 5)))
      as (Hok & _).
    destruct Hok as (f & E & Habove & _).
    { cbn. rewrite (Rleb_true 0 1) by lra. reflexivity. }
    exists f. split; [exact E|].
    apply Habove. cbn. apply Rltb_true. lra.
  - destruct (joint_limit_force_is_one_sided
                (Fin 0) (Fin 1) (Fin 2) (Fin 1) NaN (Fin (- 5)))
      as (Hok & _).
    destruct Hok as (f & E & _ & _ & Hin).
    { cbn. rewrite (Rleb_true 0 1), (Rleb_true 0 2) by lra. reflexivity. }
    rewrite E. f_equal. apply Hin; reflexivity.
Defined.

(** ** Joint limits: the arrays that finalize stores *)

Lemma SetUpJointLimitsParameters_joint_skips
    (time_step : double) (p : JointLimitsParameters) (joint : Joint) :
  has_limits joint = false ->
  SetUpJointLimitsParameters_joint time_step p joint = Ok p.
Proof.
  intros H. destruct joint as [j | j | i]; cbn in *; try rewrite H; reflexivity.
Qed.

Lemma SetUpJointLimitsParameters_joint_pushes
    (time_step : double) (p p' : JointLimitsParameters) (joint : Joint) :
  has_limits joint = true ->
  SetUpJointLimitsParameters_joint time_step p joint = Ok p' ->
  exists penalty_parameters,
    p' = push_joint_limit p (joint_index joint) (joint_lower_limit joint)
           (joint_upper_limit joint) penalty_parameters.
Proof.
  intros H E. destruct joint as [j | j | i]; cbn in *; try discriminate;
    rewrite H in E.
  - bind_inv E. injection E as <-. exists x. reflexivity.
  - injection E as <-. eexists. reflexivity.
Qed.

Lemma revolute_side_inertia_succeeds (frame : Frame) :
  (exists I, (if Nat.eqb (body_index (frame_body frame)) world_index
              then Ok infinity
              else CalcRotationalInertiaAboutAxis frame) = Ok I)
  <-> Nat.eqb (body_index (frame_body frame)) world_index
      || is_rigid_body (frame_body frame) = true.
Proof.
  unfold CalcRotationalInertiaAboutAxis, DRAKE_THROW_UNLESS.
  destruct (Nat.eqb (body_index (frame_body frame)) world_index); cbn.
  - split; [reflexivity | intros _; eexists; reflexivity].
  - destruct (is_rigid_body (frame_body frame)); cbn.
    + split; [reflexivity|]. intros _.
      destruct (isnan (default_mass (frame_body frame))); eexists; reflexivity.
    + split; [intros [I HI]; discriminate | discriminate].
Qed.

Lemma SetUpJointLimitsParameters_joint_succeeds
    (time_step : double) (p : JointLimitsParameters) (joint : Joint) :
  (exists p', SetUpJointLimitsParameters_joint time_step p joint = Ok p')
  <-> (has_limits joint = true -> sides_are_rigid joint = true).
Proof.
  destruct joint as [j | j | i]; cbn.
  - destruct (negb (isinf (revolute_lower_limit j))
              || negb (isinf (revolute_upper_limit j))).
    + unfold CalcRevoluteJointPenaltyParameters.
      pose proof (revolute_side_inertia_succeeds (frame_on_parent j)) as Hp.
      pose proof (revolute_side_inertia_succeeds (frame_on_child j)) as Hc.
      unfold revolute_parent_body, revolute_child_body in *.
      split.
      * intros [p' E] _. bind_inv E. bind_inv Hx. bind_inv Hx.
        apply andb_true_intro. split.
        -- apply Hp. eexists; eassumption.
        -- apply Hc. eexists; eassumption.
      * intros H. specialize (H eq_refl). apply andb_prop in H.
        destruct H as [H1 H2].
        apply Hp in H1. apply Hc in H2.
        destruct H1 as [I1 ->], H2 as [I2 ->]. cbn. eexists. reflexivity.
    + split; [discriminate | intros _; eexists; reflexivity].
  - split; [reflexivity|]. intros _.
    destruct (negb (isinf (prismatic_lower_limit j))
              || negb (isinf (prismatic_upper_limit j))); eexists; reflexivity.
  - split; [discriminate | intros _; eexists; reflexivity].
Qed.

Lemma SetUpJointLimitsParameters_loop_arrays
    (time_step : double) (joints : list Joint) :
  forall p0 p,
    SetUpJointLimitsParameters_loop time_step joints p0 = Ok p ->
    let limited := filter has_limits joints in
    joints_with_limits p = joints_with_limits p0 ++ map joint_index limited
    /\ lower_limit p = lower_limit p0 ++ map joint_lower_limit limited
    /\ upper_limit p = upper_limit p0 ++ map joint_upper_limit limited
    /\ List.length (stiffness p) =
       (List.length (stiffness p0) + List.length limited)%nat
    /\ List.length (damping p) =
       (List.length (damping p0) + List.length limited)%nat.
Proof.
  induction joints as [| joint rest IH]; intros p0 p E; cbn in E.
  - injection E as <-. cbn. rewrite !app_nil_r, !Nat.add_0_r. repeat split.
  - bind_inv E. apply IH in E. cbn [filter].
    destruct (has_limits joint) eqn:Hl.
    + destruct (SetUpJointLimitsParameters_joint_pushes _ _ _ _ Hl Hx)
        as [pp ->].
      cbn in E. cbn [map List.length].
      rewrite <- !app_assoc in E. rewrite !length_app in E. cbn in E.
      destruct E as (E1 & E2 & E3 & E4 & E5).
      refine (conj E1 (conj E2 (conj E3 (conj _ _)))); lia.
    + rewrite (SetUpJointLimitsParameters_joint_skips _ _ _ Hl) in Hx.
      injection Hx as <-. exact E.
Qed.

Lemma SetUpJointLimitsParameters_loop_succeeds
    (time_step : double) (joints : list Joint) :
  forall p0,
    (exists p, SetUpJointLimitsParameters_loop time_step joints p0 = Ok p)
    <-> forallb sides_are_rigid (filter has_limits joints) = true.
Proof.
  induction joints as [| joint rest IH]; intros p0; cbn.
  - split; [reflexivity | intros _; eexists; reflexivity].
  - pose proof (SetUpJointLimitsParameters_joint_succeeds time_step p0 joint)
      as Hj.
    split.
    + intros [p E]. bind_inv E.
      assert (Hr : forallb sides_are_rigid (filter has_limits rest) = true)
        by (apply (IH x); eexists; exact E).
      destruct (has_limits joint) eqn:Hl; [|exact Hr].
      cbn. rewrite Hr, andb_true_r. apply Hj; [eexists; exact Hx | reflexivity].
    + intros H.
      assert (Hjoint : has_limits joint = true -> sides_are_rigid joint = true).
      { intros Hl. rewrite Hl in H. cbn in H. apply andb_prop in H. tauto. }
      assert (Hrest : forallb sides_are_rigid (filter has_limits rest) = true).
      { destruct (has_limits joint); [|exact H].
        cbn in H. apply andb_prop in H. tauto. }
      apply Hj in Hjoint. destruct Hjoint as [p' ->]. cbn.
      apply (IH p'). exact Hrest.
Qed.

(** Finalize succeeds exactly when every side of every revolute joint
    with a limit is the world body or a rigid body.  When it succeeds its
    five arrays are aligned: they list, in joint order, exactly the revolute
    and prismatic joints of which at least one limit is not infinite, each
    with its own limits; joints of other types and joints with both limits
    infinite get no entry. *)
Theorem joint_limit_arrays_are_aligned
    (time_step : double) (joints : list Joint) :
  let limited := filter has_limits joints in
  ((exists p, SetUpJointLimitsParameters time_step joints = Ok p)
   <-> forallb sides_are_rigid limited = true)
  /\ forall p, SetUpJointLimitsParameters time_step joints = Ok p ->
       joints_with_limits p = map joint_index limited
       /\ lower_limit p = map joint_lower_limit limited
       /\ upper_limit p = map joint_upper_limit limited
       /\ List.length (stiffness p) = List.length limited
       /\ List.length (damping p) = List.length limited.
Proof.
  split.
  - apply SetUpJointLimitsParameters_loop_succeeds.
  - intros p E.
    apply SetUpJointLimitsParameters_loop_arrays in E. exact E.
Qed.

Lemma joint_limit_arrays_are_aligned_witness :
  exists p,
    SetUpJointLimitsParameters (Fin (1 / 100)) mixed_joints = Ok p
    /\ joints_with_limits p = [1%nat; 3%nat]
    /\ lower_limit p = [Fin 0; Fin (- 1)]
    /\ upper_limit p = [PInf; Fin 1].
Proof.
  destruct (joint_limit_arrays_are_aligned (Fin (1 / 100)) mixed_joints)
    as [Hs Ha].
  destruct (proj2 Hs eq_refl) as [p E].
  exists p. split; [exact E|].
  destruct (Ha p E) as (E1 & E2 & E3 & _).
  rewrite E1, E2, E3. repeat split.
Defined.

(** ** Contact results: what the two passes record *)

Lemma hydro_surface_info
    (plant : MultibodyPlant) (ext : Collaborators) (context : Context)
    (insp : SceneGraphInspector)
    (acc acc' : HydroelasticContactInfoAndBodySpatialForces)
    (surface : ContactSurface) :
  CalcHydroelasticContactForces_surface plant ext context insp acc surface =
    Ok acc' ->
  map contact_surface (contact_info acc') =
  map contact_surface (contact_info acc) ++ [surface].
Proof.
  intros H. unfold CalcHydroelasticContactForces_surface in H.
  cbv zeta in H.
  do 6 bind_inv H.
  destruct (ShiftSpatialForcesAtCentroidToBodyOrigins ext _ _) as [F_Ao_W F_Bo_W].
  bind_inv H. bind_inv H. injection H as <-. cbn [contact_info].
  rewrite map_app. reflexivity.
Qed.

Lemma hydro_loop_info
    (plant : MultibodyPlant) (ext : Collaborators) (context : Context)
    (insp : SceneGraphInspector) (surfaces : list ContactSurface) :
  forall acc acc',
    CalcHydroelasticContactForces_loop plant ext context insp surfaces acc =
      Ok acc' ->
    map contact_surface (contact_info acc') =
    map contact_surface (contact_info acc) ++ surfaces.
Proof.
  induction surfaces as [| surface rest IH]; intros acc acc' H.
  - injection H as <-. rewrite app_nil_r. reflexivity.
  - cbn [CalcHydroelasticContactForces_loop] in H. bind_inv H.
    apply IH in H. apply hydro_surface_info in Hx.
    rewrite H, Hx, <- app_assoc. reflexivity.
Qed.

Lemma guarded_at_add_length
    (guard : bool) (array array' : list SpatialForce) (i : nat)
    (F : SpatialForce) :
  (if guard then at_add array i F else Ok array) = Ok array' ->
  List.length array' = List.length array.
Proof.
  destruct guard; intros H.
  - eapply at_add_length; eassumption.
  - injection H as <-. reflexivity.
Qed.

Lemma hydro_loop_length
    (plant : MultibodyPlant) (ext : Collaborators) (context : Context)
    (insp : SceneGraphInspector) (surfaces : list ContactSurface) :
  forall acc acc',
    CalcHydroelasticContactForces_loop plant ext context insp surfaces acc =
      Ok acc' ->
    List.length (F_BBo_W_array acc') = List.length (F_BBo_W_array acc).
Proof.
  induction surfaces as [| surface rest IH]; intros acc acc' H.
  - injection H as <-. reflexivity.
  - cbn [CalcHydroelasticContactForces_loop] in H. bind_inv H.
    apply IH in H. rewrite H. clear H IH.
    unfold CalcHydroelasticContactForces_surface in Hx. cbv zeta in Hx.
    do 6 bind_inv Hx.
    destruct (ShiftSpatialForcesAtCentroidToBodyOrigins ext _ _)
      as [F_Ao_W F_Bo_W].
    bind_inv Hx. bind_inv Hx. injection Hx as <-. cbn [F_BBo_W_array].
    repeat match goal with
           | E : (if _ then at_add _ _ _ else Ok _) = Ok _ |- _ =>
               apply guarded_at_add_length in E
           end.
    congruence.
Qed.

Lemma hydro_forces_follow_surfaces
    (plant : MultibodyPlant) (ext : Collaborators) (context : Context)
    (r : HydroelasticContactInfoAndBodySpatialForces) :
  EvalHydroelasticContactForces plant ext context = Ok r ->
  List.length (F_BBo_W_array r) = num_bodies plant
  /\ (num_collision_geometries plant = 0%nat -> contact_info r = [])
  /\ (num_collision_geometries plant <> 0%nat ->
      exists surfaces,
        EvalContactSurfaces ext context = Ok surfaces
        /\ map contact_surface (contact_info r) = surfaces).
Proof.
  intros H. unfold EvalHydroelasticContactForces, CalcHydroelasticContactForces in H.
  bind_inv H. clear Hx.
  destruct (Nat.eqb (num_collision_geometries plant) 0) eqn:Hg.
  - injection H as <-. cbn. rewrite repeat_length.
    apply Nat.eqb_eq in Hg.
    refine (conj eq_refl (conj (fun _ => eq_refl) _)). intros Hn. contradiction.
  - apply Nat.eqb_neq in Hg. bind_inv H. bind_inv H.
    pose proof (hydro_loop_length _ _ _ _ _ _ _ H) as L.
    pose proof (hydro_loop_info _ _ _ _ _ _ _ H) as I.
    cbn in L, I. rewrite repeat_length in L.
    refine (conj L (conj _ _)).
    + intros Hn. contradiction.
    + intros _. eexists. split; [eassumption | exact I].
Qed.

Lemma Subsequence_app {A : Type} (l1 l2 m1 m2 : list A) :
  Subsequence l1 l2 -> Subsequence m1 m2 -> Subsequence (l1 ++ m1) (l2 ++ m2).
Proof.
  intros H1 H2. induction H1; cbn.
  - exact H2.
  - apply Subsequence_skip. exact IHSubsequence.
  - apply Subsequence_keep. exact IHSubsequence.
Qed.

Lemma point_pair_pair_records
    (plant : MultibodyPlant) (ext : Collaborators) (context : Context)
    (insp : SceneGraphInspector) (r r' : ContactResults)
    (pair_ : PenetrationAsPointPair) :
  AppendContactResultsContinuousPointPair_pair plant ext context insp r pair_ =
    Ok r' ->
  hydroelastic_contact_info r' = hydroelastic_contact_info r
  /\ plant_is_this r' = plant_is_this r
  /\ exists new,
       point_pair_contact_info r' = point_pair_contact_info r ++ new
       /\ Subsequence (map point_pair new) [pair_]
       /\ Forall (agrees_with_its_pair plant) new.
Proof.
  intros H. unfold AppendContactResultsContinuousPointPair_pair in H.
  cbv zeta in H. do 6 bind_inv H.
  destruct (dgt _ (Fin 0)).
  - destruct (point_contact_force _ _ _ _ _ _) as [f_Bc_W slip_velocity].
    injection H as <-. cbn.
    refine (conj eq_refl (conj eq_refl _)).
    eexists. split; [reflexivity|]. split.
    + cbn. apply Subsequence_keep, Subsequence_nil.
    + constructor; [|constructor].
      unfold agrees_with_its_pair. cbn. repeat split; assumption.
  - injection H as <-.
    refine (conj eq_refl (conj eq_refl _)).
    exists []. rewrite app_nil_r. split; [reflexivity|]. split.
    + cbn. apply Subsequence_skip, Subsequence_nil.
    + constructor.
Qed.

Lemma point_pair_loop_records
    (plant : MultibodyPlant) (ext : Collaborators) (context : Context)
    (insp : SceneGraphInspector) (pairs : list PenetrationAsPointPair) :
  forall r r',
    AppendContactResultsContinuousPointPair_loop plant ext context insp pairs r =
      Ok r' ->
    hydroelastic_contact_info r' = hydroelastic_contact_info r
    /\ plant_is_this r' = plant_is_this r
    /\ exists new,
         point_pair_contact_info r' = point_pair_contact_info r ++ new
         /\ Subsequence (map point_pair new) pairs
         /\ Forall (agrees_with_its_pair plant) new.
Proof.
  induction pairs as [| pair_ rest IH]; intros r r' H.
  - injection H as <-. refine (conj eq_refl (conj eq_refl _)).
    exists []. rewrite app_nil_r. repeat split; constructor.
  - cbn [AppendContactResultsContinuousPointPair_loop] in H. bind_inv H.
    apply point_pair_pair_records in Hx.
    destruct Hx as (E1 & E2 & new1 & E3 & S1 & F1).
    apply IH in H. destruct H as (E4 & E5 & new2 & E6 & S2 & F2).
    refine (conj _ (conj _ _)); [congruence | congruence |].
    exists (new1 ++ new2). split; [|split].
    + rewrite E6, E3, app_assoc. reflexivity.
    + rewrite map_app.
      change (pair_ :: rest) with ([pair_] ++ rest).
      apply Subsequence_app; assumption.
    + apply Forall_app. split; assumption.
Qed.

Lemma point_pair_pass_records
    (plant : MultibodyPlant) (ext : Collaborators) (context : Context)
    (r r' : ContactResults) :
  AppendContactResultsContinuousPointPair plant ext context r = Ok r' ->
  hydroelastic_contact_info r' = hydroelastic_contact_info r
  /\ plant_is_this r' = plant_is_this r
  /\ exists pairs new,
       EvalPointPairPenetrations ext context = Ok pairs
       /\ point_pair_contact_info r' = point_pair_contact_info r ++ new
       /\ Subsequence (map point_pair new) pairs
       /\ Forall (agrees_with_its_pair plant) new.
Proof.
  intros H. unfold AppendContactResultsContinuousPointPair in H.
  bind_inv H. bind_inv H. bind_inv H.
  apply point_pair_loop_records in H.
  destruct H as (E1 & E2 & new & E3 & S & F).
  refine (conj E1 (conj E2 _)).
  eexists. exists new. split; [eassumption|]. repeat split; assumption.
Qed.

Lemma hydroelastic_pass_records
    (plant : MultibodyPlant) (ext : Collaborators) (context : Context)
    (r r' : ContactResults) :
  AppendContactResultsContinuousHydroelastic plant ext context r = Ok r' ->
  point_pair_contact_info r' = point_pair_contact_info r
  /\ exists forces,
       EvalHydroelasticContactForces plant ext context = Ok forces
       /\ hydroelastic_contact_info r' =
          hydroelastic_contact_info r ++ contact_info forces.
Proof.
  intros H. unfold AppendContactResultsContinuousHydroelastic in H.
  bind_inv H. bind_inv H. injection H as <-. cbn.
  split; [reflexivity|]. eexists. split; [eassumption | reflexivity].
Qed.

(** The records of the contact results carry what the queries reported.
    In every contact model each point contact record agrees with its
    penetration pair (body indices of the pair's geometries, contact point
    at the midpoint of the witness points); the pairs recorded are, in their
    order, pairs of the penetration query (those with a normal force that is
    not positive are left out); the point model records no hydroelastic
    contact, and a plant without collision geometry records nothing. *)
Theorem point_contact_results_follow_pairs
    (plant : MultibodyPlant) (ext : Collaborators) (context : Context)
    (r : ContactResults)
    (Hresults : EvalContactResults plant ext context = Ok r) :
  Forall (agrees_with_its_pair plant) (point_pair_contact_info r)
  /\ (contact_model_ plant = kPoint -> hydroelastic_contact_info r = [])
  /\ (contact_model_ plant = kHydroelastic -> point_pair_contact_info r = [])
  /\ (num_collision_geometries plant = 0%nat ->
      point_pair_contact_info r = [] /\ hydroelastic_contact_info r = [])
  /\ (num_collision_geometries plant <> 0%nat ->
      contact_model_ plant <> kHydroelastic ->
      exists pairs,
        EvalPointPairPenetrations ext context = Ok pairs
        /\ Subsequence (map point_pair (point_pair_contact_info r)) pairs).
Proof.
  unfold EvalContactResults, CalcContactResultsContinuous in Hresults.
  destruct (Nat.eqb (num_collision_geometries plant) 0) eqn:Hg.
  - injection Hresults as <-. cbn. apply Nat.eqb_eq in Hg.
    refine (conj (Forall_nil _) (conj (fun _ => eq_refl)
             (conj (fun _ => eq_refl) (conj (fun _ => conj eq_refl eq_refl) _)))).
    intros Hn. contradiction.
  - apply Nat.eqb_neq in Hg.
    destruct (contact_model_ plant) eqn:Hmodel.
    + apply point_pair_pass_records in Hresults.
      destruct Hresults as (E1 & _ & pairs & new & EP & E3 & S & F).
      cbn in E1, E3. subst new.
      refine (conj F (conj (fun _ => E1) (conj _ (conj _ _)))).
      * discriminate.
      * intros Hn. contradiction.
      * intros _ _. exists pairs. split; assumption.
    + apply hydroelastic_pass_records in Hresults.
      destruct Hresults as (E1 & _). cbn in E1. rewrite E1.
      refine (conj (Forall_nil _) (conj _ (conj (fun _ => eq_refl) (conj _ _)))).
      * discriminate.
      * intros Hn. contradiction.
      * intros _ Hm. contradiction.
    + bind_inv Hresults.
      apply point_pair_pass_records in Hx.
      destruct Hx as (_ & _ & pairs & new & EP & E3 & S & F).
      cbn in E3. subst new.
      apply hydroelastic_pass_records in Hresults.
      destruct Hresults as (E1 & _). rewrite E1.
      refine (conj F (conj _ (conj _ (conj _ _)))).
      * discriminate.
      * discriminate.
      * intros Hn. contradiction.
      * intros _ _. exists pairs. split; assumption.
Qed.

Lemma point_contact_results_follow_pairs_witness :
  exists r,
    EvalContactResults (box_plant kPoint)
      (example_collaborators (box_plant kPoint)) (box_context falling) = Ok r
    /\ List.length (point_pair_contact_info r) = 1%nat
    /\ Forall (agrees_with_its_pair (box_plant kPoint))
         (point_pair_contact_info r).
Proof.
  destruct (box_contact_results kPoint (- 1) ltac:(lra)) as (f & slip & Hres).
  assert (Hev :
    EvalContactResults (box_plant kPoint)
      (example_collaborators (box_plant kPoint)) (box_context falling) =
    Ok (mkContactResults true
          [mkPointPairContactInfo 1%nat 0%nat f
             (contact_point_C box_on_ground_pair) (Fin (- - 1)) slip
             box_on_ground_pair] [])) by exact Hres.
  eexists. split; [exact Hev|]. split; [reflexivity|].
  exact (proj1 (point_contact_results_follow_pairs _ _ _ _ Hev)).
Defined.

(** In the models with hydroelastic contact, on a plant with collision
    geometry, the contact results hold exactly one hydroelastic record per
    contact surface of the query, in the order of the query, and the array
    of body forces computed with them has one entry per body. *)
Theorem hydroelastic_contact_results_follow_surfaces
    (plant : MultibodyPlant) (ext : Collaborators) (context : Context)
    (r : ContactResults)
    (Hresults : EvalContactResults plant ext context = Ok r)
    (Hgeometry : num_collision_geometries plant <> 0%nat)
    (Hmodel : contact_model_ plant <> kPoint) :
  exists surfaces forces,
    EvalContactSurfaces ext context = Ok surfaces
    /\ EvalHydroelasticContactForces plant ext context = Ok forces
    /\ hydroelastic_contact_info r = contact_info forces
    /\ map contact_surface (hydroelastic_contact_info r) = surfaces
    /\ List.length (F_BBo_W_array forces) = num_bodies plant.
Proof.
  unfold EvalContactResults, CalcContactResultsContinuous in Hresults.
  apply Nat.eqb_neq in Hgeometry. rewrite Hgeometry in Hresults.
  apply Nat.eqb_neq in Hgeometry.
  assert (Hhydro : exists r0,
            hydroelastic_contact_info r0 = []
            /\ AppendContactResultsContinuousHydroelastic plant ext context r0 =
               Ok r).
  { destruct (contact_model_ plant).
    - contradiction.
    - eexists. split; [|exact Hresults]. reflexivity.
    - bind_inv Hresults. exists x. split; [|exact Hresults].
      apply point_pair_pass_records in Hx. destruct Hx as (E & _). exact E. }
  destruct Hhydro as (r0 & E0 & Hpass).
  apply hydroelastic_pass_records in Hpass.
  destruct Hpass as (_ & forces & EF & Einfo). rewrite E0 in Einfo. cbn in Einfo.
  destruct (hydro_forces_follow_surfaces _ _ _ _ EF) as (L & _ & Hs).
  destruct (Hs Hgeometry) as (surfaces & ES & Emap).
  exists surfaces, forces. rewrite Einfo. repeat split; assumption.
Qed.

Lemma hydroelastic_contact_results_follow_surfaces_witness :
  exists r,
    EvalContactResults (box_plant kHydroelastic)
      (example_collaborators (box_plant kHydroelastic)) (box_context falling)
    = Ok r
    /\ map contact_surface (hydroelastic_contact_info r) = [box_surface].
Proof.
  assert (Hres : exists r,
    EvalContactResults (box_plant kHydroelastic)
      (example_collaborators (box_plant kHydroelastic)) (box_context falling)
    = Ok r) by (eexists; reflexivity).
  destruct Hres as [r Hres]. exists r. split; [exact Hres|].
  destruct (hydroelastic_contact_results_follow_surfaces _ _ _ _ Hres)
    as (surfaces & forces & ES & _ & _ & Emap & _).
  - cbn. discriminate.
  - cbn. discriminate.
  - rewrite Emap. cbn in ES. injection ES as <-. reflexivity.
Defined.

Lemma at_add_in_range (array : list SpatialForce) (i : nat) (F : SpatialForce) :
  (i < List.length array)%nat ->
  exists array', at_add array i F = Ok array'
                 /\ List.length array' = List.length array.
Proof.
  intros Hi. unfold at_add.
  destruct (nth_error array i) eqn:E.
  - eexists. split; [reflexivity | apply length_list_update].
  - apply nth_error_None in E. lia.
Qed.

Lemma FindBodyByGeometryId_registered
    (plant : MultibodyPlant) (geometry_id : GeometryId) (body : BodyIndex) :
  FindBodyByGeometryId plant geometry_id = Ok body ->
  exists id, geometry_id = Some id
             /\ geometry_id_to_body_index_ plant id = Some body.
Proof.
  unfold FindBodyByGeometryId. destruct geometry_id as [id|]; [|discriminate].
  destruct (geometry_id_to_body_index_ plant id) eqn:E; [|discriminate].
  intros H. injection H as <-. exists id. split; [reflexivity | exact E].
Qed.

Lemma penalty_pair_succeeds
    (plant : MultibodyPlant) (ext : Collaborators) (context : Context)
    (F : list SpatialForce) (info : PointPairContactInfo) :
  (forall id b, geometry_id_to_body_index_ plant id = Some b ->
                (node_index plant b < List.length F)%nat) ->
  agrees_with_its_pair plant info ->
  exists F',
    CalcAndAddContactForcesByPenaltyMethod_pair plant ext context F info = Ok F'
    /\ List.length F' = List.length F.
Proof.
  intros Hnodes (EA & EB & _).
  destruct (FindBodyByGeometryId_registered _ _ _ EA) as (idA & _ & HA).
  destruct (FindBodyByGeometryId_registered _ _ _ EB) as (idB & _ & HB).
  apply Hnodes in HA, HB.
  unfold CalcAndAddContactForcesByPenaltyMethod_pair. cbv zeta.
  rewrite EA, EB. cbn [bind].
  assert (H1 : exists F1,
    (if negb (Nat.eqb (bodyA_index info) world_index)
     then at_add F (node_index plant (bodyA_index info))
            (force_Shift ext
               (mkSpatialForce v3_zero (v3_neg (contact_force info)))
               (v3_sub (translation
                          (X_WB context (node_index plant (bodyA_index info))))
                       (contact_point info)))
     else Ok F) = Ok F1 /\ List.length F1 = List.length F).
  { destruct (negb (Nat.eqb (bodyA_index info) world_index)).
    - apply at_add_in_range, HA.
    - eexists. split; reflexivity. }
  destruct H1 as (F1 & -> & L1). cbn [bind].
  destruct (negb (Nat.eqb (bodyB_index info) world_index)).
  - destruct (at_add_in_range F1 (node_index plant (bodyB_index info))
                (SpatialForce_neg
                   (force_Shift ext
                      (mkSpatialForce v3_zero (v3_neg (contact_force info)))
                      (v3_sub (translation
                                 (X_WB context
                                    (node_index plant (bodyB_index info))))
                              (contact_point info)))))
      as (F2 & E2 & L2).
    + rewrite L1. exact HB.
    + exists F2. split; [exact E2 | congruence].
  - exists F1. split; [reflexivity | exact L1].
Qed.

Lemma penalty_loop_succeeds
    (plant : MultibodyPlant) (ext : Collaborators) (context : Context)
    (infos : list PointPairContactInfo) :
  Forall (agrees_with_its_pair plant) infos ->
  forall F,
    (forall id b, geometry_id_to_body_index_ plant id = Some b ->
                  (node_index plant b < List.length F)%nat) ->
    exists F',
      CalcAndAddContactForcesByPenaltyMethod_loop plant ext context infos F =
        Ok F'
      /\ List.length F' = List.length F.
Proof.
  induction 1 as [| info rest Hinfo _ IH]; intros F Hnodes.
  - exists F. split; reflexivity.
  - cbn [CalcAndAddContactForcesByPenaltyMethod_loop].
    destruct (penalty_pair_succeeds plant ext context F info Hnodes Hinfo)
      as (F1 & E1 & L1).
    rewrite E1. cbn [bind].
    destruct (IH F1) as (F' & E' & L').
    + intros id b. rewrite L1. apply Hnodes.
    + exists F'. split; [exact E' | congruence].
Qed.

(** ** The force pass succeeds whenever the results pass does *)

Lemma results_give_hydro_forces
    (plant : MultibodyPlant) (ext : Collaborators) (context : Context)
    (r : ContactResults) :
  EvalContactResults plant ext context = Ok r ->
  num_collision_geometries plant <> 0%nat ->
  contact_model_ plant <> kPoint ->
  exists forces,
    EvalHydroelasticContactForces plant ext context = Ok forces
    /\ List.length (F_BBo_W_array forces) = num_bodies plant.
Proof.
  intros Hresults Hgeometry Hmodel.
  unfold EvalContactResults, CalcContactResultsContinuous in Hresults.
  apply Nat.eqb_neq in Hgeometry. rewrite Hgeometry in Hresults.
  assert (Hpass : exists r0,
            AppendContactResultsContinuousHydroelastic plant ext context r0 =
            Ok r).
  { destruct (contact_model_ plant).
    - contradiction.
    - eexists. exact Hresults.
    - bind_inv Hresults. eexists. exact Hresults. }
  destruct Hpass as (r0 & Hpass).
  apply hydroelastic_pass_records in Hpass.
  destruct Hpass as (_ & forces & EF & _).
  exists forces. split; [exact EF|].
  apply (hydro_forces_follow_surfaces _ _ _ _ EF).
Qed.

Lemma length_add_arrays (F G : list SpatialForce) :
  List.length (add_arrays F G) = List.length F.
Proof.
  revert G. induction F as [| f F IH]; intros [| g G]; cbn; try reflexivity.
  rewrite IH. reflexivity.
Qed.

(** On a continuous plant where the node of every body with a registered
    geometry lies within the array of body forces, the computation of the spatial contact forces succeeds
    whenever the contact results can be evaluated, in each of the three
    contact models, and returns one force per body: the second look-up of
    the bodies of a recorded pair cannot fail, and no entry outside the
    array is addressed. *)
Theorem contact_forces_succeed_with_results
    (plant : MultibodyPlant) (ext : Collaborators) (context : Context)
    (F : list SpatialForce) (r : ContactResults)
    (Hcontinuous : is_discrete plant = false)
    (Hnodes : forall id b, geometry_id_to_body_index_ plant id = Some b ->
                           (node_index plant b < num_bodies plant)%nat)
    (Hlength : List.length F = num_bodies plant)
    (Hresults : EvalContactResults plant ext context = Ok r) :
  exists F',
    CalcSpatialContactForcesContinuous plant ext context F = Ok F'
    /\ List.length F' = num_bodies plant.
Proof.
  unfold CalcSpatialContactForcesContinuous,
    CalcAndAddSpatialContactForcesContinuous.
  rewrite length_map, Hlength, Nat.eqb_refl, Hcontinuous. cbn [negb DRAKE_DEMAND bind].
  set (F0 := map (fun _ => SpatialForce_Zero) F).
  assert (L0 : List.length F0 = num_bodies plant)
    by (unfold F0; rewrite length_map; exact Hlength).
  destruct (Nat.eqb (num_collision_geometries plant) 0) eqn:Hg.
  - exists F0. split; [reflexivity | exact L0].
  - apply Nat.eqb_neq in Hg.
    assert (Hpenalty : exists F1,
              CalcAndAddContactForcesByPenaltyMethod plant ext context F0 = Ok F1
              /\ List.length F1 = num_bodies plant).
    { unfold CalcAndAddContactForcesByPenaltyMethod.
      rewrite L0, Nat.eqb_refl. cbn [DRAKE_DEMAND bind].
      apply Nat.eqb_neq in Hg. rewrite Hg, Hresults. cbn [bind].
      destruct (penalty_loop_succeeds plant ext context
                  (point_pair_contact_info r)) with (F := F0)
        as (F1 & E1 & L1).
      - pose proof Hresults as Hr.
        unfold EvalContactResults, CalcContactResultsContinuous in Hr.
        rewrite Hg in Hr.
        destruct (contact_model_ plant).
        + apply point_pair_pass_records in Hr.
          destruct Hr as (_ & _ & pairs & new & _ & E & _ & Hall).
          rewrite E. exact Hall.
        + apply hydroelastic_pass_records in Hr.
          destruct Hr as (E & _). rewrite E. constructor.
        + bind_inv Hr. apply point_pair_pass_records in Hx.
          destruct Hx as (_ & _ & pairs & new & _ & E & _ & Hall).
          apply hydroelastic_pass_records in Hr.
          destruct Hr as (E' & _). rewrite E', E. exact Hall.
      - intros id b. rewrite L0. apply Hnodes.
      - exists F1. split; [exact E1 | congruence]. }
    destruct (contact_model_ plant) eqn:Hmodel.
    + exact Hpenalty.
    + destruct (results_give_hydro_forces plant ext context r Hresults Hg)
        as (forces & EF & LF).
      * rewrite Hmodel. discriminate.
      * rewrite EF. cbn [bind]. exists (F_BBo_W_array forces).
        split; [reflexivity | exact LF].
    + destruct Hpenalty as (F1 & E1 & L1). rewrite E1. cbn [bind].
      destruct (results_give_hydro_forces plant ext context r Hresults Hg)
        as (forces & EF & LF).
      * rewrite Hmodel. discriminate.
      * rewrite EF. cbn [bind]. rewrite L1, LF, Nat.eqb_refl.
        cbn [DRAKE_DEMAND bind].
        exists (add_arrays F1 (F_BBo_W_array forces)).
        split; [reflexivity|]. rewrite length_add_arrays. exact L1.
Qed.

Lemma contact_forces_succeed_with_results_witness :
  exists F',
    CalcSpatialContactForcesContinuous (box_plant kPoint)
      (example_collaborators (box_plant kPoint)) (box_context falling)
      [SpatialForce_Zero; SpatialForce_Zero] = Ok F'
    /\ List.length F' = 2%nat.
Proof.
  destruct (box_contact_results kPoint (- 1) ltac:(lra)) as (f & slip & Hres).
  assert (Hev :
    EvalContactResults (box_plant kPoint)
      (example_collaborators (box_plant kPoint)) (box_context falling) =
    Ok (mkContactResults true
          [mkPointPairContactInfo 1%nat 0%nat f
             (contact_point_C box_on_ground_pair) (Fin (- - 1)) slip
             box_on_ground_pair] [])) by exact Hres.
  refine (contact_forces_succeed_with_results (box_plant kPoint) _ _
            [SpatialForce_Zero; SpatialForce_Zero] _
            eq_refl _ eq_refl Hev).
  intros [| [| id]] b Hb; cbn in Hb; try discriminate;
    injection Hb as <-; cbn; lia.
Defined.

(** ** The heuristic for the point contact parameters *)

Ltac double_cases :=
  repeat match goal with
         | x : double |- _ => destruct x
         end;
  cbn in *; try discriminate; try reflexivity;
  repeat match goal with
         | H : Rltb _ _ = true |- _ => apply Rltb_spec in H
         | H : Rleb _ _ = true |- _ => apply Rleb_spec in H
         | H : context [Rltb ?a ?b] |- _ =>
             unfold Rltb in H; destruct (Rlt_dec a b)
         | |- context [Rltb ?a ?b] =>
             unfold Rltb; destruct (Rlt_dec a b)
         end;
  try discriminate; try reflexivity; try (apply Rleb_true; lra).

Lemma std_max_upper (m a b : double) :
  dle m a = true -> dle m (std_max a b) = true.
Proof.
  unfold std_max. intros H. destruct (dlt a b) eqn:E; [|exact H]. double_cases.
Qed.

Lemma std_max_right (a b : double) :
  dle (Fin 0) a = true -> isnan b = false -> dle b (std_max a b) = true.
Proof.
  unfold std_max. intros Ha Hb. destruct (dlt a b) eqn:E; double_cases.
Qed.

Lemma ddiv_NaN_r (x : double) : ddiv x NaN = NaN.
Proof. destruct x; reflexivity. Qed.

Lemma dle_trans (a b c : double) :
  dle a b = true -> dle b c = true -> dle a c = true.
Proof. intros H1 H2. double_cases. Qed.

Lemma mass_scan_invariant (default_masses : list double) :
  forall mass,
    dle (Fin 0) mass = true ->
    let scanned :=
      fold_left (fun mass body_mass => std_max mass body_mass)
        default_masses mass in
    dle (Fin 0) scanned = true
    /\ dle mass scanned = true
    /\ (forall m, In m default_masses -> isnan m = false ->
                  dle m scanned = true)
    /\ (scanned = mass \/ In scanned default_masses).
Proof.
  induction default_masses as [| b rest IH]; intros mass Hmass; cbn.
  - refine (conj Hmass (conj _ (conj _ (or_introl eq_refl)))).
    + clear - Hmass. double_cases.
    + intros m [].
  - pose proof (std_max_upper (Fin 0) mass b Hmass) as H0.
    destruct (IH (std_max mass b) H0) as (I1 & I2 & I3 & I4).
    refine (conj I1 (conj _ (conj _ _))).
    + assert (Hstep : dle mass (std_max mass b) = true).
      { apply std_max_upper. clear - Hmass. double_cases. }
      exact (dle_trans _ _ _ Hstep I2).
    + intros m [-> | Hin] Hnan; [|apply I3; assumption].
      pose proof (std_max_right mass m Hmass Hnan) as Hstep.
      exact (dle_trans _ _ _ Hstep I2).
    + destruct I4 as [E | Hin]; [|right; right; exact Hin].
      rewrite E. unfold std_max. destruct (dlt mass b).
      * right. left. reflexivity.
      * left. reflexivity.
Qed.

(** The mass that the heuristic scans for is the largest default mass of
    the bodies, bodies of unspecified (NaN) mass being skipped: it is never
    NaN and never negative, it is at least every default mass that is a
    number, and it is either [0] or the default mass of some body. *)
Theorem scanned_mass_is_the_largest (default_masses : list double) :
  let mass := max_default_mass default_masses in
  isnan mass = false
  /\ dle (Fin 0) mass = true
  /\ (forall m, In m default_masses -> isnan m = false -> dle m mass = true)
  /\ (mass = Fin 0 \/ In mass default_masses).
Proof.
  intros mass.
  destruct (mass_scan_invariant default_masses (Fin 0))
    as (I1 & _ & I3 & I4).
  { apply dle_Fin. lra. }
  fold (max_default_mass default_masses) in I1, I3, I4. fold mass in I1, I3, I4.
  refine (conj _ (conj I1 (conj I3 I4))).
  destruct mass; try reflexivity. discriminate.
Qed.

(** [set_penetration_allowance] rejects exactly the allowances that
    compare [<= 0]; NaN does not, so it is accepted, and on a finalized
    plant it turns the stiffness, the dissipation and the time scale into
    NaN.  An accepted allowance is stored; the contact parameters are
    re-estimated with it when the plant is finalized and left alone when it
    is not. *)
Theorem set_penetration_allowance_accepts
    (plant : PenetrationState) (penetration_allowance : double) :
  ((exists plant', set_penetration_allowance plant penetration_allowance =
                   Ok plant')
   <-> dle penetration_allowance (Fin 0) = false)
  /\ (forall plant',
        set_penetration_allowance plant penetration_allowance = Ok plant' ->
        penetration_allowance_ plant' = penetration_allowance
        /\ contact_parameters_ plant' =
           (if is_finalized plant
            then EstimatePointContactParameters (gravity_field plant)
                   (body_default_masses plant) penetration_allowance
            else contact_parameters_ plant))
  /\ (exists plant',
        set_penetration_allowance plant NaN = Ok plant'
        /\ (is_finalized plant = true ->
            contact_parameters_ plant' =
            PenaltyMethod.mkContactByPenaltyMethodParameters NaN NaN NaN)).
Proof.
  refine (conj _ (conj _ _)).
  - unfold set_penetration_allowance.
    destruct (dle penetration_allowance (Fin 0)).
    + split; [intros [p H]; discriminate | discriminate].
    + split; [reflexivity|]. intros _. cbn.
      destruct (is_finalized plant); eexists; reflexivity.
  - intros plant' H. unfold set_penetration_allowance in H.
    destruct (dle penetration_allowance (Fin 0)); [discriminate|].
    cbn in H. destruct (is_finalized plant); injection H as <-;
      split; reflexivity.
  - unfold set_penetration_allowance. cbn.
    destruct (is_finalized plant); eexists; (split; [reflexivity|]).
    + intros _. cbn. unfold EstimatePointContactParameters. cbv zeta.
      rewrite !ddiv_NaN_r. cbn. reflexivity.
    + discriminate.
Qed.

Lemma scanned_mass_is_the_largest_witness :
  dle (Fin 3) (max_default_mass three_masses) = true.
Proof.
  apply (scanned_mass_is_the_largest three_masses).
  - right. left. reflexivity.
  - reflexivity.
Defined.

Lemma set_penetration_allowance_accepts_witness :
  exists plant',
    set_penetration_allowance
      (mkPenetrationState false gravity_of_strength_10 three_masses
         (Fin (1 / 1000))
         (PenaltyMethod.mkContactByPenaltyMethodParameters
            (Fin 0) (Fin 0) (Fin (- 1))))
      NaN = Ok plant'
    /\ penetration_allowance_ plant' = NaN.
Proof.
  destruct (set_penetration_allowance_accepts
              (mkPenetrationState false gravity_of_strength_10 three_masses
                 (Fin (1 / 1000))
                 (PenaltyMethod.mkContactByPenaltyMethodParameters
                    (Fin 0) (Fin 0) (Fin (- 1))))
              NaN) as (Haccepted & Hstored & _).
  destruct (proj2 Haccepted eq_refl) as [plant' Hrun].
  exists plant'. split; [exact Hrun|].
  exact (proj1 (Hstored plant' Hrun)).
Defined.

(** ** Registration of geometry: what is registered is found again *)

Lemma In_push_back_at (v : BodyIndex -> list nat) (index b : BodyIndex) (id i : nat) :
  In i (Registration.push_back_at v index id b) <->
  In i (v b) \/ (b = index /\ i = id).
Proof.
  unfold Registration.push_back_at.
  destruct (Nat.eqb b index) eqn:E.
  - apply Nat.eqb_eq in E. rewrite in_app_iff. cbn. intuition.
  - apply Nat.eqb_neq in E. intuition.
Qed.

Lemma RegisterCollisionGeometry_Ok
    (plant : Registration.Plant) (body : BodyIndex) (has_friction : bool)
    (id : nat) (r : nat * Registration.Plant) :
  Registration.RegisterCollisionGeometry plant body has_friction id = Ok r ->
  has_friction = true
  /\ r = (id,
          {| Registration.is_finalized := Registration.is_finalized plant;
             Registration.geometry_source_is_registered :=
               Registration.geometry_source_is_registered plant;
             Registration.geometry_id_to_body_index_ :=
               Registration.map_assign
                 (Registration.geometry_id_to_body_index_ plant) id body;
             Registration.collision_geometries_ :=
               Registration.push_back_at
                 (Registration.collision_geometries_ plant) body id;
             Registration.visual_geometries_ :=
               Registration.visual_geometries_ plant;
             Registration.num_collision_geometries_ :=
               S (Registration.num_collision_geometries_ plant);
             Registration.num_visual_geometries_ :=
               Registration.num_visual_geometries_ plant |}).
Proof.
  unfold Registration.RegisterCollisionGeometry, Registration.ThrowIfFinalized,
    DRAKE_THROW_UNLESS.
  destruct plant as [finalized registered table collision visual nc nv].
  cbn. destruct finalized; [discriminate|].
  destruct registered; [|discriminate].
  destruct has_friction; [|discriminate].
  cbn. intros H. injection H as <-. split; reflexivity.
Qed.

Lemma RegisterVisualGeometry_Ok
    (plant : Registration.Plant) (body : BodyIndex)
    (id : nat) (r : nat * Registration.Plant) :
  Registration.RegisterVisualGeometry plant body id = Ok r ->
  r = (id,
       {| Registration.is_finalized := Registration.is_finalized plant;
          Registration.geometry_source_is_registered :=
            Registration.geometry_source_is_registered plant;
          Registration.geometry_id_to_body_index_ :=
            Registration.map_assign
              (Registration.geometry_id_to_body_index_ plant) id body;
          Registration.collision_geometries_ :=
            Registration.collision_geometries_ plant;
          Registration.visual_geometries_ :=
            Registration.push_back_at
              (Registration.visual_geometries_ plant) body id;
          Registration.num_collision_geometries_ :=
            Registration.num_collision_geometries_ plant;
          Registration.num_visual_geometries_ :=
            S (Registration.num_visual_geometries_ plant) |}).
Proof.
  unfold Registration.RegisterVisualGeometry, Registration.ThrowIfFinalized,
    DRAKE_THROW_UNLESS.
  destruct plant as [finalized registered table collision visual nc nv].
  cbn. destruct finalized; [discriminate|].
  destruct registered; [|discriminate].
  cbn. intros H. injection H as <-. reflexivity.
Qed.

Lemma make_calls_keeps_tables (calls : list Registration.Call) :
  forall plant plant',
    tables_agree plant ->
    (forall c, In c calls ->
       Registration.geometry_id_to_body_index_ plant (Registration.call_id c)
       = None) ->
    NoDup (map Registration.call_id calls) ->
    Registration.make_calls plant calls = Ok plant' ->
    tables_agree plant'
    /\ Registration.num_collision_geometries_ plant' =
       (Registration.num_collision_geometries_ plant
        + List.length (filter Registration.is_collision calls))%nat
    /\ (forall body has_friction id,
          In (Registration.Collision body has_friction id) calls ->
          has_friction = true
          /\ In id (Registration.GetCollisionGeometriesForBody plant' body))
    /\ (forall body id,
          In id (Registration.GetCollisionGeometriesForBody plant body) ->
          In id (Registration.GetCollisionGeometriesForBody plant' body)).
Proof.
  induction calls as [| c rest IH]; intros plant plant' Hagree Hfresh Hdistinct H.
  - injection H as <-. cbn. rewrite Nat.add_0_r.
    refine (conj Hagree (conj eq_refl (conj _ (fun _ _ Hin => Hin)))).
    intros body f id [].
  - cbn [map] in Hdistinct. apply NoDup_cons_iff in Hdistinct.
    destruct Hdistinct as [Hnew Hdistinct].
    assert (Hc : Registration.geometry_id_to_body_index_ plant
                   (Registration.call_id c) = None)
      by (apply Hfresh; left; reflexivity).
    destruct c as [body f id | body id]; cbn [Registration.make_calls] in H;
      bind_inv H; cbn [Registration.call_id] in Hc, Hnew.
    + apply RegisterCollisionGeometry_Ok in Hx. destruct Hx as [-> ->].
      cbn [snd] in H.
      apply IH in H; [| | | exact Hdistinct].
      * destruct H as (A1 & A2 & A3 & A4). cbn in A2.
        refine (conj A1 (conj _ (conj _ _))).
        -- cbn. rewrite A2. lia.
        -- intros body' f' id' [E | Hin].
           ++ injection E as <- <- <-. split; [reflexivity|].
              apply A4. unfold Registration.GetCollisionGeometriesForBody. cbn.
              apply In_push_back_at. right. split; reflexivity.
           ++ apply A3. exact Hin.
        -- intros body' id' Hin. apply A4.
           unfold Registration.GetCollisionGeometriesForBody in *. cbn.
           apply In_push_back_at. left. exact Hin.
      * intros body' id'. cbn. unfold Registration.map_assign.
        rewrite In_push_back_at.
        intros [[Hin | [-> ->]] | Hin].
        -- destruct (Nat.eqb id' id) eqn:E.
           ++ apply Nat.eqb_eq in E. subst id'.
              rewrite (Hagree body' id (or_introl Hin)) in Hc. discriminate.
           ++ apply Hagree. left. exact Hin.
        -- rewrite Nat.eqb_refl. reflexivity.
        -- destruct (Nat.eqb id' id) eqn:E.
           ++ apply Nat.eqb_eq in E. subst id'.
              rewrite (Hagree body' id (or_intror Hin)) in Hc. discriminate.
           ++ apply Hagree. right. exact Hin.
      * intros c Hin. cbn. unfold Registration.map_assign.
        destruct (Nat.eqb (Registration.call_id c) id) eqn:E.
        -- apply Nat.eqb_eq in E. exfalso. apply Hnew. rewrite <- E.
           apply in_map. exact Hin.
        -- apply Hfresh. right. exact Hin.
    + apply RegisterVisualGeometry_Ok in Hx. subst x. cbn [snd] in H.
      apply IH in H; [| | | exact Hdistinct].
      * destruct H as (A1 & A2 & A3 & A4). cbn in A2.
        refine (conj A1 (conj A2 (conj _ _))).
        -- intros body' f' id' [E | Hin]; [discriminate|].
           apply A3. exact Hin.
        -- intros body' id' Hin. apply A4. exact Hin.
      * intros body' id'. cbn. unfold Registration.map_assign.
        rewrite In_push_back_at.
        intros [Hin | [Hin | [-> ->]]].
        -- destruct (Nat.eqb id' id) eqn:E.
           ++ apply Nat.eqb_eq in E. subst id'.
              rewrite (Hagree body' id (or_introl Hin)) in Hc. discriminate.
           ++ apply Hagree. left. exact Hin.
        -- destruct (Nat.eqb id' id) eqn:E.
           ++ apply Nat.eqb_eq in E. subst id'.
              rewrite (Hagree body' id (or_intror Hin)) in Hc. discriminate.
           ++ apply Hagree. right. exact Hin.
        -- rewrite Nat.eqb_refl. reflexivity.
      * intros c Hin. cbn. unfold Registration.map_assign.
        destruct (Nat.eqb (Registration.call_id c) id) eqn:E.
        -- apply Nat.eqb_eq in E. exfalso. apply Hnew. rewrite <- E.
           apply in_map. exact Hin.
        -- apply Hfresh. right. exact Hin.
Qed.

(** Starting from a plant whose tables agree, a series of successful
    registrations under geometry ids that are new to the plant and distinct
    from one another keeps the tables in agreement and counts one collision
    geometry per collision call.  Every collision geometry registered that
    way carried a friction property, is listed for its body, and is found
    again by [FindBodyByGeometryId] of a plant with that table, with the
    body it was registered for. *)
Theorem registered_geometries_are_found
    (plant plant' : Registration.Plant) (calls : list Registration.Call)
    (Hagree : tables_agree plant)
    (Hfresh : forall c, In c calls ->
       Registration.geometry_id_to_body_index_ plant (Registration.call_id c)
       = None)
    (Hdistinct : NoDup (map Registration.call_id calls))
    (Hcalls : Registration.make_calls plant calls = Ok plant') :
  tables_agree plant'
  /\ Registration.num_collision_geometries_ plant' =
     (Registration.num_collision_geometries_ plant
      + List.length (filter Registration.is_collision calls))%nat
  /\ forall body has_friction id,
       In (Registration.Collision body has_friction id) calls ->
       has_friction = true
       /\ In id (Registration.GetCollisionGeometriesForBody plant' body)
       /\ forall mbp : MultibodyPlant,
            geometry_id_to_body_index_ mbp =
            Registration.geometry_id_to_body_index_ plant' ->
            FindBodyByGeometryId mbp (Some id) = Ok body.
Proof.
  destruct (make_calls_keeps_tables calls plant plant'
              Hagree Hfresh Hdistinct Hcalls) as (A1 & A2 & A3 & _).
  refine (conj A1 (conj A2 _)).
  intros body f id Hin. destruct (A3 body f id Hin) as [Hf Hlisted].
  refine (conj Hf (conj Hlisted _)).
  intros mbp Htable. unfold FindBodyByGeometryId. rewrite Htable.
  rewrite (A1 body id (or_introl Hlisted)). reflexivity.
Qed.

Lemma registered_geometries_are_found_witness :
  exists plant',
    Registration.make_calls Registration.fresh_plant
      [Registration.Collision 1%nat true 7%nat; Registration.Visual 1%nat 8%nat;
       Registration.Collision 0%nat true 9%nat] = Ok plant'
    /\ tables_agree plant'
    /\ Registration.num_collision_geometries_ plant' = 2%nat.
Proof.
  assert (Hrun : exists plant',
    Registration.make_calls Registration.fresh_plant
      [Registration.Collision 1%nat true 7%nat; Registration.Visual 1%nat 8%nat;
       Registration.Collision 0%nat true 9%nat] = Ok plant')
    by (eexists; reflexivity).
  destruct Hrun as [plant' Hrun]. exists plant'. split; [exact Hrun|].
  destruct (registered_geometries_are_found Registration.fresh_plant plant'
              [Registration.Collision 1%nat true 7%nat;
               Registration.Visual 1%nat 8%nat;
               Registration.Collision 0%nat true 9%nat])
    as (A1 & A2 & _).
  - intros body id [[] | []].
  - intros c _. reflexivity.
  - repeat constructor; cbn; intuition discriminate.
  - exact Hrun.
  - split; [exact A1 | exact A2].
Defined.

(** ** Actuation: what a successful assembly returns *)

Lemma hasNaN_app (u v : list double) :
  hasNaN (u ++ v) = hasNaN u || hasNaN v.
Proof. unfold hasNaN. apply existsb_app. Qed.

Lemma assemble_instances_Ok
    (plant : ActuationPlant) (context : ActuationContext)
    (instances : list ModelInstanceIndex) :
  forall acc u,
    assemble_instances plant context instances acc = Ok u ->
    u = acc ++ instance_segments plant context instances
    /\ hasNaN (instance_segments plant context instances) = false
    /\ forall i, In i instances -> num_actuated_dofs plant i <> 0%nat ->
         exists u_instance,
           instance_actuation_ports_ context i = Some u_instance
           /\ hasNaN u_instance = false.
Proof.
  induction instances as [| i rest IH]; intros acc u H; cbn in H.
  - injection H as <-. cbn. rewrite app_nil_r.
    refine (conj eq_refl (conj eq_refl _)). intros i [].
  - unfold instance_segments. cbn [flat_map].
    fold (instance_segments plant context rest).
    destruct (Nat.eqb (num_actuated_dofs plant i) 0) eqn:Hd.
    + destruct (IH _ _ H) as (E & N & P).
      refine (conj E (conj N _)).
      intros j [<- | Hj] Hdj; [apply Nat.eqb_eq in Hd; contradiction|].
      apply P; assumption.
    + destruct (instance_actuation_ports_ context i) as [u_i |] eqn:Hp;
        [|discriminate].
      destruct (hasNaN u_i) eqn:Hn; [discriminate|].
      destruct (IH _ _ H) as (E & N & P).
      refine (conj _ (conj _ _)).
      * rewrite E, <- app_assoc. reflexivity.
      * rewrite hasNaN_app, Hn, N. reflexivity.
      * intros j [<- | Hj] Hdj.
        -- exists u_i. split; assumption.
        -- apply P; assumption.
Qed.

(** A successful assembly never returns a NaN.  When the port for all
    instances has a value, the result is that value and no other instance
    than the world has a value on its own port.  When it has none, the
    result is the values of the ports of the instances with actuated degrees
    of freedom, laid out by increasing model instance index from index 1 on,
    each of them connected and free of NaN; the ports of the world and of
    instances without actuated degrees of freedom are not looked at. *)
Theorem assembled_actuation_is_laid_out_by_instance
    (plant : ActuationPlant) (context : ActuationContext) (u : list double)
    (Hassembled : AssembleActuationInput plant context = Ok u) :
  hasNaN u = false
  /\ (forall all_instances,
        actuation_port_ context = Some all_instances ->
        u = all_instances
        /\ forall i, (1 <= i < num_model_instances plant)%nat ->
             instance_actuation_ports_ context i = None)
  /\ (actuation_port_ context = None ->
        u = instance_segments plant context
              (seq 1 (num_model_instances plant - 1))
        /\ forall i, (1 <= i < num_model_instances plant)%nat ->
             num_actuated_dofs plant i <> 0%nat ->
             exists u_instance,
               instance_actuation_ports_ context i = Some u_instance
               /\ hasNaN u_instance = false).
Proof.
  unfold AssembleActuationInput in Hassembled.
  destruct (actuation_port_ context) as [all |] eqn:Hport.
  - bind_inv Hassembled.
    destruct (hasNaN all) eqn:Hn; [discriminate|].
    injection Hassembled as <-.
    refine (conj Hn (conj _ _)); [|discriminate].
    intros all' E. injection E as <-. split; [reflexivity|].
    intros i Hi.
    destruct (instance_actuation_ports_ context i) as [v |] eqn:Hv;
      [|reflexivity].
    exfalso.
    destruct (check_no_instance_port_fails plant context
                (non_world_instances plant)) as (j & _ & _ & Hfail).
    + exists i. split; [apply In_non_world_instances; exact Hi|].
      rewrite Hv. reflexivity.
    + rewrite Hfail in Hx. discriminate.
  - apply assemble_instances_Ok in Hassembled.
    destruct Hassembled as (E & N & P). cbn in E. subst u.
    refine (conj N (conj _ _)); [discriminate|].
    intros _. split; [reflexivity|].
    intros i Hi. apply P. apply In_non_world_instances. exact Hi.
Qed.

Lemma assembled_actuation_is_laid_out_by_instance_witness :
  AssembleActuationInput two_arms arms_fed_separately = Ok [Fin 5; Fin 7]
  /\ hasNaN [Fin 5; Fin 7] = false.
Proof.
  assert (H : AssembleActuationInput two_arms arms_fed_separately =
              Ok [Fin 5; Fin 7]) by reflexivity.
  split; [exact H|].
  exact (proj1 (assembled_actuation_is_laid_out_by_instance _ _ _ H)).
Defined.

(** ** Forces from the input ports *)

Lemma spatial_loop_passes
    (plant : InputPorts.Plant) (ext : Collaborators)
    (context : InputPorts.Context)
    (before : list InputPorts.ExternallyAppliedSpatialForce) :
  forall F,
    (forall f, In f before -> InputPorts.throw_if_contains_nan plant f = Ok tt) ->
    exists F',
      InputPorts.AddAppliedExternalSpatialForces_loop plant ext context
        before F = (Ok tt, F').
Proof.
  induction before as [| f rest IH]; intros F Hpass; cbn.
  - eexists. reflexivity.
  - rewrite (Hpass f (or_introl eq_refl)).
    apply IH. intros g Hg. apply Hpass. right. exact Hg.
Qed.

Lemma spatial_loop_app
    (plant : InputPorts.Plant) (ext : Collaborators)
    (context : InputPorts.Context)
    (before after : list InputPorts.ExternallyAppliedSpatialForce) :
  forall F F',
    InputPorts.AddAppliedExternalSpatialForces_loop plant ext context
      before F = (Ok tt, F') ->
    InputPorts.AddAppliedExternalSpatialForces_loop plant ext context
      (before ++ after) F =
    InputPorts.AddAppliedExternalSpatialForces_loop plant ext context after F'.
Proof.
  induction before as [| f rest IH]; intros F F' H; cbn in *.
  - injection H as <-. reflexivity.
  - destruct (InputPorts.throw_if_contains_nan plant f); [|discriminate].
    apply IH. exact H.
Qed.

(** The three kinds of input are taken in a fixed order, and what has
    been added when an error is raised stays in the accumulator.  A NaN in
    the applied generalized force is reported first, with the accumulator
    untouched, whatever the other ports hold.  Otherwise the first applied
    spatial force that contains a NaN is reported by the name of its body;
    by then the generalized forces hold the applied generalized force and
    the body forces hold the spatial forces that preceded it in the list,
    and the actuation has not been looked at. *)
Theorem input_port_errors_come_in_order
    (plant : InputPorts.Plant) (ext : Collaborators)
    (context : InputPorts.Context) (forces : InputPorts.MultibodyForces) :
  (forall applied,
     InputPorts.applied_generalized_force_input context = Some applied ->
     hasNaN applied = true ->
     InputPorts.AddInForcesFromInputPorts plant ext context forces =
     (Err (RuntimeError "Detected NaN in applied generalized force input port."),
      forces))
  /\ (forall before bad after tau,
        InputPorts.AddAppliedExternalGeneralizedForces context forces =
          (Ok tt, tau) ->
        InputPorts.applied_spatial_force_input context =
          Some (before ++ bad :: after) ->
        (forall f, In f before ->
           InputPorts.throw_if_contains_nan plant f = Ok tt) ->
        InputPorts.throw_if_contains_nan plant bad <> Ok tt ->
        exists F,
          InputPorts.AddAppliedExternalSpatialForces_loop plant ext context
            before (InputPorts.body_forces forces) = (Ok tt, F)
          /\ InputPorts.AddInForcesFromInputPorts plant ext context forces =
             (Err (RuntimeError
                     ("Spatial force applied on body " ++
                      InputPorts.body_name plant (InputPorts.body_index bad) ++
                      " contains NaN.")%string),
              {| InputPorts.body_forces := F;
                 InputPorts.generalized_forces :=
                   InputPorts.generalized_forces tau |})).
Proof.
  split.
  - intros applied Hport Hnan.
    unfold InputPorts.AddInForcesFromInputPorts, InputPorts.and_then,
      InputPorts.AddAppliedExternalGeneralizedForces.
    rewrite Hport, Hnan. reflexivity.
  - intros before bad after tau Hgen Hport Hpass Hbad.
    destruct (spatial_loop_passes plant ext context before
                (InputPorts.body_forces forces) Hpass) as [F HF].
    exists F. split; [exact HF|].
    assert (Hbody : InputPorts.body_forces tau = InputPorts.body_forces forces).
    { unfold InputPorts.AddAppliedExternalGeneralizedForces in Hgen.
      destruct (InputPorts.applied_generalized_force_input context) as [a|].
      - destruct (hasNaN a); [discriminate|]. injection Hgen as <-. reflexivity.
      - injection Hgen as <-. reflexivity. }
    unfold InputPorts.AddInForcesFromInputPorts, InputPorts.and_then.
    rewrite Hgen.
    unfold InputPorts.AddAppliedExternalSpatialForces at 1.
    rewrite Hport, Hbody.
    rewrite (spatial_loop_app plant ext context before (bad :: after) _ _ HF).
    cbn [InputPorts.AddAppliedExternalSpatialForces_loop].
    unfold InputPorts.throw_if_contains_nan in *.
    destruct (InputPorts.v3_hasNaN (InputPorts.p_BoBq_B bad)
              || InputPorts.v3_hasNaN
                   (force_rotational (InputPorts.F_Bq_W bad))
              || InputPorts.v3_hasNaN
                   (force_translational (InputPorts.F_Bq_W bad)));
      [reflexivity | contradiction].
Qed.

Lemma input_port_errors_come_in_order_witness :
  exists F,
    InputPorts.AddInForcesFromInputPorts InputPorts.two_arm_plant
      (example_collaborators (box_plant kPoint))
      InputPorts.second_push_broken InputPorts.resting_forces =
    (Err (RuntimeError "Spatial force applied on body right_hand contains NaN."),
     {| InputPorts.body_forces := F;
        InputPorts.generalized_forces := [Fin (0 + 1); Fin (0 + 1)] |}).
Proof.
  destruct (input_port_errors_come_in_order InputPorts.two_arm_plant
              (example_collaborators (box_plant kPoint))
              InputPorts.second_push_broken InputPorts.resting_forces)
    as [_ Hspatial].
  destruct (Hspatial
              [InputPorts.mkExternallyAppliedSpatialForce 1%nat v3_zero
                 InputPorts.push_up]
              (InputPorts.mkExternallyAppliedSpatialForce 2%nat v3_zero
                 InputPorts.broken_push)
              []
              {| InputPorts.body_forces :=
                   InputPorts.body_forces InputPorts.resting_forces;
                 InputPorts.generalized_forces := [Fin (0 + 1); Fin (0 + 1)] |}
              eq_refl eq_refl)
    as (F & _ & E).
  - intros f [<- | []]. reflexivity.
  - cbn. discriminate.
  - exists F. exact E.
Defined.

(** ** Actuation: the forces added are the actuation matrix times the input *)

Lemma MakeActuationMatrix_loop_fold
    (plant : InputPorts.Plant) (actuators : list nat) :
  forall B,
    (forall a, In a actuators -> InputPorts.joint_num_velocities plant a = 1%nat) ->
    InputPorts.MakeActuationMatrix_loop plant actuators B =
    Ok (fold_left
          (fun B a =>
             InputPorts.set_coefficient B
               (InputPorts.joint_velocity_start plant a) a (Fin 1))
          actuators B).
Proof.
  induction actuators as [| a rest IH]; intros B Hone; cbn.
  - reflexivity.
  - rewrite (Hone a (or_introl eq_refl)). cbn.
    apply IH. intros b Hb. apply Hone. right. exact Hb.
Qed.

Lemma coeff_fold_set_coefficient
    (velocity_start : nat -> nat) (actuators : list nat) :
  forall B i c,
    InputPorts.coeff
      (fold_left
         (fun B a => InputPorts.set_coefficient B (velocity_start a) a (Fin 1))
         actuators B) i c =
    if existsb (Nat.eqb c) actuators && Nat.eqb (velocity_start c) i
    then Fin 1 else InputPorts.coeff B i c.
Proof.
  induction actuators as [| a rest IH]; intros B i c; cbn [fold_left existsb].
  - reflexivity.
  - rewrite IH. cbn [InputPorts.set_coefficient InputPorts.coeff].
    destruct (Nat.eqb c a) eqn:Eca;
      destruct (existsb (Nat.eqb c) rest);
      destruct (Nat.eqb (velocity_start c) i) eqn:Ev;
      destruct (Nat.eqb i (velocity_start a)) eqn:Eia;
      cbn; try reflexivity;
      repeat match goal with
             | H : Nat.eqb _ _ = true |- _ => apply Nat.eqb_eq in H
             | H : Nat.eqb _ _ = false |- _ => apply Nat.eqb_neq in H
             end;
      subst; congruence.
Qed.

Lemma dadd_0_r (t : double) : dadd t (Fin 0) = t.
Proof. destruct t; cbn; try reflexivity. f_equal. ring. Qed.

Lemma dadd_Fin_assoc (t : double) (x y z : R) :
  z = x + y -> dadd (dadd t (Fin x)) (Fin y) = dadd t (Fin z).
Proof. intros ->. destruct t; cbn; try reflexivity. f_equal. ring. Qed.

Lemma row_times_selection
    (B : InputPorts.Matrix) (velocity_start : nat -> nat) (i : nat)
    (u_values : list R) :
  forall k,
    (forall c, (k <= c < k + List.length u_values)%nat ->
       InputPorts.coeff B i c =
       if Nat.eqb (velocity_start c) i then Fin 1 else Fin 0) ->
    exists r, InputPorts.row_times B i k (map Fin u_values) = Fin r.
Proof.
  induction u_values as [| x rest IH]; intros k Hc; cbn.
  - eexists. reflexivity.
  - destruct (IH (S k)) as [r Hr].
    { intros c Hrange. apply Hc. cbn. lia. }
    rewrite Hr, (Hc k) by (cbn; lia).
    destruct (Nat.eqb (velocity_start k) i); cbn; eexists; reflexivity.
Qed.

Lemma nth_error_generalized_add (tau : list double) (j i : nat) (x t : double) :
  nth_error tau i = Some t ->
  nth_error (InputPorts.generalized_add tau j x) i =
  Some (if Nat.eqb j i then dadd t x else t).
Proof.
  intros Ht. unfold InputPorts.generalized_add.
  destruct (Nat.eqb j i) eqn:E.
  - apply Nat.eqb_eq in E. subst j. rewrite Ht.
    apply (nth_error_list_update_same _ _ _ t). exact Ht.
  - apply Nat.eqb_neq in E.
    destruct (nth_error tau j); [|exact Ht].
    rewrite nth_error_list_update_other by exact E. exact Ht.
Qed.

Lemma actuation_loop_adds_row_times
    (plant : InputPorts.Plant) (B : InputPorts.Matrix) (i : nat)
    (u_values : list R) :
  (forall a dof tau f,
     InputPorts.AddInOneForce plant a dof tau f =
     InputPorts.adds_at_velocity_start
       (InputPorts.joint_velocity_start plant) a dof tau f) ->
  forall (before : list double) (forces : InputPorts.MultibodyForces) (t : double),
    (forall a, (List.length before <= a
                < List.length before + List.length u_values)%nat ->
       InputPorts.joint_num_velocities plant a = 1%nat
       /\ InputPorts.coeff B i a =
          if Nat.eqb (InputPorts.joint_velocity_start plant a) i
          then Fin 1 else Fin 0) ->
    nth_error (InputPorts.generalized_forces forces) i = Some t ->
    exists forces',
      InputPorts.AddJointActuationForces_loop plant
        (before ++ map Fin u_values)
        (seq (List.length before) (List.length u_values)) forces =
        (Ok tt, forces')
      /\ InputPorts.body_forces forces' = InputPorts.body_forces forces
      /\ nth_error (InputPorts.generalized_forces forces') i =
         Some (dadd t (InputPorts.row_times B i (List.length before)
                         (map Fin u_values))).
Proof.
  intros Hadd.
  induction u_values as [| x rest IH]; intros before forces t Hrange Ht.
  - exists forces. cbn. rewrite dadd_0_r. repeat split. exact Ht.
  - cbn [List.length seq InputPorts.AddJointActuationForces_loop map
         InputPorts.row_times].
    destruct (Hrange (List.length before)) as [Hone Hcoeff]; [cbn; lia|].
    rewrite Hone, Nat.eqb_refl.
    rewrite nth_error_app2 by lia. rewrite Nat.sub_diag. cbn [nth_error].
    rewrite Hadd. unfold InputPorts.adds_at_velocity_start.
    rewrite Nat.add_0_r.
    set (forces1 :=
           {| InputPorts.body_forces := InputPorts.body_forces forces;
              InputPorts.generalized_forces :=
                InputPorts.generalized_add
                  (InputPorts.generalized_forces forces)
                  (InputPorts.joint_velocity_start plant (List.length before))
                  (Fin x) |}).
    specialize (IH (before ++ [Fin x]) forces1
                  (if Nat.eqb (InputPorts.joint_velocity_start plant
                                 (List.length before)) i
                   then dadd t (Fin x) else t)).
    rewrite length_app in IH. cbn [List.length] in IH.
    rewrite Nat.add_1_r in IH. rewrite <- app_assoc in IH. cbn [app] in IH.
    destruct IH as (forces' & Hloop & Hbody & Hnth).
    + intros a Ha. apply Hrange. cbn. lia.
    + apply nth_error_generalized_add. exact Ht.
    + exists forces'. refine (conj Hloop (conj Hbody _)).
      rewrite Hnth. f_equal.
      destruct (row_times_selection B (InputPorts.joint_velocity_start plant)
                  i rest (S (List.length before))) as [r Hr].
      { intros c Hc. apply Hrange. cbn. lia. }
      rewrite Hr, Hcoeff.
      destruct (Nat.eqb (InputPorts.joint_velocity_start plant
                           (List.length before)) i); cbn [dmul dadd].
      * apply dadd_Fin_assoc. ring.
      * f_equal. f_equal. ring.
Qed.

Lemma actuation_loop_succeeds
    (plant : InputPorts.Plant) (u : list double) (actuators : list nat) :
  (forall a, In a actuators -> InputPorts.joint_num_velocities plant a = 1%nat) ->
  forall forces,
    exists forces',
      InputPorts.AddJointActuationForces_loop plant u actuators forces =
      (Ok tt, forces').
Proof.
  induction actuators as [| a rest IH]; intros Hone forces; cbn.
  - eexists. reflexivity.
  - rewrite (Hone a (or_introl eq_refl)). cbn.
    apply IH. intros b Hb. apply Hone. right. exact Hb.
Qed.

(** The joint actuation forces are the actuation matrix times the
    actuation input.  On a plant whose actuators all drive joints of one
    degree of freedom, and whose actuators add their value to the
    generalized force at the velocity index of their joint, with an
    assembled actuation [u] of one finite value per actuator:
    [MakeActuationMatrix] returns a matrix [B], [AddJointActuationForces]
    succeeds, leaves the body forces alone, and adds to every generalized
    force [i] the product of row [i] of [B] with [u]. *)
Theorem actuation_forces_are_matrix_times_input
    (plant : InputPorts.Plant) (context : InputPorts.Context)
    (forces : InputPorts.MultibodyForces) (u_values : list R)
    (Hactuators : (0 < InputPorts.num_actuators plant)%nat)
    (Hone : forall a, (a < InputPorts.num_actuators plant)%nat ->
              InputPorts.joint_num_velocities plant a = 1%nat)
    (Hadd : forall a dof tau f,
              InputPorts.AddInOneForce plant a dof tau f =
              InputPorts.adds_at_velocity_start
                (InputPorts.joint_velocity_start plant) a dof tau f)
    (Hassembled :
       AssembleActuationInput (InputPorts.actuation_plant plant)
         (InputPorts.actuation_context context) = Ok (map Fin u_values))
    (Hsize : List.length u_values = InputPorts.num_actuators plant) :
  exists B forces',
    InputPorts.MakeActuationMatrix plant = Ok B
    /\ InputPorts.AddJointActuationForces plant context forces =
       (Ok tt, forces')
    /\ InputPorts.body_forces forces' = InputPorts.body_forces forces
    /\ forall i t,
         nth_error (InputPorts.generalized_forces forces) i = Some t ->
         nth_error (InputPorts.generalized_forces forces') i =
         Some (dadd t (InputPorts.row_times B i 0 (map Fin u_values))).
Proof.
  assert (Hin : forall a, In a (seq 0 (InputPorts.num_actuators plant)) ->
                  InputPorts.joint_num_velocities plant a = 1%nat).
  { intros a Ha. apply in_seq in Ha. apply Hone. lia. }
  unfold InputPorts.MakeActuationMatrix.
  rewrite (MakeActuationMatrix_loop_fold plant _ _ Hin).
  eexists. 
  unfold InputPorts.AddJointActuationForces.
  apply Nat.ltb_lt in Hactuators. rewrite Hactuators, Hassembled.
  destruct (actuation_loop_succeeds plant (map Fin u_values) _ Hin forces)
    as [forces' Hloop].
  exists forces'. split; [reflexivity|]. split; [exact Hloop|].
  set (B := fold_left _ _ _).
  assert (Hpoint : forall i t,
    nth_error (InputPorts.generalized_forces forces) i = Some t ->
    InputPorts.body_forces forces' = InputPorts.body_forces forces
    /\ nth_error (InputPorts.generalized_forces forces') i =
       Some (dadd t (InputPorts.row_times B i 0 (map Fin u_values)))).
  { intros i t Ht.
    destruct (actuation_loop_adds_row_times plant B i u_values Hadd
                [] forces t) as (forces'' & Hloop' & Hbody & Hnth).
    - intros a Ha. cbn in Ha. split; [apply Hone; lia|].
      unfold B. rewrite coeff_fold_set_coefficient. cbn.
      assert (Hex : existsb (Nat.eqb a) (seq 0 (InputPorts.num_actuators plant))
                    = true).
      { apply existsb_exists. exists a. split; [|apply Nat.eqb_refl].
        apply in_seq. lia. }
      rewrite Hex. cbn.
      destruct (Nat.eqb (InputPorts.joint_velocity_start plant a) i);
        reflexivity.
    - exact Ht.
    - cbn [List.length app] in Hloop'. rewrite Hsize in Hloop'.
      rewrite Hloop in Hloop'. injection Hloop' as <-.
      split; assumption. }
  split.
  - destruct (InputPorts.generalized_forces forces) as [| t rest] eqn:Eg.
    + (* no generalized force: the body forces are left alone all the same *)
      clear Hpoint. revert forces forces' Hloop Eg.
      generalize (seq 0 (InputPorts.num_actuators plant)) as actuators.
      induction actuators as [| a rest IH]; intros forces forces' H Eg;
        cbn in H.
      * injection H as <-. reflexivity.
      * destruct (Nat.eqb (InputPorts.joint_num_velocities plant a) 1);
          [|discriminate].
        destruct (nth_error (map Fin u_values) a) as [x|].
        -- rewrite Hadd in H.
           apply IH in H; [exact H|].
           cbn. unfold InputPorts.generalized_add. rewrite Eg.
           destruct (InputPorts.joint_velocity_start plant a + 0)%nat;
             reflexivity.
        -- apply IH in H; assumption.
    + apply (Hpoint 0%nat t). reflexivity.
  - intros i t Ht. apply (Hpoint i t Ht).
Qed.

Lemma actuation_forces_are_matrix_times_input_witness :
  exists B forces',
    InputPorts.MakeActuationMatrix InputPorts.two_arm_plant = Ok B
    /\ InputPorts.AddJointActuationForces InputPorts.two_arm_plant
         InputPorts.arms_driven InputPorts.resting_forces = (Ok tt, forces')
    /\ nth_error (InputPorts.generalized_forces forces') 0 =
       Some (dadd (Fin 0) (InputPorts.row_times B 0 0 [Fin 5; Fin 7])).
Proof.
  destruct (actuation_forces_are_matrix_times_input InputPorts.two_arm_plant
              InputPorts.arms_driven InputPorts.resting_forces [5; 7])
    as (B & forces' & HB & Hforces & _ & Hrows).
  - cbn. lia.
  - intros a _. reflexivity.
  - intros a dof tau f. reflexivity.
  - reflexivity.
  - reflexivity.
  - exists B, forces'. refine (conj HB (conj Hforces _)).
    apply (Hrows 0%nat (Fin 0)). reflexivity.
Defined.

Lemma MakeActuationMatrix_loop_Ok
    (plant : InputPorts.Plant) (actuators : list nat) :
  forall B B',
    InputPorts.MakeActuationMatrix_loop plant actuators B = Ok B' ->
    forall a, In a actuators -> InputPorts.joint_num_velocities plant a = 1%nat.
Proof.
  induction actuators as [| a rest IH]; intros B B' H b Hb.
  - destruct Hb.
  - cbn [InputPorts.MakeActuationMatrix_loop] in H. bind_inv H.
    unfold DRAKE_DEMAND in Hx.
    destruct (Nat.eqb (InputPorts.joint_num_velocities plant a) 1) eqn:E;
      [|discriminate].
    destruct Hb as [<- | Hb].
    + apply Nat.eqb_eq. exact E.
    + eapply IH; eassumption.
Qed.

Lemma fold_set_coefficient_sizes
    (velocity_start : nat -> nat) (actuators : list nat) :
  forall B,
    let B' := fold_left
                (fun B a =>
                   InputPorts.set_coefficient B (velocity_start a) a (Fin 1))
                actuators B in
    InputPorts.rows B' = InputPorts.rows B
    /\ InputPorts.cols B' = InputPorts.cols B.
Proof.
  induction actuators as [| a rest IH]; intros B; cbn.
  - split; reflexivity.
  - destruct (IH (InputPorts.set_coefficient B (velocity_start a) a (Fin 1)))
      as [R C].
    cbn in R, C. split; assumption.
Qed.

(** The actuation matrix selects velocities.  [MakeActuationMatrix]
    succeeds exactly when every actuator drives a joint of one degree of
    freedom.  The matrix it returns has one row per velocity and one column
    per actuated degree of freedom; the column of actuator [a] holds a 1 in
    the row of the velocity of the joint of [a] and 0 elsewhere, and the
    columns past the actuators are 0. *)
Theorem actuation_matrix_selects_velocities (plant : InputPorts.Plant) :
  ((exists B, InputPorts.MakeActuationMatrix plant = Ok B)
   <-> forall a, (a < InputPorts.num_actuators plant)%nat ->
         InputPorts.joint_num_velocities plant a = 1%nat)
  /\ forall B,
       InputPorts.MakeActuationMatrix plant = Ok B ->
       InputPorts.rows B = InputPorts.num_velocities plant
       /\ InputPorts.cols B = InputPorts.num_actuated_dofs plant
       /\ forall i a,
            InputPorts.coeff B i a =
            if Nat.ltb a (InputPorts.num_actuators plant)
               && Nat.eqb (InputPorts.joint_velocity_start plant a) i
            then Fin 1 else Fin 0.
Proof.
  unfold InputPorts.MakeActuationMatrix.
  split; [split|].
  - intros [B HB] a Ha.
    apply (MakeActuationMatrix_loop_Ok plant _ _ _ HB).
    apply in_seq. lia.
  - intros Hone. eexists. apply MakeActuationMatrix_loop_fold.
    intros a Ha. apply in_seq in Ha. apply Hone. lia.
  - intros B HB.
    rewrite MakeActuationMatrix_loop_fold in HB.
    + injection HB as <-.
      destruct (fold_set_coefficient_sizes
                  (InputPorts.joint_velocity_start plant)
                  (seq 0 (InputPorts.num_actuators plant))
                  (InputPorts.Matrix_Zero (InputPorts.num_velocities plant)
                     (InputPorts.num_actuated_dofs plant))) as [R C].
      refine (conj R (conj C _)).
      intros i a. rewrite coeff_fold_set_coefficient.
      replace (existsb (Nat.eqb a) (seq 0 (InputPorts.num_actuators plant)))
        with (Nat.ltb a (InputPorts.num_actuators plant)); [reflexivity|].
      destruct (Nat.ltb a (InputPorts.num_actuators plant)) eqn:E.
      * symmetry. apply existsb_exists. exists a.
        split; [|apply Nat.eqb_refl]. apply in_seq. apply Nat.ltb_lt in E. lia.
      * symmetry. apply not_true_is_false. intros Hex.
        apply existsb_exists in Hex. destruct Hex as (b & Hb & Eb).
        apply Nat.eqb_eq in Eb. subst b. apply in_seq in Hb.
        apply Nat.ltb_ge in E. lia.
    + apply (MakeActuationMatrix_loop_Ok plant _ _ _ HB).
Qed.

Lemma actuation_matrix_selects_velocities_witness :
  exists B,
    InputPorts.MakeActuationMatrix InputPorts.two_arm_plant = Ok B
    /\ InputPorts.coeff B 1 0 = Fin 1
    /\ InputPorts.coeff B 0 0 = Fin 0.
Proof.
  destruct (actuation_matrix_selects_velocities InputPorts.two_arm_plant)
    as [Hsucceeds Hshape].
  destruct (proj2 Hsucceeds (fun a _ => eq_refl)) as [B HB].
  exists B. split; [exact HB|].
  destruct (Hshape B HB) as (_ & _ & Hcoeff).
  split; rewrite Hcoeff; reflexivity.
Defined.

(** ** Applied spatial forces touch only the bodies they name *)

Lemma index_add_frame (array : list SpatialForce) (i : nat) (F : SpatialForce) :
  List.length (InputPorts.index_add array i F) = List.length array
  /\ forall n, i <> n ->
       nth_error (InputPorts.index_add array i F) n = nth_error array n.
Proof.
  unfold InputPorts.index_add. destruct (nth_error array i).
  - split; [apply length_list_update|].
    intros n Hn. apply nth_error_list_update_other. exact Hn.
  - split; reflexivity.
Qed.

(** Whether it ends well or with an error, the loop over the applied
    spatial forces keeps the number of body forces and leaves alone the
    entry of every node that is not the node of a body named by one of the
    forces.  A force free of NaN is added, shifted to the body origin, to the
    entry of the node of its body, the world body included: there is no
    exemption for the world here. *)
Theorem applied_spatial_forces_touch_only_their_bodies
    (plant : InputPorts.Plant) (ext : Collaborators)
    (context : InputPorts.Context)
    (applied_input : list InputPorts.ExternallyAppliedSpatialForce) :
  (forall F outcome F',
     InputPorts.AddAppliedExternalSpatialForces_loop plant ext context
       applied_input F = (outcome, F') ->
     List.length F' = List.length F
     /\ forall n,
          (forall f, In f applied_input ->
             InputPorts.node_index plant (InputPorts.body_index f) <> n) ->
          nth_error F' n = nth_error F n)
  /\ (forall F f G,
        InputPorts.throw_if_contains_nan plant f = Ok tt ->
        nth_error F (InputPorts.node_index plant (InputPorts.body_index f)) =
          Some G ->
        exists F',
          InputPorts.AddAppliedExternalSpatialForces_loop plant ext context
            [f] F = (Ok tt, F')
          /\ nth_error F'
               (InputPorts.node_index plant (InputPorts.body_index f)) =
             Some (SpatialForce_add G
                     (force_Shift ext (InputPorts.F_Bq_W f)
                        (v3_neg (InputPorts.rotate_to_world context
                                   (InputPorts.body_index f)
                                   (InputPorts.p_BoBq_B f)))))).
Proof.
  split.
  - induction applied_input as [| f rest IH]; intros F outcome F' H; cbn in H.
    + injection H as _ <-. split; reflexivity.
    + destruct (InputPorts.throw_if_contains_nan plant f).
      * apply IH in H. destruct H as [L Hframe].
        destruct (index_add_frame F
                    (InputPorts.node_index plant (InputPorts.body_index f))
                    (force_Shift ext (InputPorts.F_Bq_W f)
                       (v3_neg (InputPorts.rotate_to_world context
                                  (InputPorts.body_index f)
                                  (InputPorts.p_BoBq_B f))))) as [L1 Hframe1].
        split; [congruence|].
        intros n Hn. rewrite Hframe.
        -- apply Hframe1. apply Hn. left. reflexivity.
        -- intros g Hg. apply Hn. right. exact Hg.
      * injection H as _ <-. split; reflexivity.
  - intros F f G Hpass HG. cbn. rewrite Hpass.
    eexists. split; [reflexivity|].
    unfold InputPorts.index_add. rewrite HG.
    apply (nth_error_list_update_same _ _ _ G). exact HG.
Qed.

Lemma applied_spatial_forces_touch_only_their_bodies_witness :
  exists F',
    InputPorts.AddAppliedExternalSpatialForces_loop InputPorts.two_arm_plant
      (example_collaborators (box_plant kPoint)) InputPorts.second_push_broken
      [InputPorts.mkExternallyAppliedSpatialForce 0%nat v3_zero
         InputPorts.push_up]
      (InputPorts.body_forces InputPorts.resting_forces) = (Ok tt, F')
    /\ nth_error F' 2 = Some SpatialForce_Zero.
Proof.
  assert (Hrun : exists F',
    InputPorts.AddAppliedExternalSpatialForces_loop InputPorts.two_arm_plant
      (example_collaborators (box_plant kPoint)) InputPorts.second_push_broken
      [InputPorts.mkExternallyAppliedSpatialForce 0%nat v3_zero
         InputPorts.push_up]
      (InputPorts.body_forces InputPorts.resting_forces) = (Ok tt, F'))
    by (eexists; reflexivity).
  destruct Hrun as [F' Hrun]. exists F'. split; [exact Hrun|].
  destruct (applied_spatial_forces_touch_only_their_bodies
              InputPorts.two_arm_plant
              (example_collaborators (box_plant kPoint))
              InputPorts.second_push_broken
              [InputPorts.mkExternallyAppliedSpatialForce 0%nat v3_zero
                 InputPorts.push_up]) as [Hframe _].
  destruct (Hframe _ _ _ Hrun) as [_ Hother].
  rewrite (Hother 2%nat); [reflexivity|].
  intros f [<- | []]. cbn. discriminate.
Defined.

(** ** The velocities of the joints that are not locked *)

Lemma Sorted_le_of_leb (l : list nat) :
  Sorted (fun x y => is_true (NatOrder.leb x y)) l -> Sorted le l.
Proof.
  induction 1 as [| a l Hs IH Hhd]; constructor.
  - exact IH.
  - destruct Hhd as [| b l Hab]; constructor.
    apply Nat.leb_le. exact Hab.
Qed.

Lemma In_unlocked_velocities (joints : list Locking.Joint) (v : nat) :
  In v (Locking.unlocked_velocities joints) <->
  exists joint,
    In joint joints /\ Locking.is_locked joint = false
    /\ (Locking.velocity_start joint <= v
        < Locking.velocity_start joint + Locking.num_velocities joint)%nat.
Proof.
  unfold Locking.unlocked_velocities. rewrite in_flat_map. split.
  - intros (joint & Hin & Hv). exists joint. split; [exact Hin|].
    destruct (Locking.is_locked joint); cbn in Hv; [destruct Hv|].
    split; [reflexivity|].
    apply in_map_iff in Hv. destruct Hv as (k & <- & Hk).
    apply in_seq in Hk. lia.
  - intros (joint & Hin & Hl & Hv). exists joint. split; [exact Hin|].
    rewrite Hl. cbn. apply in_map_iff.
    exists (v - Locking.velocity_start joint)%nat. split; [lia|].
    apply in_seq. lia.
Qed.

Lemma length_unlocked_velocities (joints : list Locking.Joint) :
  List.length (Locking.unlocked_velocities joints) =
  list_sum (map Locking.num_velocities
              (filter (fun joint => negb (Locking.is_locked joint)) joints)).
Proof.
  unfold Locking.unlocked_velocities.
  induction joints as [| joint rest IH]; cbn [flat_map filter].
  - reflexivity.
  - rewrite length_app, IH.
    destruct (Locking.is_locked joint); cbn [negb map list_sum List.length].
    + reflexivity.
    + rewrite length_map, length_seq. reflexivity.
Qed.

(** The unlocked velocity indices come out sorted.  Whatever the check
    [DemandIndicesValid] is, a result of [CalcJointLockingIndices] is in
    non-decreasing order, is a rearrangement of the velocity indices of the
    joints that are not locked (so it holds a velocity exactly when an
    unlocked joint owns it), and has as many entries as these joints have
    velocities; the function fails only when [DemandIndicesValid] does, with
    its error: the demand on the size cannot fail. *)
Theorem unlocked_velocity_indices_are_sorted
    (DemandIndicesValid : list nat -> nat -> result unit)
    (plant_num_velocities : nat) (joints : list Locking.Joint) :
  (forall indices,
     Locking.CalcJointLockingIndices DemandIndicesValid plant_num_velocities
       joints = Ok indices ->
     Sorted le indices
     /\ Permutation (Locking.unlocked_velocities joints) indices
     /\ (forall v, In v indices <->
           exists joint,
             In joint joints /\ Locking.is_locked joint = false
             /\ (Locking.velocity_start joint <= v
                 < Locking.velocity_start joint
                   + Locking.num_velocities joint)%nat)
     /\ List.length indices =
        list_sum (map Locking.num_velocities
                    (filter (fun joint => negb (Locking.is_locked joint))
                       joints)))
  /\ (forall e,
        Locking.CalcJointLockingIndices DemandIndicesValid plant_num_velocities
          joints = Err e ->
        DemandIndicesValid
          (NatSort.sort (Locking.unlocked_velocities joints))
          plant_num_velocities = Err e).
Proof.
  assert (Hlen : List.length (NatSort.sort (Locking.unlocked_velocities joints))
                 = List.length (Locking.unlocked_velocities joints)).
  { symmetry. apply Permutation_length, NatSort.Permuted_sort. }
  unfold Locking.CalcJointLockingIndices. cbv zeta.
  rewrite Hlen, Nat.eqb_refl. cbn [DRAKE_DEMAND].
  split.
  - intros indices H.
    destruct (DemandIndicesValid _ plant_num_velocities); [|discriminate].
    cbn in H. injection H as <-.
    pose proof (NatSort.Permuted_sort (Locking.unlocked_velocities joints))
      as Hperm.
    refine (conj _ (conj Hperm (conj _ _))).
    + apply Sorted_le_of_leb, NatSort.Sorted_sort.
    + intros v. rewrite <- In_unlocked_velocities. split.
      * apply Permutation_in. symmetry. exact Hperm.
      * apply Permutation_in. exact Hperm.
    + rewrite Hlen. apply length_unlocked_velocities.
  - intros e H.
    destruct (DemandIndicesValid _ plant_num_velocities); [discriminate|].
    cbn in H. injection H as <-. reflexivity.
Qed.

Lemma unlocked_velocity_indices_are_sorted_witness :
  Locking.CalcJointLockingIndices (fun _ _ => Ok tt) 5 Locking.three_joints =
    Ok [0; 1; 3; 4]%nat
  /\ Sorted le [0; 1; 3; 4]%nat.
Proof.
  assert (H : Locking.CalcJointLockingIndices (fun _ _ => Ok tt) 5
                Locking.three_joints = Ok [0; 1; 3; 4]%nat) by reflexivity.
  split; [exact H|].
  destruct (unlocked_velocity_indices_are_sorted (fun _ _ => Ok tt) 5
              Locking.three_joints) as [Hok _].
  exact (proj1 (Hok _ H)).
Defined.

(** ** The names of the positions of a model instance *)

Lemma least_position_start_le (joints : list Names.Joint) :
  forall start,
    (Names.least_position_start start joints <= start)%nat
    /\ forall joint, In joint joints ->
         (Names.least_position_start start joints
          <= Names.position_start joint)%nat.
Proof.
  unfold Names.least_position_start.
  induction joints as [| j rest IH]; intros start; cbn.
  - split; [lia | intros joint []].
  - destruct (IH (Nat.min start (Names.position_start j))) as [H1 H2].
    split; [lia|].
    intros joint [<- | Hin]; [lia | apply H2; exact Hin].
Qed.

Lemma In_list_update {A : Type} (l : list A) (k : nat) (x y : A) :
  In y (list_update l k x) -> In y l \/ y = x.
Proof.
  revert k. induction l as [| z l IH]; intros k H.
  - destruct k; destruct H.
  - destruct k as [| k]; cbn in H.
    + destruct H as [<- | H]; [right; reflexivity | left; right; exact H].
    + destruct H as [<- | H]; [left; left; reflexivity|].
      destruct (IH k H) as [Hl | ->]; [left; right; exact Hl | right; reflexivity].
Qed.

Lemma write_position_names_spec
    (prefix : string) (always_add_suffix : bool) (position_offset : nat)
    (joint : Names.Joint) (names : list string) :
  List.length (Names.write_position_names prefix always_add_suffix
                 position_offset joint names) = List.length names
  /\ forall s,
       In s (Names.write_position_names prefix always_add_suffix
               position_offset joint names) ->
       In s names
       \/ exists i, (i < Names.num_positions joint)%nat
                    /\ s = Names.position_name prefix always_add_suffix joint i.
Proof.
  unfold Names.write_position_names.
  assert (Hgen : forall (positions : list nat) names0,
    List.length
      (fold_left
         (fun names i =>
            list_update names (Names.position_start joint + i - position_offset)
              (Names.position_name prefix always_add_suffix joint i))
         positions names0) = List.length names0
    /\ forall s,
         In s (fold_left
                 (fun names i =>
                    list_update names
                      (Names.position_start joint + i - position_offset)
                      (Names.position_name prefix always_add_suffix joint i))
                 positions names0) ->
         In s names0
         \/ exists i, In i positions
              /\ s = Names.position_name prefix always_add_suffix joint i).
  { induction positions as [| i rest IH]; intros names0; cbn.
    - split; [reflexivity | intros s Hs; left; exact Hs].
    - destruct (IH (list_update names0
                      (Names.position_start joint + i - position_offset)
                      (Names.position_name prefix always_add_suffix joint i)))
        as [L Hin].
      split; [rewrite L; apply length_list_update|].
      intros s Hs. destruct (Hin s Hs) as [H0 | (k & Hk & ->)].
      + apply In_list_update in H0. destruct H0 as [H0 | ->].
        * left. exact H0.
        * right. exists i. split; [left; reflexivity | reflexivity].
      + right. exists k. split; [right; exact Hk | reflexivity]. }
  destruct (Hgen (seq 0 (Names.num_positions joint)) names) as [L Hin].
  split; [exact L|].
  intros s Hs. destruct (Hin s Hs) as [H0 | (i & Hi & ->)].
  - left. exact H0.
  - right. exists i. split; [|reflexivity]. apply in_seq in Hi. lia.
Qed.

Lemma GetPositionNames_loop_spec
    (prefix : string) (always_add_suffix : bool) (position_offset : nat)
    (joints : list Names.Joint) :
  (forall joint, In joint joints ->
     (position_offset <= Names.position_start joint)%nat) ->
  forall names,
    ((exists names',
        Names.GetPositionNames_loop prefix always_add_suffix position_offset
          joints names = Ok names')
     <-> forall joint, In joint joints ->
           (Names.position_start joint + Names.num_positions joint
            <= position_offset + List.length names)%nat)
    /\ (forall e,
          Names.GetPositionNames_loop prefix always_add_suffix position_offset
            joints names = Err e ->
          e = DemandFailed
                "joint.position_start() + joint.num_positions() - position_offset <= ssize(names)")
    /\ (forall names',
          Names.GetPositionNames_loop prefix always_add_suffix position_offset
            joints names = Ok names' ->
          List.length names' = List.length names
          /\ forall s, In s names' ->
               In s names
               \/ exists joint i,
                    In joint joints /\ (i < Names.num_positions joint)%nat
                    /\ s = Names.position_name prefix always_add_suffix
                             joint i).
Proof.
  induction joints as [| j rest IH]; intros Hoffset names.
  - cbn. refine (conj _ (conj _ _)).
    + split; [intros _ joint [] | intros _; eexists; reflexivity].
    + discriminate.
    + intros names' H. injection H as <-. split; [reflexivity|].
      intros s Hs. left. exact Hs.
  - cbn [Names.GetPositionNames_loop].
    assert (Hj : (position_offset <= Names.position_start j)%nat)
      by (apply Hoffset; left; reflexivity).
    apply Nat.leb_le in Hj. rewrite Hj. apply Nat.leb_le in Hj.
    cbn [DRAKE_DEMAND bind].
    destruct (write_position_names_spec prefix always_add_suffix
                position_offset j names) as [Lw Hw].
    destruct (IH (fun joint Hin => Hoffset joint (or_intror Hin))
                (Names.write_position_names prefix always_add_suffix
                   position_offset j names)) as (I1 & I2 & I3).
    rewrite Lw in I1.
    destruct (Nat.leb (Names.position_start j + Names.num_positions j
                       - position_offset) (List.length names)) eqn:Hfit;
      cbn [DRAKE_DEMAND bind].
    + apply Nat.leb_le in Hfit.
      refine (conj _ (conj I2 _)).
      * split.
        -- intros Hex joint [<- | Hin]; [lia|]. apply I1; assumption.
        -- intros Hall. apply I1. intros joint Hin. apply Hall. right.
           exact Hin.
      * intros names' H. destruct (I3 names' H) as [L Hin].
        split; [congruence|].
        intros s Hs. destruct (Hin s Hs) as [H0 | (joint & i & Hjn & Hi & ->)].
        -- destruct (Hw s H0) as [H1 | (i & Hi & ->)].
           ++ left. exact H1.
           ++ right. exists j, i. split; [left; reflexivity|].
              split; [exact Hi | reflexivity].
        -- right. exists joint, i. split; [right; exact Hjn|].
           split; [exact Hi | reflexivity].
    + apply Nat.leb_gt in Hfit.
      refine (conj _ (conj _ _)).
      * split; [intros [names' H]; discriminate|].
        intros Hall. specialize (Hall j (or_introl eq_refl)). lia.
      * intros e H. injection H as <-. reflexivity.
      * discriminate.
Qed.

(** The names of the positions of a model instance, on a finalized
    plant.  The offset is the least [position_start] of the instance's
    joints, so the first sanity check never fails.  The function succeeds
    exactly when the block of every joint ends within
    [num_positions(model_instance)] positions of the offset, that is, when
    the positions of the instance lie next to each other; otherwise it
    aborts on the second sanity check.  A result has one entry per position
    of the instance, and each entry is empty or the name of a position of
    one of the instance's joints. *)
Theorem instance_position_names
    (plant_num_positions instance_num_positions : nat) (instance_name : string)
    (joints : list Names.Joint)
    (add_model_instance_prefix always_add_suffix : bool) :
  let position_offset :=
    Names.least_position_start plant_num_positions joints in
  let prefix :=
    if add_model_instance_prefix then (instance_name ++ "_")%string
    else ""%string in
  let run :=
    Names.GetPositionNames true plant_num_positions instance_num_positions
      instance_name joints add_model_instance_prefix always_add_suffix in
  (forall joint, In joint joints ->
     (position_offset <= Names.position_start joint)%nat)
  /\ ((exists names, run = Ok names)
      <-> forall joint, In joint joints ->
            (Names.position_start joint + Names.num_positions joint
             <= position_offset + instance_num_positions)%nat)
  /\ (forall e, run = Err e ->
        e = DemandFailed
              "joint.position_start() + joint.num_positions() - position_offset <= ssize(names)")
  /\ (forall names, run = Ok names ->
        List.length names = instance_num_positions
        /\ forall s, In s names ->
             s = ""%string
             \/ exists joint i,
                  In joint joints /\ (i < Names.num_positions joint)%nat
                  /\ s = Names.position_name prefix always_add_suffix joint i).
Proof.
  intros position_offset prefix run.
  assert (Hoffset : forall joint, In joint joints ->
            (position_offset <= Names.position_start joint)%nat)
    by apply (least_position_start_le joints plant_num_positions).
  destruct (GetPositionNames_loop_spec prefix always_add_suffix position_offset
              joints Hoffset (repeat ""%string instance_num_positions))
    as (I1 & I2 & I3).
  rewrite repeat_length in I1.
  refine (conj Hoffset (conj I1 (conj I2 _))).
  intros names H. destruct (I3 names H) as [L Hin].
  rewrite repeat_length in L. split; [exact L|].
  intros s Hs. destruct (Hin s Hs) as [H0 | H1].
  - left. apply repeat_spec in H0. exact H0.
  - right. exact H1.
Qed.

Lemma instance_position_names_witness :
  Names.GetPositionNames true 7 2 "arm" Names.contiguous_arm true false =
    Ok ["arm_shoulder"%string; "arm_elbow"%string]
  /\ List.length ["arm_shoulder"%string; "arm_elbow"%string] = 2%nat
  /\ exists e,
       Names.GetPositionNames true 7 2 "arm" Names.interleaved_arm true false =
         Err e
       /\ e = DemandFailed
                "joint.position_start() + joint.num_positions() - position_offset <= ssize(names)".
Proof.
  assert (H : Names.GetPositionNames true 7 2 "arm" Names.contiguous_arm
                true false =
              Ok ["arm_shoulder"%string; "arm_elbow"%string]) by reflexivity.
  destruct (instance_position_names 7 2 "arm" Names.contiguous_arm true false)
    as (_ & _ & _ & Hnames).
  split; [exact H|]. split; [exact (proj1 (Hnames _ H))|].
  destruct (Names.GetPositionNames true 7 2 "arm" Names.interleaved_arm
              true false) as [names | e] eqn:E; [discriminate|].
  exists e. split; [reflexivity|].
  destruct (instance_position_names 7 2 "arm" Names.interleaved_arm true false)
    as (_ & _ & Herr & _).
  apply Herr. exact E.
Defined.

(** ** Coupler constraints and the choice of the contact solver *)

(** The check against TAMSI guards only the calls made after TAMSI has
    been chosen.  On a discrete plant before finalize that is set to another
    solver, a coupler constraint between two joints of one degree of freedom
    is accepted, and the solver can then be set to TAMSI: the plant ends up
    with TAMSI and the constraint stored.  The same two calls in the other
    order fail, on the constraint, with the error about TAMSI.  After
    finalize both functions raise a logic error whatever their arguments. *)
Theorem tamsi_check_guards_later_calls_only
    (plant : Constraints.Plant)
    (joint0 joint1 : JointIndex) (name0 name1 : string)
    (gear_ratio offset : double) (num_constraints : nat)
    (Hbefore : Constraints.is_finalized plant = false)
    (Hdiscrete : Constraints.is_discrete plant = true)
    (Hsolver : Constraints.contact_solver_enum_ plant = Constraints.kSap) :
  (exists plant1 plant2,
     Constraints.AddCouplerConstraint plant joint0 joint1 name0 name1 1 1
       gear_ratio offset num_constraints = Ok (num_constraints, plant1)
     /\ Constraints.set_discrete_contact_solver plant1 Constraints.kTamsi =
        Ok plant2
     /\ Constraints.contact_solver_enum_ plant2 = Constraints.kTamsi
     /\ Constraints.coupler_constraints_specs_ plant2 =
        Constraints.coupler_constraints_specs_ plant ++
        [Constraints.mkCouplerConstraintSpecs joint0 joint1 gear_ratio offset])
  /\ (exists plant1,
        Constraints.set_discrete_contact_solver plant Constraints.kTamsi =
          Ok plant1
        /\ Constraints.AddCouplerConstraint plant1 joint0 joint1 name0 name1
             1 1 gear_ratio offset num_constraints =
           Err (RuntimeError Constraints.tamsi_coupler_message))
  /\ (forall finalized solver nv0 nv1,
        Constraints.is_finalized finalized = true ->
        (exists message,
           Constraints.set_discrete_contact_solver finalized solver =
           Err (LogicError message))
        /\ exists message,
             Constraints.AddCouplerConstraint finalized joint0 joint1 name0
               name1 nv0 nv1 gear_ratio offset num_constraints =
             Err (LogicError message)).
Proof.
  refine (conj _ (conj _ _)).
  - unfold Constraints.AddCouplerConstraint,
      Constraints.set_discrete_contact_solver, Constraints.ThrowIfFinalized.
    destruct plant as [finalized discrete solver specs]. cbn in *.
    subst finalized discrete solver. cbn.
    do 2 eexists. repeat split.
  - unfold Constraints.AddCouplerConstraint,
      Constraints.set_discrete_contact_solver, Constraints.ThrowIfFinalized.
    destruct plant as [finalized discrete solver specs]. cbn in *.
    subst finalized discrete solver. cbn.
    eexists. split; reflexivity.
  - intros finalized solver nv0 nv1 Hfin.
    unfold Constraints.AddCouplerConstraint,
      Constraints.set_discrete_contact_solver, Constraints.ThrowIfFinalized.
    rewrite Hfin. cbn. split; eexists; reflexivity.
Qed.

Lemma tamsi_check_guards_later_calls_only_witness :
  exists plant1 plant2,
    Constraints.AddCouplerConstraint Constraints.sap_plant 0%nat 1%nat
      "left" "right" 1 1 (Fin 2) (Fin 0) 0 = Ok (0%nat, plant1)
    /\ Constraints.set_discrete_contact_solver plant1 Constraints.kTamsi =
       Ok plant2
    /\ Constraints.contact_solver_enum_ plant2 = Constraints.kTamsi.
Proof.
  destruct (tamsi_check_guards_later_calls_only Constraints.sap_plant
              0%nat 1%nat "left" "right" (Fin 2) (Fin 0) 0
              eq_refl eq_refl eq_refl)
    as [(plant1 & plant2 & H1 & H2 & H3 & _) _].
  exists plant1, plant2. repeat split; assumption.
Defined.

(** ** Point contact: action and reaction *)

Lemma dneg_involutive (x : double) : dneg (dneg x) = x.
Proof. destruct x; cbn; try reflexivity. f_equal. ring. Qed.

Lemma v3_neg_involutive (v : Vector3) : v3_neg (v3_neg v) = v.
Proof.
  destruct v as [x y z]. unfold v3_neg. cbn.
  rewrite !dneg_involutive. reflexivity.
Qed.

Lemma at_add_Some (array : list SpatialForce) (i : nat) (F G : SpatialForce) :
  nth_error array i = Some G ->
  at_add array i F = Ok (list_update array i (SpatialForce_add G F)).
Proof. intros H. unfold at_add. rewrite H. reflexivity. Qed.

(** The forces of a point contact on its two bodies are equal and
    opposite.  For a recorded contact between two bodies other than the
    world, with nodes of their own within the array, and a shift of spatial
    forces that keeps the translational part: the pass adds the recorded
    force [f_Bc_W] to the translational force of body B and its opposite to
    that of body A, and leaves every other entry of the array alone. *)
Theorem point_contact_forces_are_equal_and_opposite
    (plant : MultibodyPlant) (ext : Collaborators) (context : Context)
    (F : list SpatialForce) (info : PointPairContactInfo)
    (GA GB : SpatialForce)
    (Hshift : forall G p,
       force_translational (force_Shift ext G p) = force_translational G)
    (Hagrees : agrees_with_its_pair plant info)
    (HA : bodyA_index info <> world_index)
    (HB : bodyB_index info <> world_index)
    (Hnodes : node_index plant (bodyA_index info)
              <> node_index plant (bodyB_index info))
    (HGA : nth_error F (node_index plant (bodyA_index info)) = Some GA)
    (HGB : nth_error F (node_index plant (bodyB_index info)) = Some GB) :
  exists F' GA' GB',
    CalcAndAddContactForcesByPenaltyMethod_pair plant ext context F info =
      Ok F'
    /\ nth_error F' (node_index plant (bodyA_index info)) = Some GA'
    /\ nth_error F' (node_index plant (bodyB_index info)) = Some GB'
    /\ force_translational GA' =
       v3_add (force_translational GA) (v3_neg (contact_force info))
    /\ force_translational GB' =
       v3_add (force_translational GB) (contact_force info)
    /\ forall n,
         n <> node_index plant (bodyA_index info) ->
         n <> node_index plant (bodyB_index info) ->
         nth_error F' n = nth_error F n.
Proof.
  destruct Hagrees as (EA & EB & _).
  unfold CalcAndAddContactForcesByPenaltyMethod_pair. cbv zeta.
  rewrite EA, EB. cbn [bind].
  apply Nat.eqb_neq in HA, HB. rewrite HA, HB. cbn [negb].
  rewrite (at_add_Some _ _ _ _ HGA). cbn [bind].
  rewrite (at_add_Some _ _ _ GB)
    by (rewrite nth_error_list_update_other by exact Hnodes; exact HGB).
  do 3 eexists. split; [reflexivity|].
  refine (conj _ (conj _ (conj _ (conj _ _)))).
  - rewrite nth_error_list_update_other by (intros E; apply Hnodes; symmetry; exact E).
    apply (nth_error_list_update_same _ _ _ GA). exact HGA.
  - apply (nth_error_list_update_same _ _ _ GB).
    rewrite nth_error_list_update_other by exact Hnodes. exact HGB.
  - cbn. rewrite Hshift. reflexivity.
  - cbn. rewrite Hshift. cbn. rewrite v3_neg_involutive. reflexivity.
  - intros n HnA HnB.
    rewrite nth_error_list_update_other by (intros E; apply HnB; symmetry; exact E).
    rewrite nth_error_list_update_other by (intros E; apply HnA; symmetry; exact E).
    reflexivity.
Qed.

Lemma point_contact_forces_are_equal_and_opposite_witness :
  exists F' GA' GB',
    CalcAndAddContactForcesByPenaltyMethod_pair stacked_boxes_plant
      (example_collaborators stacked_boxes_plant) (box_context falling)
      [SpatialForce_Zero; SpatialForce_Zero; SpatialForce_Zero]
      stacked_boxes_contact = Ok F'
    /\ nth_error F' 1 = Some GA'
    /\ nth_error F' 2 = Some GB'
    /\ force_translational GA' =
       v3_add v3_zero (v3_neg (mkVector3 (Fin 0) (Fin 0) (Fin (- 1))))
    /\ force_translational GB' =
       v3_add v3_zero (mkVector3 (Fin 0) (Fin 0) (Fin (- 1))).
Proof.
  destruct (point_contact_forces_are_equal_and_opposite stacked_boxes_plant
              (example_collaborators stacked_boxes_plant) (box_context falling)
              [SpatialForce_Zero; SpatialForce_Zero; SpatialForce_Zero]
              stacked_boxes_contact SpatialForce_Zero SpatialForce_Zero)
    as (F' & GA' & GB' & E & EA & EB & HA & HB & _).
  - intros G p. reflexivity.
  - repeat split.
  - cbn. discriminate.
  - cbn. discriminate.
  - cbn. discriminate.
  - reflexivity.
  - reflexivity.
  - exists F', GA', GB'. repeat split; assumption.
Defined.
